(** * The xsklen12 dice-wars player: candidate generation and Max^n search

    A shallow embedding of [dicewars/ai/xsklen12/ai.py].  Python integers are
    [Z], Python floats are IEEE binary64 values ([PrimFloat.float]), the
    heuristic dictionary is a [gmap Z Z], the rotation deque is a list whose
    right end is the deque's right end, and every object that the Python code
    mutates in place (the board's areas, [self.transfer_count], the [turns]
    and [ignored_areas] lists, the deque) is threaded through explicitly. *)

From Stdlib Require Import ZArith Floats Lia List Permutation.
From stdpp Require Import base option gmap.
Import ListNotations.

Local Open Scope Z_scope.
Set Warnings "-inexact-float".

(** ** Exceptions and results *)

(** The Python exceptions the module can meet: a dictionary lookup of a
    missing area ([KeyError]), [max] of an empty sequence ([ValueError]) and
    the right end of an empty deque ([IndexError]). *)
Inductive exn : Type :=
  | KeyError
  | ValueError
  | IndexError.

(** A call returns, raises, or (for the fuelled recursions only) uses up
    its fuel. *)
Inductive outcome (A : Type) : Type :=
  | Ret (a : A)
  | Raise (e : exn)
  | OutOfFuel.

Arguments Ret {A} a.
Arguments Raise {A} e.
Arguments OutOfFuel {A}.

#[global] Instance outcome_ret : MRet outcome := fun A a => Ret a.

#[global] Instance outcome_bind : MBind outcome := fun A B k m =>
  match m with
  | Ret a => k a
  | Raise e => Raise e
  | OutOfFuel => OutOfFuel
  end.

(** ** Python built-ins used by the module *)

(** [x in l] on a list of integers. *)
Definition mem (x : Z) (l : list Z) : bool := existsb (Z.eqb x) l.

(** [max(l)] on integers: [ValueError] on the empty sequence. *)
Definition py_max (l : list Z) : outcome Z :=
  match l with
  | [] => Raise ValueError
  | x :: rest => Ret (fold_left Z.max rest x)
  end.

(** [max(l)] on floats: the first maximal item is kept, a later item
    replaces it only when it compares strictly greater. *)
Definition py_max_float (l : list float) : outcome float :=
  match l with
  | [] => Raise ValueError
  | x :: rest => Ret (fold_left (fun m y => if PrimFloat.ltb m y then y else m) rest x)
  end.

(** ** The board snapshot *)

(** Modelled from the spec: the Region of the data model ("identity
    (integer id), owner (player id), dice count, set of adjacent region
    ids"); the class [Area] of [dicewars.client.game] is not part of the
    sources at hand.  The fields carry the names of the getters that
    [ai.py] calls. *)
Record Area : Type := mkArea {
  get_name : Z;
  get_owner_name : Z;
  get_dice : Z;
  get_adjacent_areas_names : list Z
}.

(** Modelled from the spec: the Board Snapshot; [board.areas.values()] in
    dictionary order.  The dictionary is keyed by area name, so the names
    of a board are pairwise distinct ([board_wf] below). *)
Definition Board : Type := list Area.

Definition area_names (board : Board) : list Z := map get_name board.

Definition board_wf (board : Board) : Prop := List.NoDup (area_names board).

(** The dictionary lookup behind [board.get_area]. *)
Definition find_area (board : Board) (idx : Z) : option Area :=
  List.find (fun a => get_name a =? idx) board.

(** Modelled from the spec: [board.get_area(idx)], a dictionary lookup
    that raises [KeyError] on a missing name. *)
Definition get_area (board : Board) (idx : Z) : outcome Area :=
  match find_area board idx with
  | Some a => Ret a
  | None => Raise KeyError
  end.

(** A field read through a reference obtained from [get_area]: the area
    objects are shared with the board, so a read sees the latest write. *)
Definition dice_of (board : Board) (idx : Z) : Z :=
  match find_area board idx with
  | Some a => get_dice a
  | None => 0
  end.

Definition owner_of (board : Board) (idx : Z) : option Z :=
  get_owner_name <$> find_area board idx.

(** In-place update of the area object stored under [idx]. *)
Fixpoint update_area (idx : Z) (f : Area -> Area) (board : Board) : Board :=
  match board with
  | [] => []
  | a :: rest =>
      if get_name a =? idx then f a :: rest else a :: update_area idx f rest
  end.

(** Modelled from the spec: [area.set_dice(d)] and [area.set_owner(o)]
    ("the core only reads/writes dice count and owner during simulation"),
    plain field writes on the shared area object. *)
Definition set_dice (idx d : Z) (board : Board) : Board :=
  update_area idx (fun a => mkArea (get_name a) (get_owner_name a) d (get_adjacent_areas_names a)) board.

Definition set_owner (idx o : Z) (board : Board) : Board :=
  update_area idx (fun a => mkArea (get_name a) o (get_dice a) (get_adjacent_areas_names a)) board.

(** Modelled from the spec: [board.get_player_areas(player)], the areas the
    player owns, in board order. *)
Definition get_player_areas (board : Board) (player_name : Z) : list Area :=
  List.filter (fun a => get_owner_name a =? player_name) board.

(** [adj] names an existing area that [player_name] does not own. *)
Definition is_enemy_area (board : Board) (player_name adj : Z) : bool :=
  match find_area board adj with
  | Some other => negb (get_owner_name other =? player_name)
  | None => false
  end.

(** Modelled from the spec: a border region is "an owned region adjacent
    to at least one enemy-owned region". *)
Definition is_at_border (board : Board) (area : Area) : bool :=
  existsb (is_enemy_area board (get_owner_name area)) (get_adjacent_areas_names area).

(** Modelled from the spec: [board.get_player_border(player)]. *)
Definition get_player_border (board : Board) (player_name : Z) : list Area :=
  List.filter (is_at_border board) (get_player_areas board player_name).

(** Modelled from the spec: [board.get_player_dice(player)], "total dice
    owned". *)
Definition get_player_dice (board : Board) (player_name : Z) : Z :=
  fold_right Z.add 0 (map get_dice (get_player_areas board player_name)).

(** Modelled from the spec: [board.nb_players_alive()], the number of
    distinct owners on the board. *)
Definition living_players (board : Board) : gset Z :=
  list_to_set (map get_owner_name board).

Definition nb_players_alive (board : Board) : Z :=
  Z.of_nat (size (living_players board)).

(** Modelled from the spec: the region-group, a "maximal set of same-owner
    regions connected through same-owner adjacency".  One round adds every
    area of the owner that is adjacent to a member; as many rounds as the
    board has areas reach the whole group. *)
Definition adjacent (board : Board) (m n : Z) : bool :=
  match find_area board m with
  | Some a => mem n (get_adjacent_areas_names a)
  | None => false
  end.

Definition region_step (board : Board) (owner : Z) (region : list Z) : list Z :=
  region ++
  map get_name
    (List.filter
       (fun a => (get_owner_name a =? owner)
                 && negb (mem (get_name a) region)
                 && existsb (fun m => adjacent board m (get_name a)) region)
       board).

Definition get_areas_region (board : Board) (owner start : Z) : list Z :=
  Nat.iter (length board) (region_step board owner) [start].

(** Modelled from the spec: [board.get_players_regions(player)], the
    player's region-groups, each a list of area names. *)
Definition get_players_regions (board : Board) (player_name : Z) : list (list Z) :=
  fold_left
    (fun regions a =>
       if existsb (mem (get_name a)) regions then regions
       else regions ++ [get_areas_region board player_name (get_name a)])
    (get_player_areas board player_name) [].

(** Modelled from the spec: [area.can_attack()].  An attack commits all
    but one die of its source and "dice count of any region stays within
    [1, 8] after any simulated action", so only an area that holds at least
    two dice attacks. *)
Definition can_attack (area : Area) : bool := 2 <=? get_dice area.

(** Modelled from the spec: [possible_attacks(board, player)], "every pair
    (source, target) where source is owned by the player and target is an
    adjacent enemy-owned region", in the order of the player's border and,
    for one source, of its adjacency list; a source that cannot attack is
    passed over. *)
Definition possible_attacks (board : Board) (player_name : Z) : list (Area * Area) :=
  flat_map
    (fun area =>
       flat_map
         (fun adj =>
            match find_area board adj with
            | Some target =>
                if get_owner_name target =? player_name then [] else [(area, target)]
            | None => []
            end)
         (get_adjacent_areas_names area))
    (List.filter can_attack (get_player_border board player_name)).

(** ** Class constants *)

Definition MAX_DICE : Z := 8.
Definition MAX_N_TURNS_LIMIT : Z := 5.
Definition MAX_N_TOTAL_TURNS_LIMIT : Z := 1000.
Definition MAX_N_TIME_THRESHOLD : float := 1%float.
Definition MAX_N_DEPTH : nat := 5.
Definition MAX_N_ITERATIONS : nat := 1.
Definition LARGEST_REGION_HEURISTIC_WEIGHT : Z := 50.
Definition REGION_HEURISTIC_WEIGHT : Z := 5.
Definition ATTACK_PROBABILITY_THRESHOLD : float := 0.2%float.
Definition ATTACK_FROM_LARGEST_REGION_WEIGHT : float := 3%float.
Definition ATTACK_PLAYERS_LIMIT_2 : Z := 2.
Definition ATTACK_PROBABILITY_THRESHOLD_2 : float := 0.4%float.
Definition ATTACK_FROM_LARGEST_REGION_WEIGHT_2 : float := 2%float.
Definition TRANSFER_PROBABILITY_THRESHOLD : float := 0.3%float.
Definition BATTLE_COMMAND : Z := 1.
Definition TRANSFER_COMMAND : Z := 2.

(** The fields of [self] that the search reads: they are set by [__init__]
    and by the head of [ai_turn] and stay fixed afterwards. *)
Record AI : Type := mkAI {
  self_player_name : Z;
  self_max_transfers : Z;
  self_transfer_count_this_turn : Z
}.

(** The commands handed back to the driver. *)
Inductive Command : Type :=
  | BattleCommand (source target : Z)
  | TransferCommand (source target : Z)
  | EndTurnCommand.

(** A candidate as the caller sees it, [(source, target, command_type)],
    and as the generator ranks it, with its score appended. *)
Definition Turn : Type := Z * Z * Z.
Definition ScoredTurn : Type := Z * Z * Z * float.

(** ** Command translation and simulation *)

(** [AI.__perform_command] *)
Definition perform_command (self : AI) (source target command_type nb_transfers_this_turn : Z) : Command :=
  if command_type =? BATTLE_COMMAND then BattleCommand source target
  else if (command_type =? TRANSFER_COMMAND) && (nb_transfers_this_turn <? self_max_transfers self)
  then TransferCommand source target
  else EndTurnCommand.

(** [AI.__simulate_command]: the board is mutated in place; every read goes
    through the area references taken at the head of the function. *)
Definition simulate_command (board : Board) (source_name target_name command_type : Z) : outcome Board :=
  _ ← get_area board source_name;
  _ ← get_area board target_name;
  if command_type =? BATTLE_COMMAND then
    let board := set_dice target_name (dice_of board source_name - 1) board in
    let board := set_dice source_name 1 board in
    let board := set_owner target_name source_name board in
    Ret board
  else if command_type =? TRANSFER_COMMAND then
    let former_target_dice := dice_of board target_name in
    let board := set_dice target_name (Z.min (dice_of board target_name + dice_of board source_name) MAX_DICE) board in
    let board := set_dice source_name (Z.max (dice_of board source_name - (dice_of board target_name - former_target_dice)) 1) board in
    Ret board
  else Ret board.

(** ** Heuristic evaluation *)

(** The body of the loop of [AI.__get_players_heuristics] for one player:
    the running value starts at the player's dice, every region adds its
    weighted size and records the size, the largest recorded size is added
    last. *)
Definition player_heuristic (board : Board) (player : Z) : outcome Z :=
  let player_regions := get_players_regions board player in
  let '(value, player_regions_sizes) :=
    fold_left
      (fun '(value, sizes) region =>
         let region_size := Z.of_nat (length region) in
         (value + REGION_HEURISTIC_WEIGHT * region_size, sizes ++ [region_size]))
      player_regions (get_player_dice board player, []) in
  largest ← py_max player_regions_sizes;
  Ret (value + LARGEST_REGION_HEURISTIC_WEIGHT * largest).

Fixpoint players_heuristics_loop (players : list Z) (board : Board) (players_heuristics : gmap Z Z) : outcome (gmap Z Z) :=
  match players with
  | [] => Ret players_heuristics
  | player :: rest =>
      value ← player_heuristic board player;
      players_heuristics_loop rest board (<[player := value]> players_heuristics)
  end.

(** [AI.__get_players_heuristics] *)
Definition get_players_heuristics (players : list Z) (board : Board) : outcome (gmap Z Z) :=
  players_heuristics_loop players board ∅.

(** ** Candidate generation *)

(** [sorted(turns, key = lambda turn: turn[3], reverse = True)]: a stable
    sort by descending score, written as an insertion sort.  (On scores
    that are not totally ordered, that is with a NaN among them, Python's
    order depends on its merge strategy; the permutation is all that the
    results below use.) *)
Definition score (t : ScoredTurn) : float := snd t.

Fixpoint insert_desc (t : ScoredTurn) (sorted : list ScoredTurn) : list ScoredTurn :=
  match sorted with
  | [] => [t]
  | u :: rest =>
      if PrimFloat.ltb (score t) (score u) then u :: insert_desc t rest
      else t :: u :: rest
  end.

Definition sorted_desc (turns : list ScoredTurn) : list ScoredTurn :=
  fold_right insert_desc [] turns.

(** [AI.__get_largest_region_for_player] *)
Definition get_largest_region_for_player (player_name : Z) (board : Board) : outcome (list Z) :=
  let players_regions := get_players_regions board player_name in
  max_region_size ← py_max (map (fun region => Z.of_nat (length region)) players_regions);
  Ret (hd [] (List.filter (fun region => Z.of_nat (length region) =? max_region_size) players_regions)).

(** The state that candidate generation mutates: the board (probed and
    restored by [__get_transfer_probability]), [self.transfer_count] and the
    [turns] list. *)
Record GenState : Type := mkGen {
  gen_board : Board;
  gen_transfer_count : Z;
  gen_turns : list ScoredTurn
}.

Section Generator.

(** The probability oracle of [dicewars.ai.utils], external to the
    decision engine: pure functions of the board they are shown. *)
Variable probability_of_successful_attack : Board -> Z -> Z -> float.
Variable probability_of_holding_area : Board -> Z -> Z -> Z -> float.
Variable self : AI.

(** The comprehension [enemy_area_names] of [__get_transfer_probability]. *)
Fixpoint enemy_names (board : Board) (player_name : Z) (names : list Z) : outcome (list Z) :=
  match names with
  | [] => Ret []
  | enemy_area_name :: rest =>
      a ← get_area board enemy_area_name;
      others ← enemy_names board player_name rest;
      Ret (if get_owner_name a =? player_name then others else enemy_area_name :: others)
  end.

(** [AI.__get_transfer_probability]: returns the score and the board as the
    call leaves it. *)
Definition get_transfer_probability (board : Board) (source target player_name : Z) : outcome (float * Board) :=
  source_area ← get_area board source;
  target_area ← get_area board target;
  let final_dice := Z.min (get_dice target_area + get_dice source_area) MAX_DICE in
  let original_dice := get_dice target_area in
  enemy_area_names ← enemy_names board player_name (get_adjacent_areas_names target_area);
  let board := set_dice target final_dice board in
  let attack_probabilities :=
    1%float :: map (fun enemy_area_name => probability_of_successful_attack board target enemy_area_name) enemy_area_names in
  let board := set_dice target original_dice board in
  best ← py_max_float attack_probabilities;
  Ret (PrimFloat.mul (probability_of_holding_area board (get_name target_area) final_dice player_name) best, board).

(** The loop that fills [turn_probabilities] in
    [__request_transfer_from_area]. *)
Fixpoint chain_probabilities (board : Board) (source player_name : Z) (border_area_names names : list Z) : outcome (list float * Board) :=
  match names with
  | [] => Ret ([], board)
  | neighbor_area_name :: rest =>
      if mem neighbor_area_name border_area_names then
        '(p, board) ← get_transfer_probability board source neighbor_area_name player_name;
        '(ps, board) ← chain_probabilities board source player_name border_area_names rest;
        Ret (p :: ps, board)
      else chain_probabilities board source player_name border_area_names rest
  end.

(** The first loop of [__request_transfer_from_area] (lines 202-204);
    [request] is the recursive call, made for every adjacent inner area
    that the chain has not visited yet.  [ignored_areas] is the list object
    shared by the whole chain. *)
Fixpoint visit_inner (request : Z -> list Z -> GenState -> outcome (list Z * GenState))
    (inner_area_names : list Z) (names : list Z) (ignored_areas : list Z) (st : GenState)
    : outcome (list Z * GenState) :=
  match names with
  | [] => Ret (ignored_areas, st)
  | neighbor_area_name :: rest =>
      if negb (mem neighbor_area_name ignored_areas) && mem neighbor_area_name inner_area_names then
        '(ignored_areas, st) ← request neighbor_area_name ignored_areas st;
        visit_inner request inner_area_names rest ignored_areas st
      else visit_inner request inner_area_names rest ignored_areas st
  end.

(** [AI.__request_transfer_from_area]; it returns [ignored_areas] and the
    generation state as the call leaves them.  Every recursive call ignores
    one more inner area, which bounds the depth. *)
Fixpoint request_transfer_from_area (fuel : nat) (source target original_target : Z)
    (inner_area_names border_area_names : list Z) (player_name : Z)
    (ignored_areas : list Z) (st : GenState) {struct fuel} : outcome (list Z * GenState) :=
  match fuel with
  | O => OutOfFuel
  | S fuel =>
      source_area ← get_area (gen_board st) source;
      _ ← get_area (gen_board st) target;
      original_target_area ← get_area (gen_board st) original_target;
      let ignored_areas := ignored_areas ++ [source] in
      '(ignored_areas, st) ←
        visit_inner
          (fun neighbor_area_name ignored_areas st =>
             request_transfer_from_area fuel neighbor_area_name source original_target
               inner_area_names border_area_names player_name ignored_areas st)
          inner_area_names (get_adjacent_areas_names source_area) ignored_areas st;
      '(turn_probabilities, board) ←
        chain_probabilities (gen_board st) source player_name border_area_names
          (get_adjacent_areas_names original_target_area);
      turn_probability ← py_max_float turn_probabilities;
      if (gen_transfer_count st <? self_max_transfers self)
         && PrimFloat.ltb TRANSFER_PROBABILITY_THRESHOLD turn_probability
         && (dice_of board target <? MAX_DICE)
         && (1 <? dice_of board source)
      then Ret (ignored_areas,
                mkGen board (gen_transfer_count st + 1)
                  (gen_turns st ++ [(source, target, TRANSFER_COMMAND, turn_probability)]))
      else Ret (ignored_areas, mkGen board (gen_transfer_count st) (gen_turns st))
  end.

(** The attack loop of [__get_possible_turns]: the candidates appended for
    one pair of [possible_attacks]. *)
Definition attack_turn (board : Board) (player_name : Z) (attack_probability_threshold attack_from_largest_region_weight : float)
    (largest_region : list Z) (pair : Area * Area) : list ScoredTurn :=
  let '(source, target) := pair in
  let source_name := get_name source in
  let target_name := get_name target in
  let attack_power := get_dice target in
  let turn_probability := probability_of_successful_attack board source_name target_name in
  let turn_probability :=
    PrimFloat.mul turn_probability (probability_of_holding_area board target_name attack_power player_name) in
  if PrimFloat.leb attack_probability_threshold turn_probability || (attack_power =? MAX_DICE) then
    let turn_probability :=
      if mem source_name largest_region
      then PrimFloat.mul turn_probability attack_from_largest_region_weight
      else turn_probability in
    [(source_name, target_name, BATTLE_COMMAND, turn_probability)]
  else [].

(** The inner loop of the first branch: one chain request per adjacent
    inner area, each with a fresh [ignored_areas] list. *)
Fixpoint chain_requests (area_name : Z) (inner_area_names border_area_names : list Z) (player_name : Z)
    (names : list Z) (st : GenState) : outcome GenState :=
  match names with
  | [] => Ret st
  | neighbor_area_name :: rest =>
      if mem neighbor_area_name inner_area_names then
        '(_, st) ←
          request_transfer_from_area (S (length inner_area_names)) neighbor_area_name area_name area_name
            inner_area_names border_area_names player_name [] st;
        chain_requests area_name inner_area_names border_area_names player_name rest st
      else chain_requests area_name inner_area_names border_area_names player_name rest st
  end.

(** The inner loop of the second branch: direct transfers into a border
    area. *)
Fixpoint border_transfers (area_name : Z) (player_area_names border_area_names : list Z) (player_name : Z)
    (names : list Z) (st : GenState) : outcome GenState :=
  match names with
  | [] => Ret st
  | neighbor_area_name :: rest =>
      if negb (mem neighbor_area_name player_area_names) then
        border_transfers area_name player_area_names border_area_names player_name rest st
      else
        _ ← get_area (gen_board st) neighbor_area_name;
        '(turn_probability, board) ←
          get_transfer_probability (gen_board st) neighbor_area_name area_name player_name;
        let st :=
          if (1 <? dice_of board neighbor_area_name)
             && PrimFloat.ltb TRANSFER_PROBABILITY_THRESHOLD turn_probability
             && negb (mem neighbor_area_name border_area_names)
          then mkGen board (gen_transfer_count st + 1)
                 (gen_turns st ++ [(neighbor_area_name, area_name, TRANSFER_COMMAND, turn_probability)])
          else mkGen board (gen_transfer_count st) (gen_turns st) in
        border_transfers area_name player_area_names border_area_names player_name rest st
  end.

(** The loop over the player's areas (lines 150-177). *)
Fixpoint transfer_loop (player_area_names border_area_names border_neighbor_area_names inner_area_names : list Z)
    (player_name : Z) (areas : list Area) (st : GenState) : outcome GenState :=
  match areas with
  | [] => Ret st
  | area :: rest =>
      if gen_transfer_count st =? self_max_transfers self then Ret st
      else if mem (get_name area) border_neighbor_area_names then
        st ← chain_requests (get_name area) inner_area_names border_area_names player_name
               (get_adjacent_areas_names area) st;
        transfer_loop player_area_names border_area_names border_neighbor_area_names inner_area_names
          player_name rest st
      else if mem (get_name area) border_area_names && (dice_of (gen_board st) (get_name area) <? MAX_DICE) then
        st ← border_transfers (get_name area) player_area_names border_area_names player_name
               (get_adjacent_areas_names area) st;
        transfer_loop player_area_names border_area_names border_neighbor_area_names inner_area_names
          player_name rest st
      else
        transfer_loop player_area_names border_area_names border_neighbor_area_names inner_area_names
          player_name rest st
  end.

(** The head of [__get_possible_turns] (lines 117-122): the threshold and
    the weight in force on the board. *)
Definition attack_parameters (board : Board) : float * float :=
  if ATTACK_PLAYERS_LIMIT_2 <? nb_players_alive board
  then (ATTACK_PROBABILITY_THRESHOLD_2, ATTACK_FROM_LARGEST_REGION_WEIGHT_2)
  else (ATTACK_PROBABILITY_THRESHOLD, ATTACK_FROM_LARGEST_REGION_WEIGHT).

(** [AI.__get_possible_turns]: the ranked candidates and the board as the
    call leaves it. *)
Definition get_possible_turns (player_name : Z) (board : Board) : outcome (list Turn * Board) :=
  let '(attack_probability_threshold, attack_from_largest_region_weight) := attack_parameters board in
  largest_region ← get_largest_region_for_player player_name board;
  let turns :=
    flat_map
      (attack_turn board player_name attack_probability_threshold attack_from_largest_region_weight largest_region)
      (possible_attacks board player_name) in
  let transfer_count :=
    if player_name =? self_player_name self then self_transfer_count_this_turn self else 0 in
  let border_area_names := map get_name (get_player_border board player_name) in
  let player_area_names := map get_name (get_player_areas board player_name) in
  let border_neighbor_area_names :=
    map get_name
      (List.filter
         (fun area => negb (mem (get_name area) border_area_names)
                      && existsb (fun neighbor_name => mem neighbor_name border_area_names)
                           (get_adjacent_areas_names area))
         (get_player_areas board player_name)) in
  let inner_area_names :=
    map get_name
      (List.filter
         (fun area => negb (mem (get_name area) border_area_names)
                      && negb (mem (get_name area) border_neighbor_area_names))
         (get_player_areas board player_name)) in
  st ← transfer_loop player_area_names border_area_names border_neighbor_area_names inner_area_names
         player_name (get_player_areas board player_name) (mkGen board transfer_count turns);
  let turns := sorted_desc (gen_turns st) in
  Ret (map fst turns, gen_board st).

(** ** Max^n search *)

(** What one call of [__max_n] hands back: the chosen turn, the heuristics,
    and the rotation deque as the call leaves it (the deque object is
    shared by all the calls of one search). *)
Definition SearchResult : Type := option Turn * gmap Z Z * list Z.

(** The comparison made for one explored candidate (lines 271-274). *)
Definition absorb (player_name : Z) (best : gmap Z Z * Turn) (candidate : Turn)
    (players_new_heuristics : gmap Z Z) : gmap Z Z * Turn :=
  let '(players_heuristics, turn) := best in
  match players_new_heuristics !! player_name with
  | Some new_value =>
      match players_heuristics !! player_name with
      | None => (players_new_heuristics, candidate)
      | Some value =>
          if value <? new_value then (players_new_heuristics, candidate) else (players_heuristics, turn)
      end
  | None => (players_heuristics, turn)
  end.

(** The loop over the candidates (lines 266-274); [search] is the recursive
    call at [depth - 1]. *)
Fixpoint explore (search : Board -> list Z -> outcome SearchResult) (board : Board) (player_name : Z)
    (turns : list Turn) (best : gmap Z Z * Turn) (players_names : list Z) : outcome (gmap Z Z * Turn * list Z) :=
  match turns with
  | [] => Ret (best, players_names)
  | (source, target, command_type) :: rest =>
      board_copy ← simulate_command board source target command_type;
      '(_, players_new_heuristics, players_names) ← search board_copy players_names;
      explore search board player_name rest
        (absorb player_name best (source, target, command_type) players_new_heuristics) players_names
  end.

(** [AI.__max_n] *)
Fixpoint max_n (fuel : nat) (board : Board) (players_names : list Z) (depth : nat) {struct fuel} : outcome SearchResult :=
  match fuel with
  | O => OutOfFuel
  | S fuel =>
      match last players_names with
      | None =>
          players_heuristics ← get_players_heuristics [self_player_name self] board;
          Ret (None, players_heuristics, players_names)
      | Some player_name =>
          match get_player_areas board player_name with
          | [] => max_n fuel board (removelast players_names) depth
          | _ :: _ =>
              match depth with
              | S depth' =>
                  '(all_turns, board) ← get_possible_turns player_name board;
                  match firstn depth all_turns with
                  | [] =>
                      '(_, players_heuristics, players_names) ← max_n fuel board players_names 0;
                      Ret (None, players_heuristics, players_names)
                  | turns =>
                      '(players_heuristics, turn, players_names) ←
                        explore (fun board_copy players_names => max_n fuel board_copy players_names depth')
                          board player_name turns (∅, (0, 0, BATTLE_COMMAND)) players_names;
                      Ret (if decide (players_heuristics = ∅) then None else Some turn,
                           players_heuristics, players_names)
                  end
              | O =>
                  let players_names := removelast players_names in
                  match players_names with
                  | _ :: _ => max_n fuel board players_names MAX_N_DEPTH
                  | [] =>
                      players_heuristics ← get_players_heuristics (elements (living_players board)) board;
                      Ret (None, players_heuristics, players_names)
                  end
              end
          end
      end
  end.

(** Fuel that always suffices: every recursive call either shortens the
    rotation or keeps it and lowers the depth. *)
Definition max_n_fuel (players_names : list Z) (depth : nat) : nat :=
  (length players_names * S (Nat.max MAX_N_DEPTH depth) + depth + 1)%nat.

End Generator.

(** The rotation built by [AI.ai_turn] (lines 78-81): the players in
    reverse table order, rotated to the right until the acting player sits
    at the right end.  An empty table raises [IndexError]; when the acting
    player is not in the table the Python loop does not end, and no fuel is
    enough. *)
Fixpoint rotate_to (fuel : nat) (player : Z) (players : list Z) : outcome (list Z) :=
  match last players with
  | None => Raise IndexError
  | Some p =>
      if p =? player then Ret players
      else
        match fuel with
        | O => OutOfFuel
        | S fuel => rotate_to fuel player (p :: removelast players)
        end
  end.

Definition search_rotation (player : Z) (players_order : list Z) : outcome (list Z) :=
  rotate_to (length players_order) player (rev players_order).

(** [AI.ai_turn]; [self.transfer_count_this_turn] is set from the
    argument before anything else runs. *)
Definition ai_turn (probability_of_successful_attack : Board -> Z -> Z -> float)
    (probability_of_holding_area : Board -> Z -> Z -> Z -> float)
    (player : Z) (players_order : list Z) (max_transfers : Z)
    (board : Board) (nb_moves_this_turn nb_transfers_this_turn nb_turns_this_game : Z) (time_left : float)
    : outcome Command :=
  let self := mkAI player max_transfers nb_transfers_this_turn in
  if PrimFloat.leb MAX_N_TIME_THRESHOLD time_left
     && (nb_moves_this_turn <? MAX_N_TURNS_LIMIT)
     && (nb_turns_this_game <? MAX_N_TOTAL_TURNS_LIMIT)
  then
    players ← search_rotation player players_order;
    let players_copy := players in
    let players := Nat.iter (MAX_N_ITERATIONS - 1) (fun players => players ++ players_copy) players in
    '(turn, _, _) ←
      max_n probability_of_successful_attack probability_of_holding_area self
        (max_n_fuel players MAX_N_DEPTH) board players MAX_N_DEPTH;
    match turn with
    | None => Ret EndTurnCommand
    | Some (source, target, command_type) =>
        Ret (perform_command self source target command_type nb_transfers_this_turn)
    end
  else
    '(turns, _) ←
      get_possible_turns probability_of_successful_attack probability_of_holding_area self player board;
    match turns with
    | (source, target, command_type) :: _ =>
        Ret (perform_command self source target command_type nb_transfers_this_turn)
    | [] => Ret EndTurnCommand
    end.

(** ** A dice oracle for worked examples

    The theorems below hold for every oracle.  The worked examples run the
    model with the oracle of the game: an attack succeeds when the
    attacker's dice total exceeds the defender's, and an area is held when
    every adjacent enemy stack of more than one die fails its attack. *)

Fixpoint add_lists (l1 l2 : list Z) : list Z :=
  match l1, l2 with
  | [], _ => l2
  | _, [] => l1
  | x :: r1, y :: r2 => (x + y) :: add_lists r1 r2
  end.

(** [dice_totals n]: at index [t], the number of ways [n] dice total [t]. *)
Fixpoint dice_totals (n : nat) : list Z :=
  match n with
  | O => [1]
  | S n =>
      let l := dice_totals n in
      fold_right add_lists [] (map (fun face => repeat 0 face ++ l) [1; 2; 3; 4; 5; 6]%nat)
  end.

Definition count_wins (atk def : list Z) : Z :=
  fold_right Z.add 0
    (flat_map
       (fun '(a, wa) => map (fun '(d, wd) => if (d <? a)%nat then wa * wd else 0)
                         (combine (seq 0 (length def)) def))
       (combine (seq 0 (length atk)) atk)).

Definition float_of_Z (z : Z) : float := PrimFloat.of_uint63 (Uint63.of_Z z).

Definition attack_success_probability (atk def : Z) : float :=
  PrimFloat.div
    (float_of_Z (count_wins (dice_totals (Z.to_nat atk)) (dice_totals (Z.to_nat def))))
    (float_of_Z (6 ^ (Z.max atk 0 + Z.max def 0))).

Definition dice_attack_oracle (board : Board) (atk_area target_area : Z) : float :=
  attack_success_probability (dice_of board atk_area) (dice_of board target_area).

Definition dice_hold_oracle (board : Board) (area_name area_dice player_name : Z) : float :=
  match find_area board area_name with
  | None => 1%float
  | Some area =>
      fold_left
        (fun probability adj =>
           match find_area board adj with
           | Some adjacent_area =>
               if (get_owner_name adjacent_area =? player_name) || (get_dice adjacent_area =? 1)
               then probability
               else PrimFloat.mul probability
                      (PrimFloat.sub 1 (attack_success_probability (get_dice adjacent_area) area_dice))
           | None => probability
           end)
        (get_adjacent_areas_names area) 1%float
  end.

(** ** Worked boards *)

(** Two adjacent areas: area 10 of player 1 with four dice, area 20 of
    player 2 with two dice. *)
Definition duel_board : Board :=
  [mkArea 10 1 4 [20]; mkArea 20 2 2 [10]].

(** Two adjacent areas of player 1: area 10 with three dice, area 20 with
    two. *)
Definition transfer_board : Board :=
  [mkArea 10 1 3 [20]; mkArea 20 1 2 [10]].

(** The acting player of the worked examples: player 1, at most six
    transfers a turn, none made yet. *)
Definition example_ai : AI := mkAI 1 6 0.

(** Area 1 of player 1 holds eight dice and faces area 2 of player 2 with
    seven dice, itself backed by two more eight-dice areas of player 2. *)
Definition siege_board : Board :=
  [mkArea 1 1 8 [2]; mkArea 2 2 7 [1; 3; 4]; mkArea 3 2 8 [2]; mkArea 4 2 8 [2]].

(** The scenario of the specification: area 1 (player 1, eight dice) next to
    area 2 (player 2, two dice), and an oracle that gives every attack one
    chance in ten. *)
Definition pair_board : Board :=
  [mkArea 1 1 8 [2]; mkArea 2 2 2 [1]].

Definition gloomy_attack_oracle (board : Board) (atk_area target_area : Z) : float := 0.1%float.

Definition sure_hold_oracle (board : Board) (area_name area_dice player_name : Z) : float := 1%float.

(** Player 1 behind its border: area 2 borders the one-die area 1 of
    player 2, areas 3 and 4 are next to the border, area 5 is an inner area
    adjacent to both, area 6 an inner area behind area 5. *)
Definition chain_board : Board :=
  [mkArea 1 2 1 [2]; mkArea 2 1 2 [1; 3; 4]; mkArea 3 1 2 [2; 5]; mkArea 4 1 2 [2; 5];
   mkArea 5 1 2 [3; 4; 6]; mkArea 6 1 2 [5]].

(** Three areas in a line: areas 1 and 2 of player 1, area 3 of player 2. *)
Definition line_board : Board :=
  [mkArea 1 1 3 [2]; mkArea 2 1 2 [1; 3]; mkArea 3 2 4 [2]].

(** A table of three players where player 3 owns nothing any more: area 10
    of player 1 with two dice next to area 20 of player 2 with seven. *)
Definition endgame_board : Board :=
  [mkArea 10 1 2 [20]; mkArea 20 2 7 [10]].

(** Player 1 with a reserve: its border area 10 (three dice) faces the
    one-die area 30 of player 2 and has area 20 of player 1 (four dice)
    behind it. *)
Definition reserve_board : Board :=
  [mkArea 10 1 3 [20; 30]; mkArea 20 1 4 [10]; mkArea 30 2 1 [10]].

(** The two candidates of player 1 on [reserve_board], each with the
    heuristics its exploration hands back. *)
Definition reserve_board_results : list (Turn * gmap Z Z) :=
  [(10, 30, BATTLE_COMMAND, <[1 := 112]> ∅); (20, 10, TRANSFER_COMMAND, <[1 := 118]> ∅)].

(** The size of a region-group and the sum of a list of integers, for the
    closed form of the heuristic. *)
Definition region_size (region : list Z) : Z := Z.of_nat (length region).

Definition sum_list_Z (l : list Z) : Z := fold_right Z.add 0 l.

(** The run of the candidate loop of [__max_n]: every candidate is
    simulated on a copy of [board] and searched further, the rotation
    deque passing from one call to the next; [results] pairs each
    candidate with the heuristics its search returned. *)
Inductive explored (search : Board -> list Z -> outcome SearchResult) (board : Board)
  : list Turn -> list Z -> list (Turn * gmap Z Z) -> list Z -> Prop :=
  | explored_nil (players_names : list Z) :
      explored search board [] players_names [] players_names
  | explored_cons (source target command_type : Z) (rest : list Turn) (players_names : list Z)
      (board_copy : Board) (ignored_turn : option Turn) (players_new_heuristics : gmap Z Z)
      (players_names1 : list Z) (results : list (Turn * gmap Z Z)) (players_names2 : list Z) :
      simulate_command board source target command_type = Ret board_copy ->
      search board_copy players_names = Ret (ignored_turn, players_new_heuristics, players_names1) ->
      explored search board rest players_names1 results players_names2 ->
      explored search board ((source, target, command_type) :: rest) players_names
        ((source, target, command_type, players_new_heuristics) :: results) players_names2.

(** The outcome of the comparisons over a run of the loop. *)
Definition selected (player_name : Z) (results : list (Turn * gmap Z Z)) (best : gmap Z Z * Turn)
  : gmap Z Z * Turn :=
  fold_left (fun best r => absorb player_name best (fst r) (snd r)) results best.

(** The components of a ranked candidate. *)
Definition entry_source (e : ScoredTurn) : Z := fst (fst (fst e)).
Definition entry_target (e : ScoredTurn) : Z := snd (fst (fst e)).
Definition entry_kind (e : ScoredTurn) : Z := snd (fst e).

(** A call that returns satisfies [R]; it may raise; it does not run out
    of fuel. *)
Definition good {A : Type} (R : A -> Prop) (m : outcome A) : Prop :=
  match m with
  | Ret a => R a
  | Raise _ => True
  | OutOfFuel => False
  end.

(** A generation step hands the board back unchanged and only appends
    candidates, each satisfying [Q]. *)
Definition appends (Q : ScoredTurn -> Prop) (st st' : GenState) : Prop :=
  gen_board st' = gen_board st
  /\ exists extra, gen_turns st' = gen_turns st ++ extra /\ Forall Q extra.

(** The inner areas a transfer chain has not visited yet: the measure
    that bounds the recursion of [__request_transfer_from_area]. *)
Definition remaining_inner (inner_area_names ignored_areas : list Z) : nat :=
  length (List.filter (fun x => negb (mem x ignored_areas)) inner_area_names).

(** A candidate appended by a transfer chain towards [target]. *)
Definition chain_entry (inner_area_names : list Z) (target : Z) (e : ScoredTurn) : Prop :=
  entry_kind e = TRANSFER_COMMAND
  /\ In (entry_source e) inner_area_names
  /\ (entry_target e = target \/ In (entry_target e) inner_area_names).

(** A generation step appends candidates that satisfy [P] as a list. *)
Definition appends_list (P : list ScoredTurn -> Prop) (st st' : GenState) : Prop :=
  exists extra, gen_turns st' = gen_turns st ++ extra /\ P extra.

(** The list [inner_area_names] that [__get_possible_turns] builds for a
    player (lines 140-148): the areas of the player that are neither at
    the border nor next to a border area. *)
Definition inner_area_names_of (board : Board) (player_name : Z) : list Z :=
  let border_area_names := map get_name (get_player_border board player_name) in
  let border_neighbor_area_names :=
    map get_name
      (List.filter
         (fun area => negb (mem (get_name area) border_area_names)
                      && existsb (fun neighbor_name => mem neighbor_name border_area_names)
                           (get_adjacent_areas_names area))
         (get_player_areas board player_name)) in
  map get_name
    (List.filter
       (fun area => negb (mem (get_name area) border_area_names)
                    && negb (mem (get_name area) border_neighbor_area_names))
       (get_player_areas board player_name)).

(** The candidate's target is not an inner area. *)
Definition outside_inner (inner_area_names : list Z) (e : ScoredTurn) : bool :=
  negb (mem (entry_target e) inner_area_names).

(** The entries of the returned list that the enumeration cannot repeat:
    the attacks, and the transfers whose target is not an inner area. *)
Definition attack_or_outside_inner (inner_area_names : list Z) (t : Turn) : bool :=
  (snd t =? BATTLE_COMMAND) || negb (mem (snd (fst t)) inner_area_names).

(** The entries appended while the areas [names] are still to be
    processed: those whose target is not an inner area are pairwise
    distinct and aim at one of [names]. *)
Definition distinct_outside_inner (inner_area_names names : list Z) (extra : list ScoredTurn) : Prop :=
  List.NoDup (map fst (List.filter (outside_inner inner_area_names) extra))
  /\ Forall (fun e => outside_inner inner_area_names e = true -> In (entry_target e) names) extra.

(** What one area adds to the candidates: the entries whose target is not
    an inner area all aim at [area_name], from pairwise distinct sources
    among [names]. *)
Definition distinct_sources_into (inner_area_names : list Z) (area_name : Z) (names : list Z)
    (extra : list ScoredTurn) : Prop :=
  Forall (fun e => outside_inner inner_area_names e = true ->
                   entry_target e = area_name /\ In (entry_source e) names) extra
  /\ List.NoDup (map entry_source (List.filter (outside_inner inner_area_names) extra)).

(** Every adjacency list of the board names each neighbour once. *)
Definition adjacency_wf (board : Board) : Prop :=
  forall a, In a board -> List.NoDup (get_adjacent_areas_names a).

(** A transfer candidate whose source is one of [names]. *)
Definition transfer_entry (names : list Z) (e : ScoredTurn) : Prop :=
  entry_kind e = TRANSFER_COMMAND /\ In (entry_source e) names.

(** The amount a transfer can move without taking the target above the
    cap. *)
Definition movable_amount (source_dice target_dice : Z) : Z :=
  Z.min source_dice (MAX_DICE - target_dice).

(** Every area of the board holds between one and [MAX_DICE] dice. *)
Definition dice_in_range (board : Board) : Prop :=
  Forall (fun a => 1 <= get_dice a <= MAX_DICE) board.

(** Every name in an adjacency list is the name of an area of the board. *)
Definition adjacency_closed (board : Board) : Prop :=
  forall a n, In a board -> In n (get_adjacent_areas_names a) -> is_Some (find_area board n).

(** A call that returns satisfies [R]; nothing is said of the other
    outcomes. *)
Definition on_return {A : Type} (R : A -> Prop) (m : outcome A) : Prop :=
  match m with
  | Ret a => R a
  | _ => True
  end.

(** A call returns, with a result that satisfies [R]. *)
Definition returns {A : Type} (R : A -> Prop) (m : outcome A) : Prop :=
  match m with
  | Ret a => R a
  | _ => False
  end.

(** What the generator has checked of a transfer candidate before it
    appends it, on the board [board] and with the name lists
    [player_area_names] and [border_area_names] of the requesting player. *)
Definition transfer_ok (board : Board) (player_area_names border_area_names : list Z) (e : ScoredTurn) : Prop :=
  entry_kind e = TRANSFER_COMMAND
  /\ In (entry_source e) player_area_names
  /\ ~ In (entry_source e) border_area_names
  /\ In (entry_target e) player_area_names
  /\ (exists a, In a board /\ get_name a = entry_target e
                /\ In (entry_source e) (get_adjacent_areas_names a))
  /\ 1 < dice_of board (entry_source e)
  /\ dice_of board (entry_target e) < MAX_DICE
  /\ PrimFloat.ltb TRANSFER_PROBABILITY_THRESHOLD (score e) = true.

(** * Properties *)

(** ** The result monad *)

Lemma bind_Ret {A B : Type} (m : outcome A) (k : A -> outcome B) (b : B) :
  m ≫= k = Ret b -> exists a, m = Ret a /\ k a = Ret b.
Proof. destruct m as [a| |]; simpl; intros H; try discriminate. exists a. split; [reflexivity|exact H]. Qed.

Lemma ret_bind {A B : Type} (a : A) (k : A -> outcome B) : Ret a ≫= k = k a.
Proof. reflexivity. Qed.

Lemma mem_In (x : Z) (l : list Z) : mem x l = true <-> In x l.
Proof.
  unfold mem. rewrite existsb_exists. split.
  - intros [y [Hy Heq]]. apply Z.eqb_eq in Heq. subst. exact Hy.
  - intros H. exists x. split; [exact H | apply Z.eqb_refl].
Qed.

(** ** Lookups and in-place updates *)

Lemma find_area_name (board : Board) (idx : Z) (a : Area) :
  find_area board idx = Some a -> get_name a = idx /\ In a board.
Proof.
  unfold find_area. intros H. apply find_some in H. destruct H as [Hin Heq].
  apply Z.eqb_eq in Heq. split; assumption.
Qed.

Lemma find_area_update_same (idx : Z) (f : Area -> Area) (board : Board) (a : Area) :
  (forall x, get_name (f x) = get_name x) ->
  find_area board idx = Some a ->
  find_area (update_area idx f board) idx = Some (f a).
Proof.
  intros Hf. unfold find_area. induction board as [|x rest IH]; simpl; [discriminate|].
  destruct (get_name x =? idx) eqn:E; simpl.
  - intros [= <-]. rewrite Hf, E. reflexivity.
  - rewrite E. exact IH.
Qed.

Lemma find_area_update_other (idx idx' : Z) (f : Area -> Area) (board : Board) :
  (forall x, get_name (f x) = get_name x) ->
  idx <> idx' ->
  find_area (update_area idx f board) idx' = find_area board idx'.
Proof.
  intros Hf Hne. unfold find_area. induction board as [|x rest IH]; simpl; [reflexivity|].
  destruct (get_name x =? idx) eqn:E; simpl.
  - rewrite Hf. apply Z.eqb_eq in E.
    destruct (get_name x =? idx') eqn:E'; [apply Z.eqb_eq in E'; congruence | reflexivity].
  - destruct (get_name x =? idx'); [reflexivity | exact IH].
Qed.

Lemma dice_of_set_dice_same (board : Board) (idx d : Z) (a : Area) :
  find_area board idx = Some a -> dice_of (set_dice idx d board) idx = d.
Proof.
  intros H. unfold dice_of, set_dice.
  rewrite (find_area_update_same idx _ board a); [reflexivity | reflexivity | exact H].
Qed.

Lemma dice_of_set_dice_other (board : Board) (idx idx' d : Z) :
  idx <> idx' -> dice_of (set_dice idx d board) idx' = dice_of board idx'.
Proof.
  intros H. unfold dice_of, set_dice. rewrite find_area_update_other; [reflexivity | reflexivity | exact H].
Qed.

Lemma owner_of_set_dice (board : Board) (idx idx' d : Z) :
  owner_of (set_dice idx d board) idx' = owner_of board idx'.
Proof.
  unfold owner_of, set_dice. destruct (Z.eq_dec idx idx') as [<-|Hne].
  - destruct (find_area board idx) as [a|] eqn:E.
    + rewrite (find_area_update_same idx _ board a); [reflexivity | reflexivity | exact E].
    + assert (H : update_area idx (fun a => mkArea (get_name a) (get_owner_name a) d (get_adjacent_areas_names a)) board = board).
      { revert E. unfold find_area. induction board as [|x rest IH]; simpl; [reflexivity|].
        destruct (get_name x =? idx); [discriminate|]. intros E. rewrite (IH E). reflexivity. }
      rewrite H, E. reflexivity.
  - rewrite find_area_update_other; [reflexivity | reflexivity | exact Hne].
Qed.

Lemma find_area_set_dice_is_Some (board : Board) (idx idx' d : Z) :
  is_Some (find_area (set_dice idx d board) idx') <-> is_Some (find_area board idx').
Proof.
  pose proof (owner_of_set_dice board idx idx' d) as H. unfold owner_of in H.
  destruct (find_area (set_dice idx d board) idx'), (find_area board idx'); simpl in H;
    try discriminate; split; intros [? ?]; try discriminate; eauto.
Qed.

Lemma dice_of_set_owner (board : Board) (idx idx' o : Z) :
  dice_of (set_owner idx o board) idx' = dice_of board idx'.
Proof.
  unfold dice_of, set_owner. destruct (Z.eq_dec idx idx') as [<-|Hne].
  - destruct (find_area board idx) as [a|] eqn:E.
    + rewrite (find_area_update_same idx _ board a); [reflexivity | reflexivity | exact E].
    + assert (H : update_area idx (fun a => mkArea (get_name a) o (get_dice a) (get_adjacent_areas_names a)) board = board).
      { revert E. unfold find_area. induction board as [|x rest IH]; simpl; [reflexivity|].
        destruct (get_name x =? idx); [discriminate|]. intros E. rewrite (IH E). reflexivity. }
      rewrite H, E. reflexivity.
  - rewrite find_area_update_other; [reflexivity | reflexivity | exact Hne].
Qed.

Lemma owner_of_set_owner_same (board : Board) (idx o : Z) (a : Area) :
  find_area board idx = Some a -> owner_of (set_owner idx o board) idx = Some o.
Proof.
  intros H. unfold owner_of, set_owner.
  rewrite (find_area_update_same idx _ board a); [reflexivity | reflexivity | exact H].
Qed.

Lemma owner_of_set_owner_other (board : Board) (idx idx' o : Z) :
  idx <> idx' -> owner_of (set_owner idx o board) idx' = owner_of board idx'.
Proof.
  intros H. unfold owner_of, set_owner. rewrite find_area_update_other; [reflexivity | reflexivity | exact H].
Qed.

Lemma find_area_dice_of (board : Board) (idx : Z) (a : Area) :
  find_area board idx = Some a -> dice_of board idx = get_dice a.
Proof. intros H. unfold dice_of. rewrite H. reflexivity. Qed.

Lemma find_area_set_dice_Some (board : Board) (idx idx' d : Z) (a : Area) :
  find_area board idx' = Some a -> exists a', find_area (set_dice idx d board) idx' = Some a'.
Proof.
  intros H. apply (proj2 (find_area_set_dice_is_Some board idx idx' d)). exists a. exact H.
Qed.

(** ** Simulation *)

(** What a simulated attack between two distinct areas leaves behind: the
    dice are as the game has them, the owner written into the target is the
    NAME of the source area. *)
Lemma simulate_attack_post (board : Board) (source target : Z) (s t : Area) :
  source <> target ->
  find_area board source = Some s ->
  find_area board target = Some t ->
  exists board',
    simulate_command board source target BATTLE_COMMAND = Ret board'
    /\ owner_of board' target = Some source
    /\ owner_of board' source = Some (get_owner_name s)
    /\ dice_of board' target = get_dice s - 1
    /\ dice_of board' source = 1.
Proof.
  intros Hne Hs Ht. unfold simulate_command, get_area. rewrite Hs, Ht. simpl.
  eexists. split; [reflexivity|].
  destruct (find_area_set_dice_Some board target source (dice_of board source - 1) s Hs) as [s1 Hs1].
  destruct (find_area_set_dice_Some board target target (dice_of board source - 1) t Ht) as [t1 Ht1].
  destruct (find_area_set_dice_Some _ source target 1 t1 Ht1) as [t2 Ht2].
  repeat split.
  - apply (owner_of_set_owner_same _ _ _ t2 Ht2).
  - rewrite owner_of_set_owner_other by congruence. rewrite !owner_of_set_dice.
    unfold owner_of. rewrite Hs. reflexivity.
  - rewrite dice_of_set_owner. rewrite dice_of_set_dice_other by congruence.
    rewrite (dice_of_set_dice_same _ _ _ t Ht). rewrite (find_area_dice_of _ _ _ Hs). reflexivity.
  - rewrite dice_of_set_owner. apply (dice_of_set_dice_same _ _ _ s1 Hs1).
Qed.

(** A command that is not an attack leaves every owner as it was. *)
Lemma simulate_command_keeps_owners (board board' : Board) (source target command_type idx : Z) :
  command_type <> BATTLE_COMMAND ->
  simulate_command board source target command_type = Ret board' ->
  owner_of board' idx = owner_of board idx.
Proof.
  intros Hk. unfold simulate_command, get_area.
  destruct (find_area board source); simpl; [|discriminate].
  destruct (find_area board target); simpl; [|discriminate].
  destruct (command_type =? BATTLE_COMMAND) eqn:E; [apply Z.eqb_eq in E; contradiction|].
  destruct (command_type =? TRANSFER_COMMAND); intros [= <-]; [|reflexivity].
  rewrite !owner_of_set_dice. reflexivity.
Qed.

(** C1 (the code at the failing input): on [duel_board] the simulated
    attack of area 10 (player 1, four dice) on area 20 returns a board where
    area 20 holds three dice and area 10 one die, as the claim says, but
    where the owner of area 20 is 10, the name of the source area, and not
    player 1, the owner of the source area. *)
Theorem simulate_attack_owner_is_source_name :
  exists board',
    simulate_command duel_board 10 20 BATTLE_COMMAND = Ret board'
    /\ owner_of duel_board 10 = Some 1
    /\ owner_of board' 10 = Some 1
    /\ owner_of board' 20 = Some 10
    /\ dice_of board' 20 = dice_of duel_board 10 - 1
    /\ dice_of board' 10 = 1.
Proof.
  destruct (simulate_attack_post duel_board 10 20 (mkArea 10 1 4 [20]) (mkArea 20 2 2 [10]))
    as [board' [Hrun [Ht [Hs [Hd1 Hd2]]]]]; [lia | reflexivity | reflexivity |].
  exists board'. repeat split; assumption.
Qed.

(** The attack simulated above is the candidate that the generator ranks
    first for player 1 on [duel_board]. *)
Example duel_board_candidate :
  get_possible_turns dice_attack_oracle dice_hold_oracle example_ai 1 duel_board
  = Ret ([(10, 20, BATTLE_COMMAND)], duel_board).
Proof. vm_compute. reflexivity. Qed.

(** C3 (as stated, refuted): moving the three dice of area 10 onto the two
    dice of area 20 gives the target five dice and leaves the source one die,
    so the gain (3) plus the loss (2) is 5, not the movable amount 3. *)
Lemma transfer_conservation_counterexample :
  exists board',
    simulate_command transfer_board 10 20 TRANSFER_COMMAND = Ret board'
    /\ (dice_of board' 20 - dice_of transfer_board 20) + (dice_of transfer_board 10 - dice_of board' 10)
        <> movable_amount (dice_of transfer_board 10) (dice_of transfer_board 20).
Proof. eexists. split; [reflexivity|]. vm_compute. discriminate. Qed.

(** C3 (amended): after a simulated transfer between two distinct areas of
    the board the target holds [min (target + source) 8] dice, at most 8, and
    the source [max (source - moved) 1], at least 1, where [moved], the
    target's gain, is the amount movable without exceeding 8; the source
    loses [min moved (source - 1)] dice, one less than the target gains when
    everything is moved. *)
Theorem simulate_transfer_post (board : Board) (source target : Z) (s t : Area) :
  source <> target ->
  find_area board source = Some s ->
  find_area board target = Some t ->
  exists board',
    simulate_command board source target TRANSFER_COMMAND = Ret board'
    /\ dice_of board' target = Z.min (get_dice t + get_dice s) MAX_DICE
    /\ dice_of board' source = Z.max (get_dice s - (dice_of board' target - get_dice t)) 1
    /\ 1 <= dice_of board' source
    /\ dice_of board' target <= MAX_DICE
    /\ dice_of board' target - get_dice t = movable_amount (get_dice s) (get_dice t)
    /\ get_dice s - dice_of board' source = Z.min (movable_amount (get_dice s) (get_dice t)) (get_dice s - 1).
Proof.
  intros Hne Hs Ht. unfold simulate_command, get_area. rewrite Hs, Ht. simpl.
  eexists. split; [reflexivity|].
  rewrite (find_area_dice_of _ _ _ Hs), (find_area_dice_of _ _ _ Ht).
  destruct (find_area_set_dice_Some board target source (Z.min (get_dice t + get_dice s) MAX_DICE) s Hs) as [s1 Hs1].
  rewrite (dice_of_set_dice_same _ _ _ t Ht).
  rewrite (dice_of_set_dice_other board target source) by congruence.
  rewrite (find_area_dice_of _ _ _ Hs).
  rewrite (dice_of_set_dice_other _ source target) by congruence.
  rewrite (dice_of_set_dice_same _ _ _ t Ht).
  rewrite (dice_of_set_dice_same _ _ _ s1 Hs1).
  unfold movable_amount, MAX_DICE. repeat split; lia.
Qed.

Lemma simulate_transfer_post_witness :
  exists board',
    simulate_command transfer_board 10 20 TRANSFER_COMMAND = Ret board'
    /\ dice_of board' 20 = Z.min (2 + 3) MAX_DICE
    /\ dice_of board' 10 = Z.max (3 - (dice_of board' 20 - 2)) 1
    /\ 1 <= dice_of board' 10
    /\ dice_of board' 20 <= MAX_DICE
    /\ dice_of board' 20 - 2 = movable_amount 3 2
    /\ 3 - dice_of board' 10 = Z.min (movable_amount 3 2) (3 - 1).
Proof.
  apply (simulate_transfer_post transfer_board 10 20 (mkArea 10 1 3 [20]) (mkArea 20 1 2 [10]));
    [lia | reflexivity | reflexivity].
Defined.

(** ** Command translation *)

(** C6: an attack always becomes a battle command; a transfer becomes a
    transfer command exactly when the transfers made this turn are below
    the cap and otherwise the end of the turn, in particular when the count
    equals the cap; no other input yields a transfer command. *)
Theorem perform_command_translation (self : AI) (source target command_type nb_transfers_this_turn : Z) :
  perform_command self source target BATTLE_COMMAND nb_transfers_this_turn = BattleCommand source target
  /\ (perform_command self source target TRANSFER_COMMAND nb_transfers_this_turn = TransferCommand source target
      <-> nb_transfers_this_turn < self_max_transfers self)
  /\ (~ nb_transfers_this_turn < self_max_transfers self ->
      perform_command self source target TRANSFER_COMMAND nb_transfers_this_turn = EndTurnCommand)
  /\ perform_command self source target TRANSFER_COMMAND (self_max_transfers self) = EndTurnCommand
  /\ (perform_command self source target command_type nb_transfers_this_turn = TransferCommand source target
      -> command_type = TRANSFER_COMMAND /\ nb_transfers_this_turn < self_max_transfers self).
Proof.
  unfold perform_command. simpl. repeat split.
  - destruct (nb_transfers_this_turn <? self_max_transfers self) eqn:E; [lia | discriminate].
  - intros H. apply Z.ltb_lt in H. rewrite H. reflexivity.
  - intros H. destruct (nb_transfers_this_turn <? self_max_transfers self) eqn:E; [lia | reflexivity].
  - rewrite Z.ltb_irrefl. reflexivity.
  - destruct (command_type =? BATTLE_COMMAND); [discriminate|].
    destruct (command_type =? TRANSFER_COMMAND) eqn:E; [apply Z.eqb_eq in E; exact E | discriminate].
  - destruct (command_type =? BATTLE_COMMAND); [discriminate|].
    destruct (command_type =? TRANSFER_COMMAND); [|discriminate].
    destruct (nb_transfers_this_turn <? self_max_transfers self) eqn:E; [lia | discriminate].
Qed.

(** ** Heuristic evaluation *)

Lemma fold_left_max_spec (rest : list Z) (x : Z) :
  In (fold_left Z.max rest x) (x :: rest)
  /\ forall y, In y (x :: rest) -> y <= fold_left Z.max rest x.
Proof.
  revert x. induction rest as [|z rest IH]; intros x; simpl.
  - split; [left; reflexivity | intros y [<-|[]]; lia].
  - destruct (IH (Z.max x z)) as [Hin Hub]. split.
    + destruct Hin as [Heq|Hin]; [|right; right; exact Hin].
      rewrite <- Heq. destruct (Z.max_spec x z) as [[_ ->]|[_ ->]]; [right; left|left]; reflexivity.
    + intros y [<-|[<-|Hy]].
      * specialize (Hub (Z.max x z) (or_introl eq_refl)). lia.
      * specialize (Hub (Z.max x z) (or_introl eq_refl)). lia.
      * apply Hub. right. exact Hy.
Qed.

Lemma py_max_spec (l : list Z) :
  l <> [] -> exists m, py_max l = Ret m /\ In m l /\ forall y, In y l -> y <= m.
Proof.
  destruct l as [|x rest]; [congruence|]. intros _. simpl.
  exists (fold_left Z.max rest x). split; [reflexivity|]. apply fold_left_max_spec.
Qed.

Lemma region_fold_spec (regions : list (list Z)) (value : Z) (sizes : list Z) :
  fold_left
    (fun '(value, sizes) region =>
       let region_size := Z.of_nat (length region) in
       (value + REGION_HEURISTIC_WEIGHT * region_size, sizes ++ [region_size]))
    regions (value, sizes)
  = (value + sum_list_Z (map (fun region => REGION_HEURISTIC_WEIGHT * region_size region) regions),
     sizes ++ map region_size regions).
Proof.
  revert value sizes. induction regions as [|r rest IH]; intros value sizes; simpl.
  - rewrite Z.add_0_r, app_nil_r. reflexivity.
  - rewrite IH. unfold region_size. f_equal; [simpl; lia|]. rewrite <- app_assoc. reflexivity.
Qed.

Lemma player_heuristic_spec (board : Board) (player : Z) :
  get_players_regions board player <> [] ->
  exists largest,
    In largest (map region_size (get_players_regions board player))
    /\ (forall region, In region (get_players_regions board player) -> region_size region <= largest)
    /\ player_heuristic board player
       = Ret (get_player_dice board player
              + sum_list_Z (map (fun region => REGION_HEURISTIC_WEIGHT * region_size region)
                              (get_players_regions board player))
              + LARGEST_REGION_HEURISTIC_WEIGHT * largest).
Proof.
  intros Hne. unfold player_heuristic. rewrite region_fold_spec. simpl.
  destruct (py_max_spec (map region_size (get_players_regions board player))) as [m [Hm [Hin Hub]]].
  { destruct (get_players_regions board player); [congruence | discriminate]. }
  exists m. split; [exact Hin|]. split.
  - intros region Hr. apply Hub. apply in_map. exact Hr.
  - rewrite Hm. reflexivity.
Qed.

Lemma player_heuristic_no_region (board : Board) (player : Z) :
  get_players_regions board player = [] -> player_heuristic board player = Raise ValueError.
Proof. intros H. unfold player_heuristic. rewrite H. reflexivity. Qed.

Lemma players_heuristics_loop_spec (players : list Z) (board : Board) (acc : gmap Z Z) :
  (forall p, In p players -> get_players_regions board p <> []) ->
  exists h,
    players_heuristics_loop players board acc = Ret h
    /\ (forall p, In p players -> exists v, h !! p = Some v /\ player_heuristic board p = Ret v)
    /\ (forall p, ~ In p players -> h !! p = acc !! p).
Proof.
  revert acc. induction players as [|q rest IH]; intros acc Hreg; simpl.
  - exists acc. split; [reflexivity|]. split; [intros p []|reflexivity].
  - destruct (player_heuristic_spec board q) as [largest [_ [_ Hq]]]; [apply Hreg; left; reflexivity|].
    rewrite Hq. simpl.
    destruct (IH (<[q := get_player_dice board q
                         + sum_list_Z (map (fun region => REGION_HEURISTIC_WEIGHT * region_size region)
                                         (get_players_regions board q))
                         + LARGEST_REGION_HEURISTIC_WEIGHT * largest]> acc))
      as [h [Hrun [Hin Hout]]]; [intros p Hp; apply Hreg; right; exact Hp|].
    exists h. split; [exact Hrun|]. split.
    + intros p [<-|Hp]; [|apply Hin; exact Hp].
      destruct (in_dec Z.eq_dec q rest) as [Hq'|Hq']; [apply Hin; exact Hq'|].
      eexists. split; [rewrite (Hout q Hq'); apply lookup_insert_eq | exact Hq].
    + intros p Hp. rewrite Hout by tauto. apply lookup_insert_ne. intros ->. apply Hp. left. reflexivity.
Qed.

Lemma players_heuristics_loop_regions (players : list Z) (board : Board) (acc h : gmap Z Z) :
  players_heuristics_loop players board acc = Ret h ->
  forall p, In p players -> get_players_regions board p <> [].
Proof.
  revert acc. induction players as [|q rest IH]; intros acc Hrun p Hp; simpl in *; [destruct Hp|].
  apply bind_Ret in Hrun. destruct Hrun as [v [Hq Hrun]].
  destruct Hp as [<-|Hp]; [|apply (IH _ Hrun p Hp)].
  intros Hnone. rewrite (player_heuristic_no_region board q Hnone) in Hq. discriminate.
Qed.

(** C7: for every board and every evaluated player, whenever the
    evaluator returns, the player's value is the player's dice, plus
    [REGION_HEURISTIC_WEIGHT] times the size of each of the player's
    regions, plus [LARGEST_REGION_HEURISTIC_WEIGHT] times the size of the
    player's largest region; and it does return when every evaluated player
    owns a region. *)
Theorem get_players_heuristics_value (players : list Z) (board : Board) (player : Z) :
  In player players ->
  ((forall p, In p players -> get_players_regions board p <> []) ->
   exists h, get_players_heuristics players board = Ret h)
  /\ forall h,
       get_players_heuristics players board = Ret h ->
       exists largest,
         In largest (map region_size (get_players_regions board player))
         /\ (forall region, In region (get_players_regions board player) -> region_size region <= largest)
         /\ h !! player
            = Some (get_player_dice board player
                    + sum_list_Z (map (fun region => REGION_HEURISTIC_WEIGHT * region_size region)
                                    (get_players_regions board player))
                    + LARGEST_REGION_HEURISTIC_WEIGHT * largest).
Proof.
  intros Hin. unfold get_players_heuristics. split.
  - intros Hreg. destruct (players_heuristics_loop_spec players board ∅ Hreg) as [h [Hrun _]].
    exists h. exact Hrun.
  - intros h Hret. pose proof (players_heuristics_loop_regions players board ∅ h Hret) as Hreg.
    destruct (players_heuristics_loop_spec players board ∅ Hreg) as [h' [Hrun [Hval _]]].
    rewrite Hret in Hrun. injection Hrun as <-.
    destruct (player_heuristic_spec board player (Hreg player Hin)) as [largest [Hl [Hub Hp]]].
    exists largest. split; [exact Hl|]. split; [exact Hub|].
    destruct (Hval player Hin) as [v [Hv Heq]].
    rewrite Hp in Heq. injection Heq as <-. exact Hv.
Qed.

Lemma get_players_heuristics_value_witness :
  ((forall p, In p [1; 2] -> get_players_regions line_board p <> []) ->
   exists h, get_players_heuristics [1; 2] line_board = Ret h)
  /\ forall h,
       get_players_heuristics [1; 2] line_board = Ret h ->
       exists largest,
         In largest (map region_size (get_players_regions line_board 1))
         /\ (forall region, In region (get_players_regions line_board 1) -> region_size region <= largest)
         /\ h !! 1
            = Some (get_player_dice line_board 1
                    + sum_list_Z (map (fun region => REGION_HEURISTIC_WEIGHT * region_size region)
                                    (get_players_regions line_board 1))
                    + LARGEST_REGION_HEURISTIC_WEIGHT * largest).
Proof.
  apply (get_players_heuristics_value [1; 2] line_board 1). left. reflexivity.
Defined.

Example heuristics_on_line_board :
  get_players_heuristics [1; 2] line_board = Ret (<[1 := 115]> (<[2 := 59]> ∅)).
Proof. vm_compute. reflexivity. Qed.

(** ** The transfer probe *)

Lemma update_area_restore (board : Board) (idx : Z) (f g : Area -> Area) (a : Area) :
  (forall x, get_name (f x) = get_name x) ->
  find_area board idx = Some a ->
  g (f a) = a ->
  update_area idx g (update_area idx f board) = board.
Proof.
  intros Hf. unfold find_area. induction board as [|x rest IH]; simpl; [discriminate|].
  destruct (get_name x =? idx) eqn:E; simpl.
  - intros [= <-] Hg. rewrite Hf, E, Hg. reflexivity.
  - intros Ha Hg. rewrite E, (IH Ha Hg). reflexivity.
Qed.

Lemma set_dice_restore (board : Board) (idx d : Z) (a : Area) :
  find_area board idx = Some a ->
  set_dice idx (get_dice a) (set_dice idx d board) = board.
Proof.
  intros H. unfold set_dice. apply (update_area_restore board idx _ _ a); [reflexivity | exact H |].
  destruct a; reflexivity.
Qed.

Section TransferProbe.

Variable probability_of_successful_attack : Board -> Z -> Z -> float.
Variable probability_of_holding_area : Board -> Z -> Z -> Z -> float.

Lemma enemy_names_spec (board : Board) (player_name : Z) (names : list Z) :
  (forall n, In n names -> is_Some (find_area board n)) ->
  enemy_names board player_name names = Ret (List.filter (is_enemy_area board player_name) names).
Proof.
  induction names as [|n rest IH]; intros Hall; simpl; [reflexivity|].
  destruct (Hall n (or_introl eq_refl)) as [a Ha].
  unfold get_area, is_enemy_area. rewrite Ha. simpl.
  rewrite IH by (intros m Hm; apply Hall; right; exact Hm). simpl.
  destruct (get_owner_name a =? player_name); reflexivity.
Qed.

Lemma enemy_names_outcome (board : Board) (player_name : Z) (names : list Z) :
  enemy_names board player_name names = Ret (List.filter (is_enemy_area board player_name) names)
  \/ enemy_names board player_name names = Raise KeyError.
Proof.
  induction names as [|n rest IH]; simpl; [left; reflexivity|].
  unfold get_area, is_enemy_area. destruct (find_area board n) as [a|]; simpl; [|right; reflexivity].
  destruct IH as [-> | ->]; simpl; [left|right; reflexivity].
  destruct (get_owner_name a =? player_name); reflexivity.
Qed.

(** Whatever it returns, the probe hands the board back as it got it. *)
Lemma get_transfer_probability_frame (board board' : Board) (source target player_name : Z) (p : float) :
  get_transfer_probability probability_of_successful_attack probability_of_holding_area
    board source target player_name = Ret (p, board') ->
  board' = board.
Proof.
  unfold get_transfer_probability, get_area.
  destruct (find_area board source) as [s|]; simpl; [|discriminate].
  destruct (find_area board target) as [t|] eqn:Ht; simpl; [|discriminate].
  destruct (enemy_names board player_name (get_adjacent_areas_names t)); simpl; try discriminate.
  intros [= _ <-]. apply set_dice_restore. exact Ht.
Qed.

(** The probe never runs out of fuel (it has none) and raises nothing but
    [KeyError]. *)
Lemma get_transfer_probability_outcome (board : Board) (source target player_name : Z) :
  (exists p, get_transfer_probability probability_of_successful_attack probability_of_holding_area
               board source target player_name = Ret (p, board))
  \/ get_transfer_probability probability_of_successful_attack probability_of_holding_area
       board source target player_name = Raise KeyError.
Proof.
  destruct (get_transfer_probability probability_of_successful_attack probability_of_holding_area
              board source target player_name) as [[p b]| |] eqn:E.
  - left. exists p. rewrite (get_transfer_probability_frame _ _ _ _ _ _ E). reflexivity.
  - right. revert E. unfold get_transfer_probability, get_area.
    destruct (find_area board source) as [s|]; simpl; [|congruence].
    destruct (find_area board target) as [t|]; simpl; [|congruence].
    destruct (enemy_names_outcome board player_name (get_adjacent_areas_names t)) as [-> | ->]; simpl; congruence.
  - exfalso. revert E. unfold get_transfer_probability, get_area.
    destruct (find_area board source) as [s|]; simpl; [|congruence].
    destruct (find_area board target) as [t|]; simpl; [|congruence].
    destruct (enemy_names_outcome board player_name (get_adjacent_areas_names t)) as [-> | ->]; simpl; congruence.
Qed.

(** C8: on a board that holds the source, the target and the target's
    neighbours, the probe returns P(holding the target with the merged dice
    count [min (target + source) 8]) times the maximum of 1 and of the
    probabilities of a successful attack from the target, holding the merged
    dice, on each enemy neighbour; and it returns the board it was given,
    the target's dice count restored. *)
Theorem get_transfer_probability_value_and_frame (board : Board) (source target player_name : Z) (s t : Area) :
  find_area board source = Some s ->
  find_area board target = Some t ->
  (forall n, In n (get_adjacent_areas_names t) -> is_Some (find_area board n)) ->
  let final_dice := Z.min (get_dice t + get_dice s) MAX_DICE in
  get_transfer_probability probability_of_successful_attack probability_of_holding_area
    board source target player_name
  = Ret (PrimFloat.mul
           (probability_of_holding_area board target final_dice player_name)
           (fold_left (fun m p => if PrimFloat.ltb m p then p else m)
              (map (probability_of_successful_attack (set_dice target final_dice board) target)
                 (List.filter (is_enemy_area board player_name) (get_adjacent_areas_names t)))
              1%float),
         board).
Proof.
  intros Hs Ht Hadj final_dice. unfold get_transfer_probability, get_area.
  rewrite Hs, Ht. simpl. rewrite (enemy_names_spec _ _ _ Hadj). simpl.
  rewrite (set_dice_restore _ _ _ _ Ht).
  destruct (find_area_name _ _ _ Ht) as [-> _]. reflexivity.
Qed.

End TransferProbe.

Lemma get_transfer_probability_value_and_frame_witness :
  get_transfer_probability dice_attack_oracle dice_hold_oracle line_board 1 2 1
  = Ret (PrimFloat.mul
           (dice_hold_oracle line_board 2 5 1)
           (fold_left (fun m p => if PrimFloat.ltb m p then p else m)
              (map (dice_attack_oracle (set_dice 2 5 line_board) 2)
                 (List.filter (is_enemy_area line_board 1) [1; 3]))
              1%float),
         line_board).
Proof.
  apply (get_transfer_probability_value_and_frame dice_attack_oracle dice_hold_oracle
           line_board 1 2 1 (mkArea 1 1 3 [2]) (mkArea 2 1 2 [1; 3])).
  - reflexivity.
  - reflexivity.
  - intros n [<-|[<-|[]]]; vm_compute; eexists; reflexivity.
Defined.

(** ** Lists *)

Lemma map_flat_map_comm {A B C : Type} (f : B -> C) (g : A -> list B) (l : list A) :
  map f (flat_map g l) = flat_map (fun x => map f (g x)) l.
Proof. induction l as [|x rest IH]; simpl; [reflexivity|]. rewrite map_app, IH. reflexivity. Qed.

Lemma flat_map_nested {A B C : Type} (f : A -> list B) (g : B -> list C) (l : list A) :
  flat_map g (flat_map f l) = flat_map (fun x => flat_map g (f x)) l.
Proof. induction l as [|x rest IH]; simpl; [reflexivity|]. rewrite flat_map_app, IH. reflexivity. Qed.

Lemma NoDup_flat_map_keyed {A B K : Type} (k : A -> K) (key : B -> K) (f : A -> list B) (l : list A) :
  List.NoDup (map k l) ->
  (forall a, In a l -> List.NoDup (f a)) ->
  (forall a b, In a l -> In b (f a) -> key b = k a) ->
  List.NoDup (flat_map f l).
Proof.
  induction l as [|x rest IH]; simpl; intros Hk Hf Hkey; [constructor|].
  apply List.NoDup_cons_iff in Hk. destruct Hk as [Hx Hk].
  apply List.NoDup_app.
  - apply Hf. left. reflexivity.
  - apply IH; [exact Hk | intros a Ha; apply Hf; right; exact Ha |].
    intros a b Ha Hb. apply Hkey; [right; exact Ha | exact Hb].
  - intros b Hb Hb'. apply in_flat_map in Hb'. destruct Hb' as [a [Ha Hba]].
    apply Hx. apply in_map_iff. exists a. split; [|exact Ha].
    rewrite <- (Hkey x b (or_introl eq_refl) Hb). symmetry. apply Hkey; [right; exact Ha | exact Hba].
Qed.

Lemma NoDup_map_filter {A B : Type} (f : A -> B) (p : A -> bool) (l : list A) :
  List.NoDup (map f l) -> List.NoDup (map f (List.filter p l)).
Proof.
  induction l as [|x rest IH]; simpl; intros H; [constructor|].
  apply List.NoDup_cons_iff in H. destruct H as [Hx H].
  destruct (p x); simpl; [|apply IH; exact H].
  apply List.NoDup_cons; [|apply IH; exact H].
  intros Hin. apply Hx. apply in_map_iff in Hin. destruct Hin as [y [Hy Hin]].
  apply in_map_iff. exists y. split; [exact Hy|]. apply filter_In in Hin. apply Hin.
Qed.

Lemma Permutation_filter_bool {A : Type} (p : A -> bool) (l l' : list A) :
  Permutation l l' -> Permutation (List.filter p l) (List.filter p l').
Proof.
  induction 1 as [|x l l' _ IH|x y l|l l' l'' _ IH1 _ IH2]; simpl.
  - constructor.
  - destruct (p x); [apply perm_skip|]; exact IH.
  - destruct (p x), (p y); try reflexivity. apply perm_swap.
  - etransitivity; eassumption.
Qed.

Lemma filter_none {A : Type} (p : A -> bool) (l : list A) :
  (forall x, In x l -> p x = false) -> List.filter p l = [].
Proof.
  induction l as [|x rest IH]; simpl; intros H; [reflexivity|].
  rewrite (H x (or_introl eq_refl)). apply IH. intros y Hy. apply H. right. exact Hy.
Qed.

(** ** Candidate generation: the shape of every step *)

Lemma good_bind {A B : Type} (R : A -> Prop) (R' : B -> Prop) (m : outcome A) (k : A -> outcome B) :
  good R m -> (forall a, R a -> good R' (k a)) -> good R' (m ≫= k).
Proof. destruct m as [a| |]; simpl; intros Hm Hk; [apply Hk; exact Hm | exact I | exact Hm]. Qed.

Lemma good_impl {A : Type} (R R' : A -> Prop) (m : outcome A) :
  good R m -> (forall a, R a -> R' a) -> good R' m.
Proof. destruct m as [a| |]; simpl; intros Hm Hi; [apply Hi; exact Hm | exact I | exact Hm]. Qed.

Lemma good_get_area (board : Board) (idx : Z) :
  good (fun a => find_area board idx = Some a) (get_area board idx).
Proof. unfold get_area. destruct (find_area board idx); simpl; trivial. Qed.

Lemma good_py_max_float (l : list float) : good (fun _ => True) (py_max_float l).
Proof. destruct l; simpl; trivial. Qed.

Lemma appends_refl (Q : ScoredTurn -> Prop) (st : GenState) : appends Q st st.
Proof. split; [reflexivity|]. exists []. rewrite app_nil_r. split; [reflexivity | constructor]. Qed.

Lemma appends_trans (Q : ScoredTurn -> Prop) (st1 st2 st3 : GenState) :
  appends Q st1 st2 -> appends Q st2 st3 -> appends Q st1 st3.
Proof.
  intros [Hb1 [e1 [He1 Hq1]]] [Hb2 [e2 [He2 Hq2]]]. split; [congruence|].
  exists (e1 ++ e2). split; [rewrite He2, He1, app_assoc; reflexivity|].
  apply Forall_app. split; assumption.
Qed.

Lemma appends_weaken (Q Q' : ScoredTurn -> Prop) (st st' : GenState) :
  (forall e, Q e -> Q' e) -> appends Q st st' -> appends Q' st st'.
Proof.
  intros Hi [Hb [e [He Hq]]]. split; [exact Hb|]. exists e. split; [exact He|].
  eapply List.Forall_impl; [exact Hi | exact Hq].
Qed.

Lemma appends_step (Q : ScoredTurn -> Prop) (st : GenState) (count count' : Z) (e : ScoredTurn) (b : bool) :
  Q e ->
  appends Q st
    (if b then mkGen (gen_board st) count (gen_turns st ++ [e])
     else mkGen (gen_board st) count' (gen_turns st)).
Proof.
  intros He. destruct b; (split; [reflexivity|]); simpl.
  - exists [e]. split; [reflexivity|]. constructor; [exact He | constructor].
  - exists []. rewrite app_nil_r. split; [reflexivity | constructor].
Qed.

Lemma filter_length_mono {A : Type} (f g : A -> bool) (l : list A) :
  (forall x, In x l -> f x = true -> g x = true) ->
  (length (List.filter f l) <= length (List.filter g l))%nat.
Proof.
  induction l as [|x rest IH]; intros H; simpl; [lia|].
  assert (IH' := IH (fun y Hy => H y (or_intror Hy))).
  destruct (f x) eqn:E.
  - rewrite (H x (or_introl eq_refl) E). simpl. lia.
  - destruct (g x); simpl; lia.
Qed.

Lemma filter_length_strict {A : Type} (f g : A -> bool) (l : list A) (s : A) :
  (forall x, In x l -> f x = true -> g x = true) ->
  In s l -> f s = false -> g s = true ->
  (length (List.filter f l) < length (List.filter g l))%nat.
Proof.
  induction l as [|x rest IH]; intros H Hin Hf Hg; simpl; [destruct Hin|].
  assert (Hle := filter_length_mono f g rest (fun y Hy => H y (or_intror Hy))).
  destruct Hin as [->|Hin].
  - rewrite Hf, Hg. simpl. lia.
  - assert (IH' := IH (fun y Hy => H y (or_intror Hy)) Hin Hf Hg).
    destruct (f x) eqn:E.
    + rewrite (H x (or_introl eq_refl) E). simpl. lia.
    + destruct (g x); simpl; lia.
Qed.

Lemma mem_false (x : Z) (l : list Z) : mem x l = false <-> ~ In x l.
Proof. rewrite <- mem_In. destruct (mem x l); split; congruence. Qed.

Lemma remaining_inner_mono (inner ig ig' : list Z) :
  incl ig ig' -> (remaining_inner inner ig' <= remaining_inner inner ig)%nat.
Proof.
  intros Hi. unfold remaining_inner. apply filter_length_mono. intros x _ Hx.
  apply negb_true_iff in Hx. apply negb_true_iff. apply mem_false. apply mem_false in Hx.
  intros H. apply Hx. apply Hi. exact H.
Qed.

Lemma remaining_inner_visit (inner ig : list Z) (s : Z) :
  In s inner -> ~ In s ig -> (remaining_inner inner (ig ++ [s]) < remaining_inner inner ig)%nat.
Proof.
  intros Hin Hig. unfold remaining_inner. apply (filter_length_strict _ _ _ s).
  - intros x _ Hx. apply negb_true_iff in Hx. apply negb_true_iff. apply mem_false. apply mem_false in Hx.
    intros H. apply Hx. apply in_or_app. left. exact H.
  - exact Hin.
  - apply negb_false_iff. apply mem_In. apply in_or_app. right. left. reflexivity.
  - apply negb_true_iff. apply mem_false. exact Hig.
Qed.

Section GenerationSteps.

Variable probability_of_successful_attack : Board -> Z -> Z -> float.
Variable probability_of_holding_area : Board -> Z -> Z -> Z -> float.
Variable self : AI.

Lemma good_get_transfer_probability (board : Board) (source target player_name : Z) :
  good (fun r => snd r = board)
    (get_transfer_probability probability_of_successful_attack probability_of_holding_area
       board source target player_name).
Proof.
  destruct (get_transfer_probability_outcome probability_of_successful_attack probability_of_holding_area
              board source target player_name) as [[p ->] | ->]; simpl; trivial.
Qed.

Lemma good_chain_probabilities (board : Board) (source player_name : Z) (border names : list Z) :
  good (fun r => snd r = board)
    (chain_probabilities probability_of_successful_attack probability_of_holding_area
       board source player_name border names).
Proof.
  induction names as [|n rest IH]; simpl; [reflexivity|].
  destruct (mem n border); [|exact IH].
  eapply good_bind; [apply good_get_transfer_probability|].
  intros [p b] Hb. simpl in Hb. subst b.
  eapply good_bind; [exact IH|]. intros [ps b] Hb. simpl in *. exact Hb.
Qed.

Lemma visit_inner_good (request : Z -> list Z -> GenState -> outcome (list Z * GenState))
    (inner : list Z) (Q : ScoredTurn -> Prop) (bound : nat) :
  (forall n ig st, In n inner -> ~ In n ig -> (remaining_inner inner ig <= bound)%nat ->
     good (fun r => incl ig (fst r) /\ appends Q st (snd r)) (request n ig st)) ->
  forall names ig st, (remaining_inner inner ig <= bound)%nat ->
    good (fun r => incl ig (fst r) /\ appends Q st (snd r)) (visit_inner request inner names ig st).
Proof.
  intros Hreq. induction names as [|n rest IH]; intros ig st Hb; simpl.
  - split; [apply incl_refl | apply appends_refl].
  - destruct (negb (mem n ig) && mem n inner) eqn:E; [|apply IH; exact Hb].
    apply andb_true_iff in E. destruct E as [E1 E2].
    apply negb_true_iff, mem_false in E1. apply mem_In in E2.
    eapply good_bind; [apply (Hreq n ig st E2 E1 Hb)|].
    intros [ig1 st1] [Hi1 Ha1]. simpl in *.
    eapply good_impl; [apply IH|].
    + pose proof (remaining_inner_mono inner ig ig1 Hi1). lia.
    + intros [ig2 st2] [Hi2 Ha2]. simpl in *. split.
      * eapply incl_tran; eassumption.
      * eapply appends_trans; eassumption.
Qed.

Lemma request_transfer_good (inner border : list Z) (player_name original_target : Z) (fuel : nat) :
  forall source target ig st,
    In source inner -> ~ In source ig -> (remaining_inner inner ig <= fuel)%nat ->
    good (fun r => incl ig (fst r) /\ appends (chain_entry inner target) st (snd r))
      (request_transfer_from_area probability_of_successful_attack probability_of_holding_area self
         fuel source target original_target inner border player_name ig st).
Proof.
  induction fuel as [|fuel IH]; intros source target ig st Hin Hig Hfuel.
  - pose proof (remaining_inner_visit inner ig source Hin Hig). lia.
  - simpl.
    eapply good_bind; [apply good_get_area|]. intros source_area _.
    eapply good_bind; [apply good_get_area|]. intros _ _.
    eapply good_bind; [apply good_get_area|]. intros original_target_area _.
    eapply good_bind.
    + apply (visit_inner_good _ inner (chain_entry inner source) fuel).
      * intros n ig' st' Hn Hig' Hb. apply IH; assumption.
      * pose proof (remaining_inner_visit inner ig source Hin Hig). lia.
    + intros [ig1 st1] [Hi1 Ha1]. simpl in *.
      eapply good_bind; [apply good_chain_probabilities|].
      intros [ps b] Hb. simpl in Hb. subst b.
      eapply good_bind; [apply good_py_max_float|]. intros p _.
      assert (Ha : appends (chain_entry inner target) st st1).
      { eapply appends_weaken; [|exact Ha1]. intros e [Hk [Hs Ht]].
        split; [exact Hk|]. split; [exact Hs|]. right. destruct Ht as [->|Ht]; assumption. }
      assert (Hincl : incl ig ig1).
      { intros x Hx. apply Hi1. apply in_or_app. left. exact Hx. }
      match goal with
      | |- good _ (if ?c then _ else _) =>
          assert (Hstep := appends_step (chain_entry inner target) st1 (gen_transfer_count st1 + 1)
                             (gen_transfer_count st1) (source, target, TRANSFER_COMMAND, p) c);
          destruct c
      end; simpl; (split; [exact Hincl|]); (eapply appends_trans; [exact Ha|]); apply Hstep;
        (split; [reflexivity|]); (split; [exact Hin | left; reflexivity]).
Qed.

Lemma chain_requests_good (area_name : Z) (inner border : list Z) (player_name : Z) (names : list Z) :
  forall st,
    good (appends (chain_entry inner area_name) st)
      (chain_requests probability_of_successful_attack probability_of_holding_area self
         area_name inner border player_name names st).
Proof.
  induction names as [|n rest IH]; intros st; simpl; [apply appends_refl|].
  destruct (mem n inner) eqn:E; [|apply IH].
  apply mem_In in E.
  eapply good_bind.
  - apply (request_transfer_good inner border player_name area_name (S (length inner)) n area_name [] st E).
    + intros [].
    + unfold remaining_inner. pose proof (List.filter_length_le (fun x => negb (mem x [])) inner). lia.
  - intros [ig st1] [_ Ha1]. simpl in *.
    eapply good_impl; [apply IH|]. intros st2 Ha2. eapply appends_trans; eassumption.
Qed.

Lemma border_transfers_good (area_name : Z) (player_area_names border : list Z) (player_name : Z) (names : list Z) :
  forall st,
    good (appends (fun e => transfer_entry player_area_names e /\ entry_target e = area_name
                            /\ In (entry_source e) names) st)
      (border_transfers probability_of_successful_attack probability_of_holding_area
         area_name player_area_names border player_name names st).
Proof.
  induction names as [|n rest IH]; intros st; simpl; [apply appends_refl|].
  assert (Hrest : forall st', good (appends (fun e => transfer_entry player_area_names e
                                    /\ entry_target e = area_name /\ In (entry_source e) (n :: rest)) st')
                     (border_transfers probability_of_successful_attack probability_of_holding_area
                        area_name player_area_names border player_name rest st')).
  { intros st'. eapply good_impl; [apply IH|]. intros st2. apply appends_weaken.
    intros e [H1 [H2 H3]]. split; [exact H1|]. split; [exact H2 | right; exact H3]. }
  destruct (mem n player_area_names) eqn:E; simpl; [|apply Hrest].
  apply mem_In in E.
  eapply good_bind; [apply good_get_area|]. intros _ _.
  eapply good_bind; [apply good_get_transfer_probability|].
  intros [p b] Hb. simpl in Hb. subst b.
  match goal with
  | |- good _ (border_transfers _ _ _ _ _ _ _ (if ?c then _ else _)) =>
      assert (Hstep := appends_step (fun e => transfer_entry player_area_names e
                                     /\ entry_target e = area_name /\ In (entry_source e) (n :: rest))
                         st (gen_transfer_count st + 1) (gen_transfer_count st)
                         (n, area_name, TRANSFER_COMMAND, p) c)
  end.
  eapply good_impl; [apply Hrest|]. intros st2 Ha2.
  eapply appends_trans; [|exact Ha2]. apply Hstep.
  split; [split; [reflexivity | exact E]|]. split; [reflexivity | left; reflexivity].
Qed.

Lemma transfer_loop_good (player_area_names border border_neighbor inner : list Z) (player_name : Z)
    (areas : list Area) :
  incl inner player_area_names ->
  forall st,
    good (appends (transfer_entry player_area_names) st)
      (transfer_loop probability_of_successful_attack probability_of_holding_area self
         player_area_names border border_neighbor inner player_name areas st).
Proof.
  intros Hincl. induction areas as [|area rest IH]; intros st; simpl; [apply appends_refl|].
  destruct (gen_transfer_count st =? self_max_transfers self); [apply appends_refl|].
  destruct (mem (get_name area) border_neighbor).
  - eapply good_bind; [apply chain_requests_good|]. intros st1 Ha1.
    eapply good_impl; [apply IH|]. intros st2 Ha2. eapply appends_trans; [|exact Ha2].
    eapply appends_weaken; [|exact Ha1]. intros e [Hk [Hs _]]. split; [exact Hk | apply Hincl; exact Hs].
  - destruct (mem (get_name area) border && (dice_of (gen_board st) (get_name area) <? MAX_DICE)); [|apply IH].
    eapply good_bind; [apply border_transfers_good|]. intros st1 Ha1.
    eapply good_impl; [apply IH|]. intros st2 Ha2. eapply appends_trans; [|exact Ha2].
    eapply appends_weaken; [|exact Ha1]. intros e [He _]. exact He.
Qed.

Lemma good_and {A : Type} (R R' : A -> Prop) (m : outcome A) :
  good R m -> good R' m -> good (fun a => R a /\ R' a) m.
Proof. destruct m as [a| |]; simpl; intros H H'; [split; assumption | exact I | exact H]. Qed.

Lemma appends_list_refl (P : list ScoredTurn -> Prop) (st : GenState) : P [] -> appends_list P st st.
Proof. intros H. exists []. rewrite app_nil_r. split; [reflexivity | exact H]. Qed.

Lemma distinct_outside_inner_nil (inner names : list Z) : distinct_outside_inner inner names [].
Proof. split; constructor. Qed.

Lemma distinct_outside_inner_weaken (inner names names' : list Z) (extra : list ScoredTurn) :
  distinct_outside_inner inner names extra ->
  incl names names' ->
  distinct_outside_inner inner names' extra.
Proof.
  intros [Hnd Hin] Hincl. split; [exact Hnd|].
  eapply List.Forall_impl; [|exact Hin]. intros e He Hb. apply Hincl. apply He. exact Hb.
Qed.

Lemma distinct_outside_inner_add (inner names srcs : list Z) (a : Z) (extra1 extra2 : list ScoredTurn) :
  distinct_sources_into inner a srcs extra1 ->
  distinct_outside_inner inner names extra2 ->
  ~ In a names ->
  distinct_outside_inner inner (a :: names) (extra1 ++ extra2).
Proof.
  intros [Ht Hsrc] [Hnd Hin] Ha. rewrite List.Forall_forall in Ht, Hin. split.
  - rewrite List.filter_app, map_app. apply List.NoDup_app.
    + assert (Heq : map entry_source (List.filter (outside_inner inner) extra1)
                    = map (fun t : Z * Z * Z => fst (fst t))
                        (map fst (List.filter (outside_inner inner) extra1)))
        by (rewrite map_map; reflexivity).
      rewrite Heq in Hsrc. apply NoDup_map_inv in Hsrc. exact Hsrc.
    + exact Hnd.
    + intros x H1 H2. apply in_map_iff in H1. destruct H1 as [e1 [<- H1]].
      apply in_map_iff in H2. destruct H2 as [e2 [Heq H2]].
      apply filter_In in H1. destruct H1 as [H1 Hb1]. apply filter_In in H2. destruct H2 as [H2 Hb2].
      apply Ha. destruct (Ht e1 H1 Hb1) as [Ht1 _]. rewrite <- Ht1.
      replace (entry_target e1) with (entry_target e2) by (unfold entry_target; rewrite Heq; reflexivity).
      apply Hin; assumption.
  - apply Forall_app. split; apply List.Forall_forall.
    + intros e He Hb. left. symmetry. apply (Ht e He Hb).
    + intros e He Hb. right. apply Hin; assumption.
Qed.

Lemma distinct_sources_into_all (inner : list Z) (a : Z) (names : list Z) (extra : list ScoredTurn) :
  Forall (fun e => entry_target e = a /\ In (entry_source e) names) extra ->
  List.NoDup (map entry_source extra) ->
  distinct_sources_into inner a names extra.
Proof.
  intros H Hs. split.
  - eapply List.Forall_impl; [|exact H]. intros e He _. exact He.
  - apply NoDup_map_filter. exact Hs.
Qed.

(** One chain request: whatever the recursion below it appends aims at an
    inner area; the request itself appends at most its own transfer, last. *)
Lemma request_transfer_last (inner border : list Z) (player_name original_target : Z) (fuel : nat) :
  forall source target ig st,
    In source inner -> ~ In source ig -> (remaining_inner inner ig <= S fuel)%nat ->
    good (fun r =>
            appends_list
              (fun extra =>
                 exists pre rest,
                   extra = pre ++ rest
                   /\ Forall (fun e => outside_inner inner e = false) pre
                   /\ (rest = [] \/ exists p, rest = [(source, target, TRANSFER_COMMAND, p)]))
              st (snd r))
      (request_transfer_from_area probability_of_successful_attack probability_of_holding_area self
         (S fuel) source target original_target inner border player_name ig st).
Proof.
  intros source target ig st Hin Hig Hfuel. simpl.
  eapply good_bind; [apply good_get_area|]. intros source_area _.
  eapply good_bind; [apply good_get_area|]. intros _ _.
  eapply good_bind; [apply good_get_area|]. intros original_target_area _.
  eapply good_bind.
  - apply (visit_inner_good _ inner (chain_entry inner source) fuel).
    + intros n ig' st' Hn Hig' Hb. apply request_transfer_good; assumption.
    + pose proof (remaining_inner_visit inner ig source Hin Hig). lia.
  - intros [ig1 st1] [_ [_ [pre [Ht1 Hq1]]]]. simpl in *.
    eapply good_bind; [apply good_chain_probabilities|].
    intros [ps b] Hb. simpl in Hb. subst b.
    eapply good_bind; [apply good_py_max_float|]. intros p _.
    assert (Hpre : Forall (fun e => outside_inner inner e = false) pre).
    { eapply List.Forall_impl; [|exact Hq1]. intros e [_ [_ Ht]]. unfold outside_inner.
      apply negb_false_iff, mem_In. destruct Ht as [->|Ht]; assumption. }
    match goal with |- good _ (if ?c then _ else _) => destruct c end; simpl.
    + exists (pre ++ [(source, target, TRANSFER_COMMAND, p)]).
      split; [rewrite Ht1, app_assoc; reflexivity|].
      exists pre, [(source, target, TRANSFER_COMMAND, p)].
      split; [reflexivity|]. split; [exact Hpre|]. right. exists p. reflexivity.
    + exists pre. split; [exact Ht1|]. exists pre, [].
      split; [rewrite app_nil_r; reflexivity|]. split; [exact Hpre | left; reflexivity].
Qed.

(** The chain requests of one area next to the border: the transfers they
    append into that area come from pairwise distinct inner neighbours. *)
Lemma chain_requests_distinct (area_name : Z) (inner border : list Z) (player_name : Z) (names : list Z) :
  List.NoDup names ->
  forall st,
    good (appends_list (distinct_sources_into inner area_name names) st)
      (chain_requests probability_of_successful_attack probability_of_holding_area self
         area_name inner border player_name names st).
Proof.
  induction names as [|n rest IH]; intros Hnd st; simpl.
  - apply appends_list_refl. split; constructor.
  - apply List.NoDup_cons_iff in Hnd. destruct Hnd as [Hn Hnd].
    assert (Hweak : forall extra : list ScoredTurn,
               Forall (fun e => outside_inner inner e = true ->
                                entry_target e = area_name /\ In (entry_source e) rest) extra ->
               Forall (fun e => outside_inner inner e = true ->
                                entry_target e = area_name /\ In (entry_source e) (n :: rest)) extra).
    { intros extra. apply List.Forall_impl. intros e He Hb. destruct (He Hb) as [H1 H2].
      split; [exact H1 | right; exact H2]. }
    destruct (mem n inner) eqn:E.
    + apply mem_In in E. eapply good_bind.
      * apply (request_transfer_last inner border player_name area_name (length inner) n area_name [] st E).
        -- intros [].
        -- unfold remaining_inner. pose proof (List.filter_length_le (fun x => negb (mem x [])) inner). lia.
      * intros [ig st1] [extra1 [Ht1 [pre [own [Hex [Hpre Hown]]]]]]. simpl in *.
        eapply good_impl; [apply (IH Hnd)|]. intros st2 [extra2 [Ht2 [Hq2 Hs2]]].
        exists (extra1 ++ extra2). split; [rewrite Ht2, Ht1, app_assoc; reflexivity|].
        rewrite List.Forall_forall in Hpre. subst extra1. split.
        -- apply Forall_app. split; [apply Forall_app; split|].
           ++ apply List.Forall_forall. intros e He Hb. rewrite (Hpre e He) in Hb. discriminate.
           ++ destruct Hown as [->|[p ->]]; [constructor|].
              constructor; [|constructor]. intros _. split; [reflexivity | left; reflexivity].
           ++ apply Hweak. exact Hq2.
        -- rewrite !List.filter_app, (filter_none _ pre Hpre). simpl. rewrite map_app.
           destruct Hown as [->|[p ->]]; simpl; [exact Hs2|].
           destruct (outside_inner inner (n, area_name, TRANSFER_COMMAND, p)); simpl; [|exact Hs2].
           apply List.NoDup_cons; [|exact Hs2].
           intros Hin. apply Hn. apply in_map_iff in Hin. destruct Hin as [e [Heq He]].
           apply filter_In in He. destruct He as [He Hb].
           rewrite List.Forall_forall in Hq2. destruct (Hq2 e He Hb) as [_ Hsrc].
           change (entry_source e = n) in Heq. rewrite <- Heq. exact Hsrc.
    + eapply good_impl; [apply (IH Hnd)|]. intros st2 [extra [Ht [Hq Hs]]].
      exists extra. split; [exact Ht|]. split; [apply Hweak; exact Hq | exact Hs].
Qed.

Lemma border_transfers_distinct (area_name : Z) (player_area_names border : list Z) (player_name : Z)
    (names : list Z) :
  List.NoDup names ->
  forall st,
    good (appends_list
            (fun extra =>
               Forall (fun e => entry_target e = area_name /\ In (entry_source e) names) extra
               /\ List.NoDup (map entry_source extra)) st)
      (border_transfers probability_of_successful_attack probability_of_holding_area
         area_name player_area_names border player_name names st).
Proof.
  induction names as [|n rest IH]; intros Hnd st; simpl.
  - apply appends_list_refl. split; constructor.
  - apply List.NoDup_cons_iff in Hnd. destruct Hnd as [Hn Hnd].
    assert (Hweak : forall extra : list ScoredTurn,
               Forall (fun e => entry_target e = area_name /\ In (entry_source e) rest) extra ->
               Forall (fun e => entry_target e = area_name /\ In (entry_source e) (n :: rest)) extra).
    { intros extra. apply List.Forall_impl. intros e [H1 H2]. split; [exact H1 | right; exact H2]. }
    destruct (mem n player_area_names); simpl.
    + eapply good_bind; [apply good_get_area|]. intros _ _.
      eapply good_bind; [apply good_get_transfer_probability|].
      intros [p b] Hb. simpl in Hb. subst b.
      match goal with
      | |- good _ (border_transfers _ _ _ _ _ _ _ (if ?c then _ else _)) => destruct c
      end.
      * eapply good_impl; [apply (IH Hnd)|]. intros st2 [extra [Ht [Hq Hs]]]. simpl in Ht.
        exists ((n, area_name, TRANSFER_COMMAND, p) :: extra). split; [|split].
        -- rewrite Ht, <- app_assoc. reflexivity.
        -- constructor; [split; [reflexivity | left; reflexivity] | apply Hweak; exact Hq].
        -- simpl. apply List.NoDup_cons; [|exact Hs].
           intros Hin. apply Hn. apply in_map_iff in Hin. destruct Hin as [e [Heq He]].
           change (entry_source e = n) in Heq. rewrite <- Heq.
           rewrite List.Forall_forall in Hq. apply (Hq e He).
      * eapply good_impl; [apply (IH Hnd)|]. intros st2 [extra [Ht [Hq Hs]]]. simpl in Ht.
        exists extra. split; [exact Ht|]. split; [apply Hweak; exact Hq | exact Hs].
    + eapply good_impl; [apply (IH Hnd)|]. intros st2 [extra [Ht [Hq Hs]]].
      exists extra. split; [exact Ht|]. split; [apply Hweak; exact Hq | exact Hs].
Qed.

Lemma transfer_loop_distinct (player_area_names border border_neighbor inner : list Z) (player_name : Z)
    (areas : list Area) :
  List.NoDup (map get_name areas) ->
  (forall a, In a areas -> List.NoDup (get_adjacent_areas_names a)) ->
  forall st,
    good (appends_list (distinct_outside_inner inner (map get_name areas)) st)
      (transfer_loop probability_of_successful_attack probability_of_holding_area self
         player_area_names border border_neighbor inner player_name areas st).
Proof.
  induction areas as [|area rest IH]; intros Hnd Hadj st; simpl.
  - apply appends_list_refl. apply distinct_outside_inner_nil.
  - apply List.NoDup_cons_iff in Hnd. destruct Hnd as [Harea Hnd].
    assert (IH' := IH Hnd (fun a Ha => Hadj a (or_intror Ha))).
    destruct (gen_transfer_count st =? self_max_transfers self);
      [apply appends_list_refl; apply distinct_outside_inner_nil|].
    destruct (mem (get_name area) border_neighbor).
    + eapply good_bind.
      * apply chain_requests_distinct. apply Hadj. left. reflexivity.
      * intros st1 [extra1 [Ht1 Hd1]].
        eapply good_impl; [apply IH'|]. intros st2 [extra2 [Ht2 Hd2]].
        exists (extra1 ++ extra2). split; [rewrite Ht2, Ht1, app_assoc; reflexivity|].
        eapply distinct_outside_inner_add; [exact Hd1 | exact Hd2 | exact Harea].
    + destruct (mem (get_name area) border && (dice_of (gen_board st) (get_name area) <? MAX_DICE)).
      * eapply good_bind.
        -- apply border_transfers_distinct. apply Hadj. left. reflexivity.
        -- intros st1 [extra1 [Ht1 [Hq1 Hs1]]].
           eapply good_impl; [apply IH'|]. intros st2 [extra2 [Ht2 Hd2]].
           exists (extra1 ++ extra2). split; [rewrite Ht2, Ht1, app_assoc; reflexivity|].
           eapply distinct_outside_inner_add;
             [apply distinct_sources_into_all; [exact Hq1 | exact Hs1] | exact Hd2 | exact Harea].
      * eapply good_impl; [apply IH'|]. intros st2 [extra2 [Ht2 Hd2]].
        exists extra2. split; [exact Ht2|].
        apply (distinct_outside_inner_weaken inner (map get_name rest)); [exact Hd2|].
        intros x Hx. right. exact Hx.
Qed.

Lemma insert_desc_perm (t : ScoredTurn) (l : list ScoredTurn) : Permutation (insert_desc t l) (t :: l).
Proof.
  induction l as [|u rest IH]; simpl; [reflexivity|].
  destruct (PrimFloat.ltb (score t) (score u)); [|reflexivity].
  rewrite IH. apply perm_swap.
Qed.

Lemma sorted_desc_perm (l : list ScoredTurn) : Permutation (sorted_desc l) l.
Proof.
  induction l as [|t rest IH]; simpl; [reflexivity|].
  rewrite insert_desc_perm. apply perm_skip. exact IH.
Qed.

Lemma find_area_wf (board : Board) (a : Area) :
  board_wf board -> In a board -> find_area board (get_name a) = Some a.
Proof.
  unfold board_wf, area_names, find_area. induction board as [|x rest IH]; simpl; intros Hnd Hin; [destruct Hin|].
  apply List.NoDup_cons_iff in Hnd. destruct Hnd as [Hx Hnd].
  destruct Hin as [->|Hin]; [rewrite Z.eqb_refl; reflexivity|].
  destruct (get_name x =? get_name a) eqn:E; [|apply IH; assumption].
  apply Z.eqb_eq in E. exfalso. apply Hx. rewrite E. apply in_map. exact Hin.
Qed.

Lemma get_player_areas_In (board : Board) (player_name : Z) (a : Area) :
  In a (get_player_areas board player_name) <-> In a board /\ get_owner_name a = player_name.
Proof. unfold get_player_areas. rewrite filter_In, Z.eqb_eq. reflexivity. Qed.

Lemma possible_attacks_In (board : Board) (player_name : Z) (source target : Area) :
  In (source, target) (possible_attacks board player_name) ->
  In source (get_player_border board player_name)
  /\ In (get_name target) (get_adjacent_areas_names source)
  /\ find_area board (get_name target) = Some target
  /\ get_owner_name target <> player_name.
Proof.
  unfold possible_attacks. rewrite in_flat_map. intros [area [Harea Hin]].
  apply filter_In in Harea. destruct Harea as [Harea _].
  rewrite in_flat_map in Hin. destruct Hin as [adj [Hadj Hin]].
  destruct (find_area board adj) as [t|] eqn:Ht; [|destruct Hin].
  destruct (get_owner_name t =? player_name) eqn:Ho; [destruct Hin|].
  destruct Hin as [[= <- <-]|[]].
  destruct (find_area_name _ _ _ Ht) as [Hn _]. rewrite Hn.
  repeat split; try assumption. apply Z.eqb_neq. exact Ho.
Qed.

Lemma attack_turn_In (board : Board) (player_name : Z) (thr w : float) (largest : list Z)
    (pair : Area * Area) (e : ScoredTurn) :
  In e (attack_turn probability_of_successful_attack probability_of_holding_area
          board player_name thr w largest pair) ->
  entry_source e = get_name (fst pair) /\ entry_target e = get_name (snd pair)
  /\ entry_kind e = BATTLE_COMMAND.
Proof.
  unfold attack_turn. destruct pair as [source target].
  match goal with |- In _ (if ?c then _ else _) -> _ => destruct c end; [|intros []].
  intros [<-|[]]. repeat split.
Qed.

(** The shape of what [__get_possible_turns] returns: the board it was
    given, and a permutation of the attack candidates followed by transfer
    candidates whose sources are areas of the player. *)
Lemma get_possible_turns_good (player_name : Z) (board : Board) :
  good
    (fun r =>
       snd r = board
       /\ exists largest extras,
            get_largest_region_for_player player_name board = Ret largest
            /\ Forall (transfer_entry (map get_name (get_player_areas board player_name))) extras
            /\ fst r
               = map fst
                   (sorted_desc
                      (flat_map
                         (attack_turn probability_of_successful_attack probability_of_holding_area
                            board player_name (fst (attack_parameters board)) (snd (attack_parameters board))
                            largest)
                         (possible_attacks board player_name)
                       ++ extras)))
    (get_possible_turns probability_of_successful_attack probability_of_holding_area self player_name board).
Proof.
  unfold get_possible_turns. destruct (attack_parameters board) as [thr w]. simpl.
  destruct (get_largest_region_for_player player_name board) as [largest| |] eqn:El; simpl; trivial.
  - eapply good_bind.
    + apply transfer_loop_good. intros x Hx. apply in_map_iff in Hx. destruct Hx as [a [<- Ha]].
      apply filter_In in Ha. apply in_map. apply Ha.
    + intros st [Hb [extras [Ht Hq]]]. simpl in *. split; [exact Hb|].
      exists largest, extras. split; [reflexivity|]. split; [exact Hq|]. rewrite Ht. reflexivity.
  - revert El. unfold get_largest_region_for_player.
    destruct (py_max _) eqn:Em; simpl; try discriminate.
    destruct (map _ _) in Em; discriminate.
Qed.

(** C9: candidate generation does not run out of fuel, and on a board
    whose area names are pairwise distinct every candidate it returns,
    attack or transfer, has a source area owned by the requesting player. *)
Theorem get_possible_turns_sources_owned (player_name : Z) (board : Board) :
  board_wf board ->
  get_possible_turns probability_of_successful_attack probability_of_holding_area self player_name board
    <> OutOfFuel
  /\ forall turns board',
       get_possible_turns probability_of_successful_attack probability_of_holding_area self player_name board
         = Ret (turns, board') ->
       forall source target command_type,
         In (source, target, command_type) turns -> owner_of board source = Some player_name.
Proof.
  intros Hwf. pose proof (get_possible_turns_good player_name board) as Hgood. split.
  - intros E. rewrite E in Hgood. exact Hgood.
  - intros turns board' E source target command_type Hin. rewrite E in Hgood. simpl in Hgood.
    destruct Hgood as [_ [largest [extras [_ [Hq Hturns]]]]]. subst turns.
    apply in_map_iff in Hin. destruct Hin as [e [He Hin]].
    apply (Permutation_in _ (sorted_desc_perm _)) in Hin.
    assert (Hsrc : exists a, In a (get_player_areas board player_name) /\ get_name a = source).
    { apply in_app_or in Hin. destruct Hin as [Hin|Hin].
      - apply in_flat_map in Hin. destruct Hin as [[s t] [Hpair Hin]].
        apply attack_turn_In in Hin. destruct Hin as [Hs _].
        apply possible_attacks_In in Hpair. destruct Hpair as [Hb _].
        unfold get_player_border in Hb. apply filter_In in Hb. destruct Hb as [Hb _].
        exists s. split; [exact Hb|]. unfold entry_source in Hs. rewrite He in Hs. simpl in Hs. congruence.
      - rewrite List.Forall_forall in Hq. destruct (Hq e Hin) as [_ Hs].
        unfold entry_source in Hs. rewrite He in Hs. simpl in Hs.
        apply in_map_iff in Hs. destruct Hs as [a [Hn Ha]]. exists a. split; assumption. }
    destruct Hsrc as [a [Ha <-]]. apply get_player_areas_In in Ha. destruct Ha as [Ha Ho].
    unfold owner_of. rewrite (find_area_wf board a Hwf Ha). simpl. rewrite Ho. reflexivity.
Qed.

Lemma attack_turn_NoDup (board : Board) (player_name : Z) (thr w : float) (largest : list Z)
    (pair : Area * Area) :
  List.NoDup (map fst (attack_turn probability_of_successful_attack probability_of_holding_area
                         board player_name thr w largest pair)).
Proof.
  unfold attack_turn. destruct pair as [source target].
  match goal with |- List.NoDup (map fst (if ?c then _ else _)) => destruct c end; simpl.
  - apply List.NoDup_cons; [intros [] | constructor].
  - constructor.
Qed.

(** The attack candidates are pairwise distinct. *)
Lemma attacks_distinct (board : Board) (player_name : Z) (thr w : float) (largest : list Z) :
  board_wf board -> adjacency_wf board ->
  List.NoDup
    (map fst
       (flat_map
          (attack_turn probability_of_successful_attack probability_of_holding_area
             board player_name thr w largest)
          (possible_attacks board player_name))).
Proof.
  intros Hwf Hadj. rewrite map_flat_map_comm. unfold possible_attacks. rewrite flat_map_nested.
  apply (NoDup_flat_map_keyed get_name (fun t : Turn => fst (fst t))).
  - unfold get_player_border, get_player_areas. do 3 apply NoDup_map_filter. exact Hwf.
  - intros area Harea. apply filter_In in Harea. destruct Harea as [Harea _]. rewrite flat_map_nested.
    apply (NoDup_flat_map_keyed (fun adj : Z => adj) (fun t : Turn => snd (fst t))).
    + rewrite map_id. apply Hadj. unfold get_player_border in Harea.
      apply filter_In in Harea. destruct Harea as [Harea _].
      apply get_player_areas_In in Harea. apply Harea.
    + intros adj _. destruct (find_area board adj) as [t|]; [|constructor].
      destruct (get_owner_name t =? player_name); [constructor|].
      cbn [flat_map]. rewrite app_nil_r. apply attack_turn_NoDup.
    + intros adj b _ Hb. destruct (find_area board adj) as [t|] eqn:Ht; [|destruct Hb].
      destruct (get_owner_name t =? player_name); [destruct Hb|].
      cbn [flat_map] in Hb. rewrite app_nil_r in Hb. apply in_map_iff in Hb. destruct Hb as [e [<- He]].
      apply attack_turn_In in He. destruct He as [_ [He _]]. simpl in He.
      destruct (find_area_name _ _ _ Ht) as [Hn _]. unfold entry_target in He. congruence.
  - intros area b _ Hb. apply in_flat_map in Hb. destruct Hb as [[s t] [Hpair Hb]].
    apply in_flat_map in Hpair. destruct Hpair as [adj [_ Hpair]].
    destruct (find_area board adj) as [t'|]; [|destruct Hpair].
    destruct (get_owner_name t' =? player_name); [destruct Hpair|].
    destruct Hpair as [[= <- <-]|[]].
    apply in_map_iff in Hb. destruct Hb as [e [<- He]].
    apply attack_turn_In in He. destruct He as [He _]. exact He.
Qed.

(** What [__get_possible_turns] returns on a board with distinct names and
    repeat-free adjacency lists: among the transfers it appends, those
    whose target is not an inner area are pairwise distinct. *)
Lemma get_possible_turns_shape (player_name : Z) (board : Board) :
  board_wf board -> adjacency_wf board ->
  good
    (fun r =>
       exists largest extras,
         Forall (transfer_entry (map get_name (get_player_areas board player_name))) extras
         /\ List.NoDup
              (map fst (List.filter (outside_inner (inner_area_names_of board player_name)) extras))
         /\ fst r
            = map fst
                (sorted_desc
                   (flat_map
                      (attack_turn probability_of_successful_attack probability_of_holding_area
                         board player_name (fst (attack_parameters board)) (snd (attack_parameters board))
                         largest)
                      (possible_attacks board player_name)
                    ++ extras)))
    (get_possible_turns probability_of_successful_attack probability_of_holding_area self player_name board).
Proof.
  intros Hwf Hadj. unfold get_possible_turns. destruct (attack_parameters board) as [thr w]. simpl.
  destruct (get_largest_region_for_player player_name board) as [largest| |] eqn:El; simpl; trivial.
  - eapply good_bind.
    + apply good_and.
      * apply transfer_loop_good. intros x Hx. apply in_map_iff in Hx. destruct Hx as [a [<- Ha]].
        apply filter_In in Ha. apply in_map. apply Ha.
      * apply transfer_loop_distinct.
        -- unfold get_player_areas. apply NoDup_map_filter. exact Hwf.
        -- intros a Ha. apply Hadj. apply get_player_areas_In in Ha. apply Ha.
    + intros st [[_ [extras [Ht Hq]]] [extras' [Ht' [Hd _]]]]. simpl in *.
      rewrite Ht in Ht'. apply app_inv_head in Ht'. subst extras'.
      exists largest, extras. split; [exact Hq|]. split; [exact Hd|]. rewrite Ht. reflexivity.
  - revert El. unfold get_largest_region_for_player.
    destruct (py_max _) eqn:Em; simpl; try discriminate.
    destruct (map _ _) in Em; discriminate.
Qed.

Lemma filter_transfer_entries (names inner : list Z) (extras : list ScoredTurn) :
  Forall (transfer_entry names) extras ->
  List.filter (attack_or_outside_inner inner) (map fst extras)
  = map fst (List.filter (outside_inner inner) extras).
Proof.
  induction extras as [|e rest IH]; intros H; simpl; [reflexivity|].
  apply List.Forall_cons_iff in H. destruct H as [[Hk _] H]. rewrite (IH H).
  unfold attack_or_outside_inner, outside_inner, entry_target. unfold entry_kind in Hk.
  rewrite Hk. simpl. destruct (mem (snd (fst (fst e))) inner); reflexivity.
Qed.

(** No border area of a player is one of its inner areas: the transfers
    into a border area are among the entries whose target is not an inner
    area. *)
Lemma border_area_not_inner (board : Board) (player_name : Z) (x : Z) :
  In x (map get_name (get_player_border board player_name)) ->
  ~ In x (inner_area_names_of board player_name).
Proof.
  intros Hb Hi. unfold inner_area_names_of in Hi.
  apply in_map_iff in Hi. destruct Hi as [a [<- Ha]].
  apply filter_In in Ha. destruct Ha as [_ Ha]. apply andb_true_iff in Ha. destruct Ha as [Ha _].
  apply negb_true_iff, mem_false in Ha. contradiction.
Qed.

(** C4 (amended): on a board whose area names are pairwise distinct and
    whose adjacency lists name each neighbour once, the entries of the
    returned list that are attacks, or transfers whose target is not an
    inner area of the player, are pairwise distinct: no two attacks share
    the same (source, target), no two transfers into a border area or into
    an area next to the border do, and no attack equals a transfer.  Only
    a transfer into an inner area, appended by the recursion of a transfer
    chain, may stand in the list more than once. *)
Theorem get_possible_turns_distinct_entries (player_name : Z) (board : Board) :
  board_wf board ->
  adjacency_wf board ->
  get_possible_turns probability_of_successful_attack probability_of_holding_area self player_name board
    <> OutOfFuel
  /\ forall turns board',
       get_possible_turns probability_of_successful_attack probability_of_holding_area self player_name board
         = Ret (turns, board') ->
       List.NoDup
         (List.filter (attack_or_outside_inner (inner_area_names_of board player_name)) turns).
Proof.
  intros Hwf Hadj. pose proof (get_possible_turns_shape player_name board Hwf Hadj) as Hgood. split.
  - intros E. rewrite E in Hgood. exact Hgood.
  - intros turns board' E. rewrite E in Hgood. simpl in Hgood.
    destruct Hgood as [largest [extras [Hq [Hd Hturns]]]]. subst turns.
    eapply Permutation_NoDup.
    + apply Permutation_filter_bool. apply Permutation_map. symmetry. apply sorted_desc_perm.
    + rewrite map_app, List.filter_app. apply List.NoDup_app.
      * apply List.NoDup_filter. apply attacks_distinct; assumption.
      * rewrite (filter_transfer_entries _ _ _ Hq). exact Hd.
      * intros x H1 H2. apply filter_In in H1. destruct H1 as [H1 _].
        apply filter_In in H2. destruct H2 as [H2 _].
        apply in_map_iff in H1. destruct H1 as [e1 [<- H1]].
        apply in_map_iff in H2. destruct H2 as [e2 [Heq H2]].
        apply in_flat_map in H1. destruct H1 as [pair [_ H1]].
        apply attack_turn_In in H1. destruct H1 as [_ [_ Hk1]].
        rewrite List.Forall_forall in Hq. destruct (Hq e2 H2) as [Hk2 _].
        unfold entry_kind in Hk1, Hk2. rewrite Heq in Hk2. rewrite Hk1 in Hk2. discriminate.
Qed.

(** The rule of the attack loop as the code has it: a pair is kept exactly
    when its combined probability reaches the threshold or the TARGET
    holds [MAX_DICE] dice. *)
Lemma attack_turn_kept (board : Board) (player_name : Z) (thr w : float) (largest : list Z)
    (source target : Area) :
  attack_turn probability_of_successful_attack probability_of_holding_area
    board player_name thr w largest (source, target) <> []
  <-> PrimFloat.leb thr
        (PrimFloat.mul
           (probability_of_successful_attack board (get_name source) (get_name target))
           (probability_of_holding_area board (get_name target) (get_dice target) player_name)) = true
      \/ get_dice target = MAX_DICE.
Proof.
  unfold attack_turn.
  destruct (PrimFloat.leb thr _) eqn:E; simpl.
  - split; [intros _; left; reflexivity | intros _; discriminate].
  - destruct (get_dice target =? MAX_DICE) eqn:E'.
    + apply Z.eqb_eq in E'. split; [intros _; right; exact E' | intros _; discriminate].
    + apply Z.eqb_neq in E'. split; [congruence | intros [H|H]; [discriminate | contradiction]].
Qed.

End GenerationSteps.

Lemma example_boards_wf : board_wf chain_board /\ board_wf siege_board /\ board_wf endgame_board.
Proof.
  unfold board_wf, area_names. simpl.
  repeat split; repeat (apply List.NoDup_cons; [simpl; intuition discriminate|]); apply List.NoDup_nil.
Qed.

Lemma get_possible_turns_sources_owned_witness :
  get_possible_turns dice_attack_oracle dice_hold_oracle example_ai 1 chain_board <> OutOfFuel
  /\ forall turns board',
       get_possible_turns dice_attack_oracle dice_hold_oracle example_ai 1 chain_board = Ret (turns, board') ->
       forall source target command_type,
         In (source, target, command_type) turns -> owner_of chain_board source = Some 1.
Proof.
  apply (get_possible_turns_sources_owned dice_attack_oracle dice_hold_oracle example_ai 1 chain_board).
  unfold board_wf, area_names. simpl.
  repeat (apply List.NoDup_cons; [simpl; intuition discriminate|]). apply List.NoDup_nil.
Defined.

(** C2 (the code at the failing input): on [siege_board], with two players
    alive, the only attack of player 1 starts from area 1, which holds the
    maximum of eight dice; its combined probability is below the threshold
    and its target holds seven dice, so the generator returns no candidate
    at all. *)
Theorem attack_from_full_stack_dropped :
  dice_of siege_board 1 = MAX_DICE
  /\ map (fun pair => (get_name (fst pair), get_name (snd pair))) (possible_attacks siege_board 1) = [(1, 2)]
  /\ get_possible_turns dice_attack_oracle dice_hold_oracle example_ai 1 siege_board = Ret ([], siege_board).
Proof. repeat split; vm_compute; reflexivity. Qed.

(** The scenario of the specification (source with eight dice, target
    with two) is kept with the oracle of the game because its probability
    passes the threshold; under an oracle that gives the attack one chance
    in ten it is dropped as well. *)
Lemma attack_in_scenario_depends_on_probability :
  get_possible_turns dice_attack_oracle dice_hold_oracle example_ai 1 pair_board
    = Ret ([(1, 2, BATTLE_COMMAND)], pair_board)
  /\ get_possible_turns gloomy_attack_oracle sure_hold_oracle example_ai 1 pair_board
    = Ret ([], pair_board).
Proof. split; vm_compute; reflexivity. Qed.

(** C4 (as stated, refuted): on [chain_board] the inner area 5 is adjacent
    to both areas next to the border, so the chain behind it is walked once
    for each of them, and the transfer from area 6 to area 5 is appended
    twice: it stands at positions 3 and 5 of the returned list. *)
Lemma possible_turns_repeat_a_transfer :
  exists turns board',
    get_possible_turns dice_attack_oracle dice_hold_oracle example_ai 1 chain_board = Ret (turns, board')
    /\ nth_error turns 3 = Some (6, 5, TRANSFER_COMMAND)
    /\ nth_error turns 5 = Some (6, 5, TRANSFER_COMMAND)
    /\ ~ List.NoDup turns.
Proof.
  eexists _, _. split; [vm_compute; reflexivity|]. split; [reflexivity|]. split; [reflexivity|].
  intros H. do 3 (apply List.NoDup_cons_iff in H; destruct H as [_ H]).
  apply List.NoDup_cons_iff in H. destruct H as [Hx _]. apply Hx. right. left. reflexivity.
Qed.

(** ** Max^n search *)

Lemma good_simulate_command (board : Board) (source target command_type : Z) :
  good (fun _ => True) (simulate_command board source target command_type).
Proof.
  unfold simulate_command.
  eapply good_bind; [apply good_get_area|]. intros _ _.
  eapply good_bind; [apply good_get_area|]. intros _ _.
  destruct (command_type =? BATTLE_COMMAND); [exact I|].
  destruct (command_type =? TRANSFER_COMMAND); exact I.
Qed.

Lemma good_player_heuristic (board : Board) (player : Z) :
  good (fun _ => True) (player_heuristic board player).
Proof.
  unfold player_heuristic. rewrite region_fold_spec.
  destruct (py_max _) eqn:E; simpl; trivial.
  destruct (_ ++ _) in E; discriminate.
Qed.

Lemma good_get_players_heuristics (players : list Z) (board : Board) :
  good (fun _ => True) (get_players_heuristics players board).
Proof.
  unfold get_players_heuristics. generalize (∅ : gmap Z Z).
  induction players as [|p rest IH]; intros acc; simpl; [exact I|].
  eapply good_bind; [apply good_player_heuristic|]. intros v _. apply IH.
Qed.

Lemma last_removelast (l : list Z) (x : Z) : last l = Some x -> l = removelast l ++ [x].
Proof.
  intros H. apply last_Some in H. destruct H as [l' ->]. rewrite removelast_last. reflexivity.
Qed.

Lemma removelast_shorter (l : list Z) (x : Z) :
  last l = Some x -> S (length (removelast l)) = length l.
Proof.
  intros H. rewrite (last_removelast l x H) at 2. rewrite length_app. simpl. lia.
Qed.

Lemma max_n_fuel_mono (ps ps' : list Z) (d d' : nat) :
  (length ps' <= length ps)%nat -> (d' <= d)%nat -> (max_n_fuel ps' d' <= max_n_fuel ps d)%nat.
Proof.
  intros Hl Hd. unfold max_n_fuel.
  assert (length ps' * S (Nat.max MAX_N_DEPTH d') <= length ps * S (Nat.max MAX_N_DEPTH d))%nat
    by (apply Nat.mul_le_mono; lia).
  lia.
Qed.

Lemma max_n_fuel_pop (ps : list Z) (x : Z) (d : nat) :
  last ps = Some x -> (max_n_fuel (removelast ps) d < max_n_fuel ps d)%nat.
Proof.
  intros H. apply removelast_shorter in H. unfold max_n_fuel. rewrite <- H. simpl. lia.
Qed.

Lemma max_n_fuel_next (ps : list Z) (x : Z) :
  last ps = Some x -> (max_n_fuel (removelast ps) MAX_N_DEPTH < max_n_fuel ps 0)%nat.
Proof.
  intros H. apply removelast_shorter in H. unfold max_n_fuel, MAX_N_DEPTH. rewrite <- H. simpl. lia.
Qed.

(** What the comparisons of the loop select, started from the empty
    dictionary: nothing when no result defines the player's heuristic, and
    otherwise the first result that reaches the greatest defined value. *)
Lemma selected_spec (player : Z) (results : list (Turn * gmap Z Z)) (turn0 : Turn) :
  (fst (selected player results (∅, turn0)) = ∅
   /\ forall r, In r results -> snd r !! player = None)
  \/ (exists i v,
        nth_error results i
          = Some (snd (selected player results (∅, turn0)), fst (selected player results (∅, turn0)))
        /\ fst (selected player results (∅, turn0)) !! player = Some v
        /\ forall j r w, nth_error results j = Some r -> snd r !! player = Some w ->
             w <= v /\ ((j < i)%nat -> w < v)).
Proof.
  induction results as [|x results IH] using rev_ind.
  - left. split; [reflexivity | intros r []].
  - unfold selected in *. rewrite fold_left_app. simpl.
    destruct (fold_left (fun best r => absorb player best (fst r) (snd r)) results (∅, turn0))
      as [h turn] eqn:Hsel.
    simpl in IH. unfold absorb.
    destruct (snd x !! player) as [nv|] eqn:Hx.
    + destruct IH as [[Hempty Hnone] | [i [v [Hi [Hv Hmax]]]]].
      * subst h. rewrite lookup_empty. right. exists (length results), nv. simpl.
        split; [|split].
        -- rewrite nth_error_app2 by lia. rewrite Nat.sub_diag. destruct x; reflexivity.
        -- exact Hx.
        -- intros j r w Hj Hw. destruct (Nat.lt_ge_cases j (length results)) as [Hlt|Hge].
           ++ rewrite nth_error_app1 in Hj by exact Hlt. apply nth_error_In in Hj.
              rewrite (Hnone r Hj) in Hw. discriminate.
           ++ rewrite nth_error_app2 in Hj by exact Hge.
              destruct (j - length results)%nat as [|k] eqn:Hk; simpl in Hj.
              ** injection Hj as <-. rewrite Hx in Hw. injection Hw as <-. split; lia.
              ** destruct k; discriminate.
      * rewrite Hv. assert (Hilt : (i < length results)%nat) by (apply nth_error_Some; congruence).
        destruct (v <? nv) eqn:Hcmp; right.
        -- exists (length results), nv. simpl. split; [|split].
           ++ rewrite nth_error_app2 by lia. rewrite Nat.sub_diag. destruct x; reflexivity.
           ++ exact Hx.
           ++ intros j r w Hj Hw. destruct (Nat.lt_ge_cases j (length results)) as [Hlt|Hge].
              ** rewrite nth_error_app1 in Hj by exact Hlt.
                 destruct (Hmax j r w Hj Hw) as [Hle _]. split; lia.
              ** rewrite nth_error_app2 in Hj by exact Hge.
                 destruct (j - length results)%nat as [|k] eqn:Hk; simpl in Hj.
                 --- injection Hj as <-. rewrite Hx in Hw. injection Hw as <-. split; lia.
                 --- destruct k; discriminate.
        -- exists i, v. simpl. split; [|split].
           ++ rewrite nth_error_app1 by exact Hilt. exact Hi.
           ++ exact Hv.
           ++ intros j r w Hj Hw. destruct (Nat.lt_ge_cases j (length results)) as [Hlt|Hge].
              ** rewrite nth_error_app1 in Hj by exact Hlt. apply (Hmax j r w Hj Hw).
              ** rewrite nth_error_app2 in Hj by exact Hge.
                 destruct (j - length results)%nat as [|k] eqn:Hk; simpl in Hj.
                 --- injection Hj as <-. rewrite Hx in Hw. injection Hw as <-. split; lia.
                 --- destruct k; discriminate.
    + destruct IH as [[Hempty Hnone] | [i [v [Hi [Hv Hmax]]]]].
      * left. simpl. split; [exact Hempty|]. intros r Hr. apply in_app_or in Hr.
        destruct Hr as [Hr|[<-|[]]]; [apply Hnone; exact Hr | exact Hx].
      * right. assert (Hilt : (i < length results)%nat) by (apply nth_error_Some; congruence).
        exists i, v. simpl. split; [|split].
        -- rewrite nth_error_app1 by exact Hilt. exact Hi.
        -- exact Hv.
        -- intros j r w Hj Hw. destruct (Nat.lt_ge_cases j (length results)) as [Hlt|Hge].
           ++ rewrite nth_error_app1 in Hj by exact Hlt. apply (Hmax j r w Hj Hw).
           ++ rewrite nth_error_app2 in Hj by exact Hge.
              destruct (j - length results)%nat as [|k] eqn:Hk; simpl in Hj.
              ** injection Hj as <-. rewrite Hx in Hw. discriminate.
              ** destruct k; discriminate.
Qed.

Lemma selected_from_empty (player : Z) (results : list (Turn * gmap Z Z)) (turn0 : Turn)
    (sel : gmap Z Z * Turn) :
  sel = selected player results (∅, turn0) ->
  (fst sel = ∅ /\ forall r, In r results -> snd r !! player = None)
  \/ (exists i v,
        nth_error results i = Some (snd sel, fst sel)
        /\ fst sel !! player = Some v
        /\ forall j r w, nth_error results j = Some r -> snd r !! player = Some w ->
             w <= v /\ ((j < i)%nat -> w < v)).
Proof. intros ->. apply selected_spec. Qed.

Section SearchProperties.

Variable probability_of_successful_attack : Board -> Z -> Z -> float.
Variable probability_of_holding_area : Board -> Z -> Z -> Z -> float.
Variable self : AI.

Lemma max_n_unfold (fuel : nat) (board : Board) (players_names : list Z) (depth : nat) :
  max_n probability_of_successful_attack probability_of_holding_area self (S fuel) board players_names depth
  = match last players_names with
    | None =>
        players_heuristics ← get_players_heuristics [self_player_name self] board;
        Ret (None, players_heuristics, players_names)
    | Some player_name =>
        match get_player_areas board player_name with
        | [] =>
            max_n probability_of_successful_attack probability_of_holding_area self
              fuel board (removelast players_names) depth
        | _ :: _ =>
            match depth with
            | S depth' =>
                '(all_turns, board) ←
                  get_possible_turns probability_of_successful_attack probability_of_holding_area self
                    player_name board;
                match firstn depth all_turns with
                | [] =>
                    '(_, players_heuristics, players_names) ←
                      max_n probability_of_successful_attack probability_of_holding_area self
                        fuel board players_names 0;
                    Ret (None, players_heuristics, players_names)
                | turns =>
                    '(players_heuristics, turn, players_names) ←
                      explore
                        (fun board_copy players_names =>
                           max_n probability_of_successful_attack probability_of_holding_area self
                             fuel board_copy players_names depth')
                        board player_name turns (∅, (0, 0, BATTLE_COMMAND)) players_names;
                    Ret (if decide (players_heuristics = ∅) then None else Some turn,
                         players_heuristics, players_names)
                end
            | O =>
                let players_names := removelast players_names in
                match players_names with
                | _ :: _ =>
                    max_n probability_of_successful_attack probability_of_holding_area self
                      fuel board players_names MAX_N_DEPTH
                | [] =>
                    players_heuristics ← get_players_heuristics (elements (living_players board)) board;
                    Ret (None, players_heuristics, players_names)
                end
            end
        end
    end.
Proof. reflexivity. Qed.

(** A player without areas at the right end of the rotation is removed,
    and the search goes on at the same depth. *)
Lemma max_n_skips_eliminated (fuel : nat) (board : Board) (players_names : list Z) (depth : nat)
    (player : Z) :
  last players_names = Some player ->
  get_player_areas board player = [] ->
  max_n probability_of_successful_attack probability_of_holding_area self (S fuel) board players_names depth
  = max_n probability_of_successful_attack probability_of_holding_area self
      fuel board (removelast players_names) depth.
Proof. intros Hl Ha. rewrite max_n_unfold, Hl, Ha. reflexivity. Qed.

Lemma explore_good (search : Board -> list Z -> outcome SearchResult) (board : Board) (player : Z)
    (bound : nat) :
  (forall b ps, (length ps <= bound)%nat -> good (fun r => (length (snd r) <= bound)%nat) (search b ps)) ->
  forall turns best ps, (length ps <= bound)%nat ->
    good (fun r => (length (snd r) <= bound)%nat) (explore search board player turns best ps).
Proof.
  intros Hs. induction turns as [|[[source target] command_type] rest IH]; intros best ps Hps; simpl.
  - exact Hps.
  - eapply good_bind; [apply good_simulate_command|]. intros board_copy _.
    eapply good_bind; [apply (Hs board_copy ps Hps)|]. intros [[t h] ps1] Hps1. simpl in *.
    apply IH. exact Hps1.
Qed.

(** The search ends: with [max_n_fuel] the model never runs out of fuel,
    and the rotation it hands back is no longer than the one it got. *)
Lemma max_n_good (fuel : nat) :
  forall board players_names depth,
    (max_n_fuel players_names depth <= fuel)%nat ->
    good (fun r => (length (snd r) <= length players_names)%nat)
      (max_n probability_of_successful_attack probability_of_holding_area self fuel board players_names depth).
Proof.
  induction fuel as [|fuel IH]; intros board ps depth Hfuel.
  - unfold max_n_fuel in Hfuel. lia.
  - rewrite max_n_unfold.
    destruct (last ps) as [player|] eqn:Hlast.
    + destruct (get_player_areas board player) as [|a areas] eqn:Hareas.
      * eapply good_impl.
        -- apply IH. pose proof (max_n_fuel_pop ps player depth Hlast). lia.
        -- intros r Hr. simpl in *. pose proof (removelast_shorter ps player Hlast). lia.
      * destruct depth as [|depth'].
        -- simpl. destruct (removelast ps) as [|q qs] eqn:Hrem.
           ++ eapply good_bind; [apply good_get_players_heuristics|]. intros h _. simpl. lia.
           ++ eapply good_impl.
              ** apply IH. pose proof (max_n_fuel_next ps player Hlast). rewrite Hrem in H. lia.
              ** intros r Hr. simpl in *. pose proof (removelast_shorter ps player Hlast).
                 rewrite Hrem in H. simpl in H. lia.
        -- eapply good_bind.
           ++ apply (get_possible_turns_good probability_of_successful_attack probability_of_holding_area
                       self player board).
           ++ intros [all_turns board'] _.
              assert (Hloop : forall turns,
                        good (fun r => (length (snd r) <= length ps)%nat)
                          ('(players_heuristics, turn, players_names) ←
                             explore
                               (fun board_copy players_names =>
                                  max_n probability_of_successful_attack probability_of_holding_area self
                                    fuel board_copy players_names depth')
                               board' player turns (∅, (0, 0, BATTLE_COMMAND)) ps;
                           Ret (if decide (players_heuristics = ∅) then None else Some turn,
                                players_heuristics, players_names))).
              { intros turns. eapply good_bind.
                - apply (explore_good _ board' player (length ps)); [|lia].
                  intros b ps' Hps'. eapply good_impl.
                  + apply IH. pose proof (max_n_fuel_mono ps ps' depth' depth' Hps' (le_n _)).
                    unfold max_n_fuel in *.
                    assert (length ps * S (Nat.max MAX_N_DEPTH depth')
                            <= length ps * S (Nat.max MAX_N_DEPTH (S depth')))%nat
                      by (apply Nat.mul_le_mono; lia).
                    lia.
                  + intros r Hr. simpl in *. lia.
                - intros [[h t] ps'] Hr. simpl in *. exact Hr. }
              destruct (firstn (S depth') all_turns) as [|t0 ts] eqn:Hturns.
              ** eapply good_bind.
                 --- apply IH. unfold max_n_fuel in *.
                     assert (length ps * S (Nat.max MAX_N_DEPTH 0)
                             <= length ps * S (Nat.max MAX_N_DEPTH (S depth')))%nat
                       by (apply Nat.mul_le_mono; lia).
                     lia.
                 --- intros [[t h] ps'] Hr. simpl in *. exact Hr.
              ** apply Hloop.
    + eapply good_bind; [apply good_get_players_heuristics|]. intros h _. simpl. lia.
Qed.

Lemma explore_spec (search : Board -> list Z -> outcome SearchResult) (board : Board) (player : Z)
    (turns : list Turn) :
  forall best ps best' ps',
    explore search board player turns best ps = Ret (best', ps') ->
    exists results,
      explored search board turns ps results ps'
      /\ map fst results = turns
      /\ best' = selected player results best.
Proof.
  induction turns as [|[[source target] command_type] rest IH]; intros best ps best' ps'; simpl.
  - intros [= <- <-]. exists []. split; [constructor|]. split; reflexivity.
  - intros H. apply bind_Ret in H. destruct H as [board_copy [Hsim H]].
    apply bind_Ret in H. destruct H as [[[t h] ps1] [Hsearch H]].
    apply IH in H. destruct H as [results [Hex [Hmap Hsel]]].
    exists ((source, target, command_type, h) :: results). split; [|split].
    + econstructor; eassumption.
    + simpl. rewrite Hmap. reflexivity.
    + exact Hsel.
Qed.

Lemma explored_turns (search : Board -> list Z -> outcome SearchResult) (board : Board)
    (turns : list Turn) (ps : list Z) (results : list (Turn * gmap Z Z)) (ps' : list Z) :
  explored search board turns ps results ps' -> map fst results = turns.
Proof.
  induction 1 as [ps|source target command_type rest ps board_copy t h ps1 results ps2 _ _ _ IH]; simpl;
    [reflexivity | rewrite IH; reflexivity].
Qed.

(** When every candidate of the loop is simulated and searched to a
    result, the loop returns what the comparisons select. *)
Lemma explore_run (search : Board -> list Z -> outcome SearchResult) (board : Board) (player : Z)
    (turns : list Turn) (ps : list Z) (results : list (Turn * gmap Z Z)) (ps' : list Z) :
  explored search board turns ps results ps' ->
  forall best,
    explore search board player turns best ps = Ret (selected player results best, ps').
Proof.
  induction 1 as [ps|source target command_type rest ps board_copy t h ps1 results ps2 Hsim Hsearch _ IH];
    intros best; simpl; [reflexivity|].
  rewrite Hsim, ret_bind, Hsearch, ret_bind. apply IH.
Qed.

(** C5: the normal case of the search (a player with areas at the right
    end of the rotation, a positive depth).  The search ends.  When the
    generator returns candidates and each of the first [depth] of them is
    simulated on a copy of the board and searched one level lower to a
    result, the call returns: at most [depth] candidates have been
    explored, the turn returned is the first explored candidate whose
    result gives the player the greatest defined heuristic (every other
    defined value is at most as large, every earlier one strictly
    smaller), together with that result's heuristics, and no turn and the
    empty dictionary are returned when no explored result defines the
    player's heuristic.  When the generator returns no candidate, the call
    returns no turn, with the heuristics of the search at depth 0.
    Conversely, whenever the call returns, the generator has returned and
    the first [depth] candidates have been explored in this way. *)
Theorem max_n_normal_case (fuel : nat) (board : Board) (players_names : list Z) (depth : nat) (player : Z) :
  last players_names = Some player ->
  get_player_areas board player <> [] ->
  (max_n_fuel players_names (S depth) <= S fuel)%nat ->
  max_n probability_of_successful_attack probability_of_holding_area self
    (S fuel) board players_names (S depth) <> OutOfFuel
  /\ (forall all_turns board' results players_names',
        get_possible_turns probability_of_successful_attack probability_of_holding_area self player board
          = Ret (all_turns, board') ->
        firstn (S depth) all_turns <> [] ->
        explored
          (fun board_copy players_names =>
             max_n probability_of_successful_attack probability_of_holding_area self
               fuel board_copy players_names depth)
          board' (firstn (S depth) all_turns) players_names results players_names' ->
        (length results <= S depth)%nat
        /\ exists turn h,
             max_n probability_of_successful_attack probability_of_holding_area self
               (S fuel) board players_names (S depth) = Ret (turn, h, players_names')
             /\ match turn with
                | Some best =>
                    exists i v,
                      nth_error results i = Some (best, h)
                      /\ h !! player = Some v
                      /\ forall j r w, nth_error results j = Some r -> snd r !! player = Some w ->
                           w <= v /\ ((j < i)%nat -> w < v)
                | None => h = ∅ /\ forall r, In r results -> snd r !! player = None
                end)
  /\ (forall all_turns board' ignored_turn h players_names',
        get_possible_turns probability_of_successful_attack probability_of_holding_area self player board
          = Ret (all_turns, board') ->
        firstn (S depth) all_turns = [] ->
        max_n probability_of_successful_attack probability_of_holding_area self
          fuel board' players_names 0 = Ret (ignored_turn, h, players_names') ->
        max_n probability_of_successful_attack probability_of_holding_area self
          (S fuel) board players_names (S depth) = Ret (None, h, players_names'))
  /\ forall turn h players_names',
       max_n probability_of_successful_attack probability_of_holding_area self
         (S fuel) board players_names (S depth) = Ret (turn, h, players_names') ->
       exists all_turns results players_names'',
         get_possible_turns probability_of_successful_attack probability_of_holding_area self player board
           = Ret (all_turns, board)
         /\ map fst results = firstn (S depth) all_turns
         /\ (length results <= S depth)%nat
         /\ explored
              (fun board_copy players_names =>
                 max_n probability_of_successful_attack probability_of_holding_area self
                   fuel board_copy players_names depth)
              board (firstn (S depth) all_turns) players_names results players_names''
         /\ match turn with
            | Some best =>
                exists i v,
                  nth_error results i = Some (best, h)
                  /\ h !! player = Some v
                  /\ forall j r w, nth_error results j = Some r -> snd r !! player = Some w ->
                       w <= v /\ ((j < i)%nat -> w < v)
            | None => forall r, In r results -> snd r !! player = None
            end.
Proof.
  intros Hlast Hareas Hfuel.
  assert (Hlen : forall (all_turns : list Turn) (results : list (Turn * gmap Z Z)),
             map fst results = firstn (S depth) all_turns -> (length results <= S depth)%nat).
  { intros all_turns results Hmap. rewrite <- (length_map fst), Hmap. apply firstn_le_length. }
  split; [|split; [|split]].
  - intros E. pose proof (max_n_good (S fuel) board players_names (S depth) Hfuel) as Hgood.
    rewrite E in Hgood. exact Hgood.
  - intros all_turns board' results players_names' Hgen Hne Hrun.
    split; [apply (Hlen all_turns), (explored_turns _ _ _ _ _ _ Hrun)|].
    rewrite max_n_unfold, Hlast.
    destruct (get_player_areas board player) as [|a areas]; [congruence|].
    rewrite Hgen, ret_bind. cbv beta iota.
    destruct (firstn (S depth) all_turns) as [|t0 ts] eqn:Hturns; [congruence|].
    rewrite (explore_run _ _ player _ _ _ _ Hrun), ret_bind.
    destruct (selected player results (∅, (0, 0, BATTLE_COMMAND))) as [h' t'] eqn:Hsel.
    symmetry in Hsel.
    pose proof (selected_from_empty player results (0, 0, BATTLE_COMMAND) (h', t') Hsel) as Hspec.
    simpl in Hspec. cbv beta iota.
    destruct Hspec as [[Hempty Hnone] | [i [v [Hi [Hv Hmax]]]]].
    + subst h'. exists None, ∅. destruct (decide (∅ = ∅)) as [_|Hn]; [|congruence].
      split; [reflexivity|]. split; [reflexivity | exact Hnone].
    + exists (Some t'), h'.
      destruct (decide (h' = ∅)) as [->|_]; [rewrite lookup_empty in Hv; discriminate|].
      split; [reflexivity|]. exists i, v. split; [exact Hi|]. split; [exact Hv | exact Hmax].
  - intros all_turns board' ignored_turn h players_names' Hgen Hnil Hsearch.
    rewrite max_n_unfold, Hlast.
    destruct (get_player_areas board player) as [|a areas]; [congruence|].
    rewrite Hgen, ret_bind. cbv beta iota. rewrite Hnil, Hsearch. reflexivity.
  - intros turn h players_names'. rewrite max_n_unfold, Hlast.
    destruct (get_player_areas board player) as [|a areas]; [congruence|].
    pose proof (get_possible_turns_good probability_of_successful_attack probability_of_holding_area
                  self player board) as Hgen.
    destruct (get_possible_turns probability_of_successful_attack probability_of_holding_area
                self player board) as [[all_turns board']| |]; [|simpl; discriminate|simpl; discriminate].
    simpl in Hgen. destruct Hgen as [-> _]. rewrite ret_bind. cbv beta iota.
    specialize (Hlen all_turns).
    destruct (firstn (S depth) all_turns) as [|t0 ts] eqn:Hturns.
    + intros H. apply bind_Ret in H. destruct H as [[[t h0] ps0] [_ [= <- <- <-]]].
      exists all_turns, [], players_names. rewrite Hturns.
      split; [reflexivity|]. split; [reflexivity|]. split; [simpl; lia|]. split; [constructor|].
      intros r [].
    + intros H. apply bind_Ret in H. destruct H as [[[h' t'] ps'] [Hexp [= <- <- <-]]].
      apply explore_spec in Hexp. destruct Hexp as [results [Hrun [Hmap Hsel]]].
      exists all_turns, results, ps'. rewrite Hturns.
      split; [reflexivity|]. split; [exact Hmap|]. split; [apply Hlen; exact Hmap|]. split; [exact Hrun|].
      pose proof (selected_from_empty player results (0, 0, BATTLE_COMMAND) (h', t') Hsel) as Hspec.
      simpl in Hspec.
      destruct Hspec as [[Hempty Hnone] | [i [v [Hi [Hv Hmax]]]]].
      * subst h'. destruct (decide (∅ = ∅)) as [_|Hne]; [exact Hnone | congruence].
      * destruct (decide (h' = ∅)) as [->|_]; [rewrite lookup_empty in Hv; discriminate|].
        exists i, v. split; [exact Hi|]. split; [exact Hv | exact Hmax].
Qed.

End SearchProperties.

(** The run of the candidate loop on [reserve_board], for player 1 at the
    right end of the rotation [2; 1] and depth 5: the generator returns two
    candidates; the attack from area 10 is searched to a heuristic of 112
    for player 1 and empties the rotation, the transfer from area 20 to
    area 10 is then evaluated to 118. *)
Example reserve_board_explored :
  get_possible_turns dice_attack_oracle dice_hold_oracle example_ai 1 reserve_board
    = Ret (map fst reserve_board_results, reserve_board)
  /\ explored
       (fun board_copy players_names =>
          max_n dice_attack_oracle dice_hold_oracle example_ai 17 board_copy players_names 4)
       reserve_board (map fst reserve_board_results) [2; 1] reserve_board_results [].
Proof.
  split; [vm_compute; reflexivity|]. unfold reserve_board_results. cbn [map fst].
  eapply (explored_cons _ _ 10 30 BATTLE_COMMAND _ [2; 1] _ _ _ [] _ []);
    [vm_compute; reflexivity | vm_compute; reflexivity |].
  eapply (explored_cons _ _ 20 10 TRANSFER_COMMAND [] [] _ _ _ [] [] []);
    [vm_compute; reflexivity | vm_compute; reflexivity |].
  constructor.
Qed.

Lemma max_n_normal_case_witness :
  (length reserve_board_results <= 5)%nat
  /\ exists turn h,
       max_n dice_attack_oracle dice_hold_oracle example_ai 18 reserve_board [2; 1] 5 = Ret (turn, h, [])
       /\ match turn with
          | Some best =>
              exists i v,
                nth_error reserve_board_results i = Some (best, h)
                /\ h !! 1 = Some v
                /\ forall j r w,
                     nth_error reserve_board_results j = Some r -> snd r !! 1 = Some w ->
                     w <= v /\ ((j < i)%nat -> w < v)
          | None => h = ∅ /\ forall r, In r reserve_board_results -> snd r !! 1 = None
          end.
Proof.
  destruct (max_n_normal_case dice_attack_oracle dice_hold_oracle example_ai 17 reserve_board [2; 1] 4 1)
    as [_ [Hreturns _]]; [reflexivity | vm_compute; discriminate | vm_compute; lia |].
  apply (Hreturns (map fst reserve_board_results) reserve_board).
  - vm_compute. reflexivity.
  - discriminate.
  - unfold reserve_board_results. cbn [map fst firstn].
    eapply (explored_cons _ _ 10 30 BATTLE_COMMAND _ [2; 1] _ _ _ [] _ []);
      [vm_compute; reflexivity | vm_compute; reflexivity |].
    eapply (explored_cons _ _ 20 10 TRANSFER_COMMAND [] [] _ _ _ [] [] []);
      [vm_compute; reflexivity | vm_compute; reflexivity |].
    constructor.
Defined.

(** The search at the failing input of C10, from the entry point: the
    table is [1; 2; 3], player 3 owns nothing, and it is the turn of
    player 1. *)
Lemma endgame_rotation :
  search_rotation 1 [1; 2; 3] = Ret [3; 2; 1]
  /\ get_player_areas endgame_board 3 = []
  /\ get_player_areas endgame_board 1 <> [].
Proof. split; [|split]; vm_compute; [reflexivity | reflexivity | discriminate]. Qed.

(** C10 (the code at the failing input): on [endgame_board] the search
    lets player 2 take the only area of player 1, then finds player 3
    without areas at the right end of the rotation, removes it, and
    evaluates the acting player 1 in the empty-rotation branch; player 1
    owns no region there, [max] is taken of an empty sequence, and the
    search, and with it [ai_turn], ends in [ValueError]. *)
Theorem max_n_raises_for_eliminated_acting_player :
  max_n dice_attack_oracle dice_hold_oracle example_ai (max_n_fuel [3; 2; 1] MAX_N_DEPTH)
    endgame_board [3; 2; 1] MAX_N_DEPTH = Raise ValueError
  /\ ai_turn dice_attack_oracle dice_hold_oracle 1 [1; 2; 3] 6 endgame_board 0 0 10 10%float
     = Raise ValueError.
Proof. split; vm_compute; reflexivity. Qed.

Lemma get_possible_turns_distinct_entries_witness :
  get_possible_turns dice_attack_oracle dice_hold_oracle example_ai 1 chain_board <> OutOfFuel
  /\ forall turns board',
       get_possible_turns dice_attack_oracle dice_hold_oracle example_ai 1 chain_board = Ret (turns, board') ->
       List.NoDup (List.filter (attack_or_outside_inner (inner_area_names_of chain_board 1)) turns).
Proof.
  apply (get_possible_turns_distinct_entries dice_attack_oracle dice_hold_oracle example_ai 1 chain_board).
  - unfold board_wf, area_names. simpl.
    repeat (apply List.NoDup_cons; [simpl; intuition discriminate|]). apply List.NoDup_nil.
  - intros a Ha. simpl in Ha.
    repeat (destruct Ha as [<-|Ha]; [simpl; repeat (apply List.NoDup_cons; [simpl; intuition discriminate|]); apply List.NoDup_nil|]).
    destruct Ha.
Defined.

(** On [chain_board] the inner areas of player 1 are areas 5 and 6; of the
    seven candidates, the two copies of the transfer from area 6 to area 5
    are the only ones into an inner area, and the five others, the
    transfers from area 5 into areas 3 and 4 among them, are pairwise
    distinct. *)
Example chain_board_distinct_entries :
  inner_area_names_of chain_board 1 = [5; 6]
  /\ exists turns board',
       get_possible_turns dice_attack_oracle dice_hold_oracle example_ai 1 chain_board = Ret (turns, board')
       /\ List.filter (attack_or_outside_inner (inner_area_names_of chain_board 1)) turns
          = [(2, 1, BATTLE_COMMAND); (3, 2, TRANSFER_COMMAND); (4, 2, TRANSFER_COMMAND);
             (5, 3, TRANSFER_COMMAND); (5, 4, TRANSFER_COMMAND)].
Proof.
  split; [reflexivity|]. eexists _, _. split; [vm_compute; reflexivity | reflexivity].
Qed.

(** * Further properties of the module *)

(** ** Simulation: what it leaves alone *)

Lemma update_area_map {B : Type} (g : Area -> B) (idx : Z) (f : Area -> Area) (board : Board) :
  (forall x, g (f x) = g x) -> map g (update_area idx f board) = map g board.
Proof.
  intros H. induction board as [|x rest IH]; simpl; [reflexivity|].
  destruct (get_name x =? idx); simpl; [rewrite H; reflexivity | rewrite IH; reflexivity].
Qed.

Lemma update_area_Forall (P : Area -> Prop) (idx : Z) (f : Area -> Area) (board : Board) :
  Forall P board -> (forall a, P a -> P (f a)) -> Forall P (update_area idx f board).
Proof.
  intros H Hf. induction H as [|x rest Hx Hrest IH]; simpl; [constructor|].
  destruct (get_name x =? idx); constructor; auto.
Qed.

Lemma set_dice_names (idx d : Z) (board : Board) : area_names (set_dice idx d board) = area_names board.
Proof. apply update_area_map. reflexivity. Qed.

Lemma set_owner_names (idx o : Z) (board : Board) : area_names (set_owner idx o board) = area_names board.
Proof. apply update_area_map. reflexivity. Qed.

Lemma set_dice_adjacency (idx d : Z) (board : Board) :
  map get_adjacent_areas_names (set_dice idx d board) = map get_adjacent_areas_names board.
Proof. apply update_area_map. reflexivity. Qed.

Lemma set_owner_adjacency (idx o : Z) (board : Board) :
  map get_adjacent_areas_names (set_owner idx o board) = map get_adjacent_areas_names board.
Proof. apply update_area_map. reflexivity. Qed.

(** X1: a simulated command changes neither the names nor the adjacency
    lists of the board, and no area other than its source and its target. *)
Theorem simulate_command_frame (board board' : Board) (source target command_type : Z) :
  simulate_command board source target command_type = Ret board' ->
  area_names board' = area_names board
  /\ map get_adjacent_areas_names board' = map get_adjacent_areas_names board
  /\ forall idx, idx <> source -> idx <> target -> find_area board' idx = find_area board idx.
Proof.
  unfold simulate_command, get_area.
  destruct (find_area board source); simpl; [|discriminate].
  destruct (find_area board target); simpl; [|discriminate].
  destruct (command_type =? BATTLE_COMMAND).
  - intros [= <-]. split; [|split].
    + rewrite set_owner_names, !set_dice_names. reflexivity.
    + rewrite set_owner_adjacency, !set_dice_adjacency. reflexivity.
    + intros idx Hs Ht. unfold set_owner, set_dice.
      rewrite !find_area_update_other by (try reflexivity; congruence). reflexivity.
  - destruct (command_type =? TRANSFER_COMMAND); intros [= <-].
    + split; [|split].
      * rewrite !set_dice_names. reflexivity.
      * rewrite !set_dice_adjacency. reflexivity.
      * intros idx Hs Ht. unfold set_dice.
        rewrite !find_area_update_other by (try reflexivity; congruence). reflexivity.
    + repeat split.
Qed.

Lemma simulate_command_frame_witness :
  area_names (set_owner 20 10 (set_dice 10 1 (set_dice 20 3 duel_board))) = area_names duel_board
  /\ map get_adjacent_areas_names (set_owner 20 10 (set_dice 10 1 (set_dice 20 3 duel_board)))
     = map get_adjacent_areas_names duel_board
  /\ forall idx, idx <> 10 -> idx <> 20 ->
       find_area (set_owner 20 10 (set_dice 10 1 (set_dice 20 3 duel_board))) idx = find_area duel_board idx.
Proof.
  apply (simulate_command_frame duel_board _ 10 20 BATTLE_COMMAND). reflexivity.
Defined.

Lemma dice_of_in_range (board : Board) (idx : Z) (a : Area) :
  dice_in_range board -> find_area board idx = Some a -> 1 <= dice_of board idx <= MAX_DICE.
Proof.
  intros Hr Ha. rewrite (find_area_dice_of _ _ _ Ha).
  apply find_area_name in Ha. destruct Ha as [_ Hin].
  unfold dice_in_range in Hr. rewrite List.Forall_forall in Hr. apply Hr. exact Hin.
Qed.

Lemma set_dice_in_range (idx d : Z) (board : Board) :
  dice_in_range board -> 1 <= d <= MAX_DICE -> dice_in_range (set_dice idx d board).
Proof. intros Hr Hd. apply update_area_Forall; [exact Hr|]. intros a _. simpl. exact Hd. Qed.

Lemma set_owner_in_range (idx o : Z) (board : Board) :
  dice_in_range board -> dice_in_range (set_owner idx o board).
Proof. intros Hr. apply update_area_Forall; [exact Hr|]. intros a Ha. simpl. exact Ha. Qed.

(** X2: the dice of every area stay between 1 and 8 under simulation: a
    transfer keeps the range whatever its areas, an attack keeps it when
    its source holds at least two dice. *)
Theorem simulate_command_dice_in_range (board board' : Board) (source target command_type : Z) :
  dice_in_range board ->
  (command_type = BATTLE_COMMAND -> 2 <= dice_of board source) ->
  simulate_command board source target command_type = Ret board' ->
  dice_in_range board'.
Proof.
  intros Hr Hatk. unfold simulate_command, get_area.
  destruct (find_area board source) as [s|] eqn:Hs; simpl; [|discriminate].
  destruct (find_area board target) as [t|] eqn:Ht; simpl; [|discriminate].
  pose proof (dice_of_in_range board source s Hr Hs) as Hds.
  pose proof (dice_of_in_range board target t Hr Ht) as Hdt.
  unfold MAX_DICE in *.
  destruct (command_type =? BATTLE_COMMAND) eqn:Ek.
  - apply Z.eqb_eq in Ek. specialize (Hatk Ek). intros [= <-].
    apply set_owner_in_range. apply set_dice_in_range; [|unfold MAX_DICE; lia].
    apply set_dice_in_range; [exact Hr | unfold MAX_DICE; lia].
  - destruct (command_type =? TRANSFER_COMMAND); intros [= <-]; [|exact Hr].
    assert (Hr1 : dice_in_range (set_dice target (Z.min (dice_of board target + dice_of board source) 8) board))
      by (apply set_dice_in_range; [exact Hr | unfold MAX_DICE; lia]).
    destruct (find_area_set_dice_Some board target source
                (Z.min (dice_of board target + dice_of board source) 8) s Hs) as [s1 Hs1].
    pose proof (dice_of_in_range _ source s1 Hr1 Hs1) as Hds1.
    rewrite (dice_of_set_dice_same board target _ t Ht) in *.
    apply set_dice_in_range; [exact Hr1 | unfold MAX_DICE in *; lia].
Qed.

Lemma simulate_command_dice_in_range_witness :
  dice_in_range (set_dice 10 (Z.max (3 - (5 - 2)) 1) (set_dice 20 5 transfer_board)).
Proof.
  apply (simulate_command_dice_in_range transfer_board _ 10 20 TRANSFER_COMMAND).
  - repeat constructor; simpl; unfold MAX_DICE; lia.
  - discriminate.
  - reflexivity.
Defined.

(** ** Heuristics: who is evaluated, and when the evaluation fails *)

Lemma regions_grow (board : Board) (player : Z) (areas : list Area) (regions : list (list Z)) :
  regions <> [] ->
  fold_left
    (fun regions a =>
       if existsb (mem (get_name a)) regions then regions
       else regions ++ [get_areas_region board player (get_name a)])
    areas regions <> [].
Proof.
  revert regions. induction areas as [|a rest IH]; intros regions Hne; simpl; [exact Hne|].
  apply IH. destruct (existsb (mem (get_name a)) regions); [exact Hne|].
  destruct regions; discriminate.
Qed.

(** A player has no region-group exactly when the player owns no area. *)
Lemma get_players_regions_nil (board : Board) (player : Z) :
  get_players_regions board player = [] <-> get_player_areas board player = [].
Proof.
  unfold get_players_regions. split.
  - destruct (get_player_areas board player) as [|a rest]; [reflexivity|]. simpl.
    intros H. exfalso. revert H. apply regions_grow. discriminate.
  - intros ->. reflexivity.
Qed.

Lemma player_heuristic_outcome (board : Board) (player : Z) :
  (exists v, player_heuristic board player = Ret v /\ get_player_areas board player <> [])
  \/ (player_heuristic board player = Raise ValueError /\ get_player_areas board player = []).
Proof.
  destruct (get_player_areas board player) as [|a rest] eqn:Ha.
  - right. split; [|reflexivity]. apply player_heuristic_no_region. apply get_players_regions_nil. exact Ha.
  - left. destruct (player_heuristic_spec board player) as [largest [_ [_ H]]].
    + intros Hn. apply get_players_regions_nil in Hn. congruence.
    + eexists. split; [exact H | discriminate].
Qed.

Lemma players_heuristics_loop_outcome (players : list Z) (board : Board) (acc : gmap Z Z) :
  (exists h, players_heuristics_loop players board acc = Ret h
             /\ (forall p, In p players -> get_player_areas board p <> [])
             /\ dom h = list_to_set players ∪ dom acc)
  \/ (players_heuristics_loop players board acc = Raise ValueError
      /\ exists p, In p players /\ get_player_areas board p = []).
Proof.
  revert acc. induction players as [|q rest IH]; intros acc; simpl.
  - left. exists acc. split; [reflexivity|]. split; [intros p []|]. set_solver.
  - destruct (player_heuristic_outcome board q) as [[v [Hv Hq]] | [Hraise Hq]].
    + rewrite Hv. simpl. destruct (IH (<[q := v]> acc)) as [[h [Hrun [Hall Hdom]]] | [Hraise [p [Hp Hnone]]]].
      * left. exists h. split; [exact Hrun|]. split.
        -- intros p [<-|Hp]; [exact Hq | apply Hall; exact Hp].
        -- rewrite Hdom, dom_insert_L. set_solver.
      * right. split; [exact Hraise|]. exists p. split; [right; exact Hp | exact Hnone].
    + rewrite Hraise. simpl. right. split; [reflexivity|]. exists q. split; [left; reflexivity | exact Hq].
Qed.

(** X3: the evaluator returns exactly when every evaluated player owns an
    area, and its dictionary then has the evaluated players as keys and no
    other; when one of them owns no area, [max] of the empty list of region
    sizes ends the call in [ValueError]. *)
Theorem get_players_heuristics_outcome (players : list Z) (board : Board) :
  (exists h, get_players_heuristics players board = Ret h
             /\ (forall p, In p players -> get_player_areas board p <> [])
             /\ dom h = list_to_set players)
  \/ (get_players_heuristics players board = Raise ValueError
      /\ exists p, In p players /\ get_player_areas board p = []).
Proof.
  unfold get_players_heuristics.
  destruct (players_heuristics_loop_outcome players board ∅) as [[h [Hrun [Hall Hdom]]] | H].
  - left. exists h. split; [exact Hrun|]. split; [exact Hall|]. rewrite Hdom. set_solver.
  - right. exact H.
Qed.

(** ** The largest region *)

Lemma first_match (p : list Z -> bool) (l : list (list Z)) (x : list Z) :
  In x l -> p x = true ->
  exists l1 r l2,
    l = l1 ++ r :: l2 /\ p r = true /\ (forall y, In y l1 -> p y = false)
    /\ hd [] (List.filter p l) = r.
Proof.
  induction l as [|y rest IH]; intros Hin Hp; [destruct Hin|].
  destruct (p y) eqn:Ey.
  - exists [], y, rest. simpl. rewrite Ey.
    split; [reflexivity|]. split; [reflexivity|]. split; [intros z []|reflexivity].
  - destruct Hin as [->|Hin]; [congruence|].
    destruct (IH Hin Hp) as [l1 [r [l2 [-> [Hr [Hl1 Hhd]]]]]].
    exists (y :: l1), r, l2. simpl. rewrite Ey.
    split; [reflexivity|]. split; [exact Hr|]. split; [|exact Hhd].
    intros z [<-|Hz]; [exact Ey | apply Hl1; exact Hz].
Qed.

(** X4: for a player without regions the largest region does not exist and
    the call ends in [ValueError]; otherwise it returns the first region of
    the list that is as large as any other: every region before it is
    strictly smaller, none is larger. *)
Theorem get_largest_region_for_player_first_largest (player_name : Z) (board : Board) :
  (get_players_regions board player_name = []
   /\ get_largest_region_for_player player_name board = Raise ValueError)
  \/ (exists before largest after,
        get_players_regions board player_name = before ++ largest :: after
        /\ get_largest_region_for_player player_name board = Ret largest
        /\ (forall r, In r before -> region_size r < region_size largest)
        /\ (forall r, In r after -> region_size r <= region_size largest)).
Proof.
  unfold get_largest_region_for_player.
  generalize (get_players_regions board player_name). intros regions.
  destruct regions as [|r0 rs]; [left; split; reflexivity|]. right.
  destruct (py_max_spec (map region_size (r0 :: rs))) as [m [Hm [Hin Hub]]]; [discriminate|].
  unfold region_size in Hm at 1. rewrite Hm. cbn [mbind outcome_bind].
  apply in_map_iff in Hin. destruct Hin as [x [Hx Hin]].
  destruct (first_match (fun region => Z.of_nat (length region) =? m) (r0 :: rs) x Hin)
    as [l1 [r [l2 [Heq [Hr [Hl1 Hhd]]]]]].
  { apply Z.eqb_eq. exact Hx. }
  apply Z.eqb_eq in Hr.
  exists l1, r, l2. split; [exact Heq|]. split; [rewrite Hhd; reflexivity|].
  assert (Hall : forall y, In y (r0 :: rs) -> region_size y <= m)
    by (intros y Hy; apply Hub; apply in_map; exact Hy).
  unfold region_size in *. rewrite Hr. split.
  - intros y Hy. specialize (Hl1 y Hy). apply Z.eqb_neq in Hl1.
    assert (Z.of_nat (length y) <= m) by (apply Hall; rewrite Heq; apply in_or_app; left; exact Hy). lia.
  - intros y Hy. apply Hall. rewrite Heq. apply in_or_app. right. right. exact Hy.
Qed.

(** ** Candidate generation: what every candidate has passed *)

Lemma on_return_bind {A B : Type} (R : A -> Prop) (R' : B -> Prop) (m : outcome A) (k : A -> outcome B) :
  on_return R m -> (forall a, R a -> on_return R' (k a)) -> on_return R' (m ≫= k).
Proof. destruct m as [a| |]; simpl; intros Hm Hk; [apply Hk; exact Hm | exact I | exact I]. Qed.

Lemma on_return_impl {A : Type} (R R' : A -> Prop) (m : outcome A) :
  on_return R m -> (forall a, R a -> R' a) -> on_return R' m.
Proof. destruct m as [a| |]; simpl; intros Hm Hi; [apply Hi; exact Hm | exact I | exact I]. Qed.

Lemma good_on_return {A : Type} (R : A -> Prop) (m : outcome A) : good R m -> on_return R m.
Proof. destruct m; simpl; trivial. Qed.

Section CandidateFacts.

Variable probability_of_successful_attack : Board -> Z -> Z -> float.
Variable probability_of_holding_area : Board -> Z -> Z -> Z -> float.
Variable self : AI.

(** The board of the call and the name lists computed from it. *)
Variable b0 : Board.
Variable player_name : Z.
Variable pan border inner : list Z.
Hypothesis inner_owned : incl inner pan.
Hypothesis inner_not_border : forall x, In x inner -> ~ In x border.

Lemma visit_inner_entries (request : Z -> list Z -> GenState -> outcome (list Z * GenState)) (names : list Z) :
  (forall n ig st, In n names -> In n inner -> gen_board st = b0 ->
     on_return (fun r => appends (transfer_ok b0 pan border) st (snd r)) (request n ig st)) ->
  forall ig st, gen_board st = b0 ->
    on_return (fun r => appends (transfer_ok b0 pan border) st (snd r))
      (visit_inner request inner names ig st).
Proof.
  induction names as [|n rest IH]; intros Hreq ig st Hb; simpl; [apply appends_refl|].
  assert (IH' := IH (fun m ig' st' Hm => Hreq m ig' st' (or_intror Hm))).
  destruct (negb (mem n ig) && mem n inner) eqn:E; [|apply IH'; exact Hb].
  apply andb_true_iff in E. destruct E as [_ E]. apply mem_In in E.
  eapply on_return_bind; [apply (Hreq n ig st (or_introl eq_refl) E Hb)|].
  intros [ig1 st1] Ha1. simpl in *.
  eapply on_return_impl; [apply IH'; destruct Ha1 as [Hb1 _]; congruence|].
  intros [ig2 st2] Ha2. simpl in *. eapply appends_trans; eassumption.
Qed.

Lemma request_transfer_entries (original_target : Z) (fuel : nat) :
  forall source target ig st,
    gen_board st = b0 ->
    In source inner ->
    In target pan ->
    (exists a, In a b0 /\ get_name a = target /\ In source (get_adjacent_areas_names a)) ->
    on_return (fun r => appends (transfer_ok b0 pan border) st (snd r))
      (request_transfer_from_area probability_of_successful_attack probability_of_holding_area self
         fuel source target original_target inner border player_name ig st).
Proof.
  induction fuel as [|fuel IH]; intros source target ig st Hb Hsrc Htgt Hadj; [exact I|].
  simpl.
  eapply on_return_bind; [apply good_on_return, good_get_area|]. intros source_area Hsa.
  eapply on_return_bind; [apply good_on_return, good_get_area|]. intros _ _.
  eapply on_return_bind; [apply good_on_return, good_get_area|]. intros original_target_area _.
  rewrite Hb in Hsa. destruct (find_area_name _ _ _ Hsa) as [Hname Hin].
  eapply on_return_bind.
  - apply visit_inner_entries; [|exact Hb].
    intros n ig' st' Hn Hninner Hb'. apply IH; [exact Hb' | exact Hninner | apply inner_owned; exact Hsrc|].
    exists source_area. split; [exact Hin|]. split; [exact Hname | exact Hn].
  - intros [ig1 st1] Ha1. simpl in *. destruct Ha1 as [Hb1 Hext1].
    eapply on_return_bind; [apply good_on_return, good_chain_probabilities|].
    intros [ps b] Hpb. simpl in Hpb. subst b.
    eapply on_return_bind; [apply good_on_return, good_py_max_float|]. intros p _.
    destruct ((gen_transfer_count st1 <? self_max_transfers self)
              && PrimFloat.ltb TRANSFER_PROBABILITY_THRESHOLD p
              && (dice_of (gen_board st1) target <? MAX_DICE)
              && (1 <? dice_of (gen_board st1) source)) eqn:Ec; simpl.
    + apply andb_true_iff in Ec. destruct Ec as [Ec Hd2].
      apply andb_true_iff in Ec. destruct Ec as [Ec Hd1].
      apply andb_true_iff in Ec. destruct Ec as [_ Hp].
      rewrite Hb1, Hb in Hd1, Hd2. apply Z.ltb_lt in Hd1, Hd2.
      eapply appends_trans; [split; [exact Hb1 | exact Hext1]|].
      split; [reflexivity|]. simpl. eexists. split; [reflexivity|].
      constructor; [|constructor].
      split; [reflexivity|]. split; [apply inner_owned; exact Hsrc|].
      split; [apply inner_not_border; exact Hsrc|]. split; [exact Htgt|].
      split; [exact Hadj|]. split; [exact Hd2|]. split; [exact Hd1 | exact Hp].
    + split; [simpl; congruence|]. simpl. exact Hext1.
Qed.

Lemma chain_requests_entries (area_name : Z) (names : list Z) :
  In area_name pan ->
  (forall n, In n names ->
     exists a, In a b0 /\ get_name a = area_name /\ In n (get_adjacent_areas_names a)) ->
  forall st, gen_board st = b0 ->
    on_return (appends (transfer_ok b0 pan border) st)
      (chain_requests probability_of_successful_attack probability_of_holding_area self
         area_name inner border player_name names st).
Proof.
  intros Harea. induction names as [|n rest IH]; intros Hadj st Hb; simpl; [apply appends_refl|].
  assert (IH' := IH (fun m Hm => Hadj m (or_intror Hm))).
  destruct (mem n inner) eqn:E; [|apply IH'; exact Hb].
  apply mem_In in E.
  eapply on_return_bind.
  - apply (request_transfer_entries area_name (S (length inner)) n area_name [] st Hb E Harea).
    apply Hadj. left. reflexivity.
  - intros [ig st1] Ha1. simpl in *.
    eapply on_return_impl; [apply IH'; destruct Ha1 as [Hb1 _]; congruence|].
    intros st2 Ha2. eapply appends_trans; eassumption.
Qed.

Lemma border_transfers_entries (area_name : Z) (names : list Z) :
  In area_name pan ->
  dice_of b0 area_name < MAX_DICE ->
  (forall n, In n names ->
     exists a, In a b0 /\ get_name a = area_name /\ In n (get_adjacent_areas_names a)) ->
  forall st, gen_board st = b0 ->
    on_return (appends (transfer_ok b0 pan border) st)
      (border_transfers probability_of_successful_attack probability_of_holding_area
         area_name pan border player_name names st).
Proof.
  intros Harea Hdice. induction names as [|n rest IH]; intros Hadj st Hb; simpl; [apply appends_refl|].
  assert (IH' := IH (fun m Hm => Hadj m (or_intror Hm))).
  destruct (mem n pan) eqn:E; simpl; [|apply IH'; exact Hb].
  apply mem_In in E.
  eapply on_return_bind; [apply good_on_return, good_get_area|]. intros _ _.
  eapply on_return_bind; [apply good_on_return, good_get_transfer_probability|].
  intros [p b] Hpb. simpl in Hpb. subst b.
  destruct ((1 <? dice_of (gen_board st) n)
            && PrimFloat.ltb TRANSFER_PROBABILITY_THRESHOLD p
            && negb (mem n border)) eqn:Ec.
  - apply andb_true_iff in Ec. destruct Ec as [Ec Hnb].
    apply andb_true_iff in Ec. destruct Ec as [Hd Hp].
    rewrite Hb in Hd. apply Z.ltb_lt in Hd. apply negb_true_iff, mem_false in Hnb.
    eapply on_return_impl; [apply IH'; simpl; exact Hb|].
    intros st2 Ha2. eapply appends_trans; [|exact Ha2].
    split; [reflexivity|]. simpl. eexists. split; [reflexivity|].
    constructor; [|constructor].
    split; [reflexivity|]. split; [exact E|]. split; [exact Hnb|]. split; [exact Harea|].
    split; [apply Hadj; left; reflexivity|]. split; [exact Hd|]. split; [exact Hdice | exact Hp].
  - eapply on_return_impl; [apply IH'; simpl; exact Hb|].
    intros st2 Ha2. eapply appends_trans; [|exact Ha2].
    split; [reflexivity|]. simpl. exists []. rewrite app_nil_r. split; [reflexivity | constructor].
Qed.

Lemma transfer_loop_entries (border_neighbor : list Z) (areas : list Area) :
  (forall area, In area areas -> In area b0 /\ In (get_name area) pan) ->
  forall st, gen_board st = b0 ->
    on_return (appends (transfer_ok b0 pan border) st)
      (transfer_loop probability_of_successful_attack probability_of_holding_area self
         pan border border_neighbor inner player_name areas st).
Proof.
  induction areas as [|area rest IH]; intros Hareas st Hb; simpl; [apply appends_refl|].
  assert (IH' := IH (fun a Ha => Hareas a (or_intror Ha))).
  destruct (Hareas area (or_introl eq_refl)) as [Hin Hpan].
  assert (Hadj : forall n, In n (get_adjacent_areas_names area) ->
                   exists a, In a b0 /\ get_name a = get_name area /\ In n (get_adjacent_areas_names a))
    by (intros n Hn; exists area; repeat split; assumption).
  destruct (gen_transfer_count st =? self_max_transfers self); [apply appends_refl|].
  destruct (mem (get_name area) border_neighbor).
  - eapply on_return_bind; [apply chain_requests_entries; assumption|]. intros st1 Ha1.
    eapply on_return_impl; [apply IH'; destruct Ha1 as [Hb1 _]; congruence|].
    intros st2 Ha2. eapply appends_trans; eassumption.
  - destruct (mem (get_name area) border && (dice_of (gen_board st) (get_name area) <? MAX_DICE)) eqn:Ec;
      [|apply IH'; exact Hb].
    apply andb_true_iff in Ec. destruct Ec as [_ Hd]. rewrite Hb in Hd. apply Z.ltb_lt in Hd.
    eapply on_return_bind; [apply border_transfers_entries; assumption|]. intros st1 Ha1.
    eapply on_return_impl; [apply IH'; destruct Ha1 as [Hb1 _]; congruence|].
    intros st2 Ha2. eapply appends_trans; eassumption.
Qed.

End CandidateFacts.

Section ReturnedCandidates.

Variable probability_of_successful_attack : Board -> Z -> Z -> float.
Variable probability_of_holding_area : Board -> Z -> Z -> Z -> float.
Variable self : AI.

Lemma get_possible_turns_entries (player_name : Z) (board : Board) :
  on_return
    (fun r =>
       exists largest extras,
         get_largest_region_for_player player_name board = Ret largest
         /\ Forall (transfer_ok board (map get_name (get_player_areas board player_name))
                      (map get_name (get_player_border board player_name))) extras
         /\ fst r
            = map fst
                (sorted_desc
                   (flat_map
                      (attack_turn probability_of_successful_attack probability_of_holding_area
                         board player_name (fst (attack_parameters board)) (snd (attack_parameters board))
                         largest)
                      (possible_attacks board player_name)
                    ++ extras)))
    (get_possible_turns probability_of_successful_attack probability_of_holding_area self player_name board).
Proof.
  unfold get_possible_turns. destruct (attack_parameters board) as [thr w]. simpl.
  destruct (get_largest_region_for_player player_name board) as [largest| |]; simpl; trivial.
  eapply on_return_bind.
  - apply (transfer_loop_entries probability_of_successful_attack probability_of_holding_area self
             board player_name).
    + intros x Hx. apply in_map_iff in Hx. destruct Hx as [a [<- Ha]].
      apply filter_In in Ha. apply in_map. apply Ha.
    + intros x Hx. apply in_map_iff in Hx. destruct Hx as [a [<- Ha]].
      apply filter_In in Ha. destruct Ha as [_ Ha]. apply andb_true_iff in Ha.
      destruct Ha as [Ha _]. apply negb_true_iff in Ha. apply mem_false. exact Ha.
    + intros area Harea. split; [apply get_player_areas_In in Harea; apply Harea | apply in_map; exact Harea].
    + reflexivity.
  - intros st [_ [extras [Ht Hq]]]. simpl in *.
    exists largest, extras. split; [reflexivity|]. split; [exact Hq|]. rewrite Ht. reflexivity.
Qed.

(** X5: candidate generation probes the board by writing merged dice
    counts into it, and hands it back exactly as it got it. *)
Theorem get_possible_turns_restores_board (player_name : Z) (board : Board) :
  get_possible_turns probability_of_successful_attack probability_of_holding_area self player_name board
    <> OutOfFuel
  /\ forall turns board',
       get_possible_turns probability_of_successful_attack probability_of_holding_area self player_name board
         = Ret (turns, board') ->
       board' = board.
Proof.
  pose proof (get_possible_turns_good probability_of_successful_attack probability_of_holding_area
                self player_name board) as Hgood. split.
  - intros E. rewrite E in Hgood. exact Hgood.
  - intros turns board' E. rewrite E in Hgood. simpl in Hgood. apply Hgood.
Qed.

(** X6: every transfer candidate returned has passed the generator's
    checks on the board of the call: its source names an area of the player
    that is not a border area and holds more than one die, its target names
    an area of the player that holds fewer than eight dice, and the source
    stands in the adjacency list of the target. *)
Theorem get_possible_turns_transfers_checked (player_name : Z) (board : Board) :
  get_possible_turns probability_of_successful_attack probability_of_holding_area self player_name board
    <> OutOfFuel
  /\ forall turns board',
       get_possible_turns probability_of_successful_attack probability_of_holding_area self player_name board
         = Ret (turns, board') ->
       forall source target,
         In (source, target, TRANSFER_COMMAND) turns ->
         In source (map get_name (get_player_areas board player_name))
         /\ ~ In source (map get_name (get_player_border board player_name))
         /\ In target (map get_name (get_player_areas board player_name))
         /\ (exists a, In a board /\ get_name a = target /\ In source (get_adjacent_areas_names a))
         /\ 1 < dice_of board source
         /\ dice_of board target < MAX_DICE.
Proof.
  split.
  - pose proof (get_possible_turns_good probability_of_successful_attack probability_of_holding_area
                  self player_name board) as Hgood.
    intros E. rewrite E in Hgood. exact Hgood.
  - intros turns board' E source target Hin.
    pose proof (get_possible_turns_entries player_name board) as H. rewrite E in H. simpl in H.
    destruct H as [largest [extras [_ [Hq Hturns]]]]. subst turns.
    apply in_map_iff in Hin. destruct Hin as [e [He Hin]].
    apply (Permutation_in _ (sorted_desc_perm _)) in Hin.
    apply in_app_or in Hin. destruct Hin as [Hin|Hin].
    + apply in_flat_map in Hin. destruct Hin as [pair [_ Hin]].
      apply attack_turn_In in Hin. destruct Hin as [_ [_ Hk]].
      unfold entry_kind in Hk. rewrite He in Hk. discriminate.
    + rewrite List.Forall_forall in Hq.
      destruct (Hq e Hin) as [_ [H1 [H2 [H3 [H4 [H5 [H6 _]]]]]]].
      unfold entry_source, entry_target in *. rewrite He in *. simpl in *.
      repeat split; assumption.
Qed.

(** X7: the attack candidates returned are exactly the pairs of
    [possible_attacks] whose combined probability reaches the threshold in
    force or whose target holds [MAX_DICE] dice. *)
Theorem get_possible_turns_attacks (player_name : Z) (board : Board) :
  get_possible_turns probability_of_successful_attack probability_of_holding_area self player_name board
    <> OutOfFuel
  /\ forall turns board',
       get_possible_turns probability_of_successful_attack probability_of_holding_area self player_name board
         = Ret (turns, board') ->
       forall s t,
         In (s, t, BATTLE_COMMAND) turns
         <-> exists source target,
               In (source, target) (possible_attacks board player_name)
               /\ get_name source = s /\ get_name target = t
               /\ (PrimFloat.leb (fst (attack_parameters board))
                     (PrimFloat.mul
                        (probability_of_successful_attack board s t)
                        (probability_of_holding_area board t (get_dice target) player_name)) = true
                   \/ get_dice target = MAX_DICE).
Proof.
  split.
  - pose proof (get_possible_turns_good probability_of_successful_attack probability_of_holding_area
                  self player_name board) as Hgood.
    intros E. rewrite E in Hgood. exact Hgood.
  - intros turns board' E s t.
    pose proof (get_possible_turns_entries player_name board) as H. rewrite E in H. simpl in H.
    destruct H as [largest [extras [_ [Hq Hturns]]]]. subst turns. split.
    + intros Hin. apply in_map_iff in Hin. destruct Hin as [e [He Hin]].
      apply (Permutation_in _ (sorted_desc_perm _)) in Hin.
      apply in_app_or in Hin. destruct Hin as [Hin|Hin].
      * apply in_flat_map in Hin. destruct Hin as [[source target] [Hpair Hin]].
        assert (Hkept : attack_turn probability_of_successful_attack probability_of_holding_area
                          board player_name (fst (attack_parameters board)) (snd (attack_parameters board))
                          largest (source, target) <> [])
          by (intros Hnil; rewrite Hnil in Hin; destruct Hin).
        apply attack_turn_kept in Hkept.
        apply attack_turn_In in Hin. destruct Hin as [Hs [Ht _]].
        unfold entry_source, entry_target in *. rewrite He in *. simpl in *. subst s t.
        exists source, target. repeat split; assumption.
      * rewrite List.Forall_forall in Hq. destruct (Hq e Hin) as [Hk _].
        unfold entry_kind in Hk. rewrite He in Hk. discriminate.
    + intros [source [target [Hpair [<- [<- Hcond]]]]].
      apply (attack_turn_kept probability_of_successful_attack probability_of_holding_area
               board player_name (fst (attack_parameters board)) (snd (attack_parameters board))
               largest source target) in Hcond.
      destruct (attack_turn probability_of_successful_attack probability_of_holding_area
                  board player_name (fst (attack_parameters board)) (snd (attack_parameters board))
                  largest (source, target)) as [|e rest] eqn:Eat; [congruence|].
      assert (Hin : In e (attack_turn probability_of_successful_attack probability_of_holding_area
                            board player_name (fst (attack_parameters board)) (snd (attack_parameters board))
                            largest (source, target))) by (rewrite Eat; left; reflexivity).
      pose proof (attack_turn_In _ _ _ _ _ _ _ _ _ Hin) as [Hs [Ht Hk]].
      apply in_map_iff. exists e. split.
      * destruct e as [[[es et] ek] ep]. unfold entry_source, entry_target, entry_kind in *.
        simpl in *. congruence.
      * apply (Permutation_in _ (Permutation_sym (sorted_desc_perm _))).
        apply in_or_app. left. apply in_flat_map. exists (source, target). split; [exact Hpair | exact Hin].
Qed.

Lemma transfer_loop_at_cap (pan border border_neighbor inner : list Z) (player_name : Z)
    (areas : list Area) (st : GenState) :
  gen_transfer_count st = self_max_transfers self ->
  transfer_loop probability_of_successful_attack probability_of_holding_area self
    pan border border_neighbor inner player_name areas st = Ret st.
Proof.
  intros H. destruct areas as [|area rest]; simpl; [reflexivity|].
  rewrite H, Z.eqb_refl. reflexivity.
Qed.

(** X8: when the transfer count the generator starts from (the transfers
    already made this turn for the acting player, zero for any other)
    equals the cap, the loop over the player's areas stops at once and only
    attack candidates are returned. *)
Theorem get_possible_turns_at_cap (player_name : Z) (board : Board) :
  (if player_name =? self_player_name self then self_transfer_count_this_turn self else 0)
    = self_max_transfers self ->
  get_possible_turns probability_of_successful_attack probability_of_holding_area self player_name board
    <> OutOfFuel
  /\ forall turns board',
       get_possible_turns probability_of_successful_attack probability_of_holding_area self player_name board
         = Ret (turns, board') ->
       forall source target command_type,
         In (source, target, command_type) turns -> command_type = BATTLE_COMMAND.
Proof.
  intros Hcap. split.
  - pose proof (get_possible_turns_good probability_of_successful_attack probability_of_holding_area
                  self player_name board) as Hgood.
    intros E. rewrite E in Hgood. exact Hgood.
  - intros turns board'.
    unfold get_possible_turns. destruct (attack_parameters board) as [thr w]. simpl.
    destruct (get_largest_region_for_player player_name board) as [largest| |]; simpl; try discriminate.
    rewrite transfer_loop_at_cap by exact Hcap. simpl.
    intros [= <- _] source target command_type Hin.
    apply in_map_iff in Hin. destruct Hin as [e [He Hin]].
    apply (Permutation_in _ (sorted_desc_perm _)) in Hin.
    apply in_flat_map in Hin. destruct Hin as [pair [_ Hin]].
    apply attack_turn_In in Hin. destruct Hin as [_ [_ Hk]].
    unfold entry_kind in Hk. rewrite He in Hk. exact Hk.
Qed.

End ReturnedCandidates.

Lemma get_possible_turns_at_cap_witness :
  get_possible_turns dice_attack_oracle dice_hold_oracle (mkAI 1 6 6) 1 chain_board <> OutOfFuel
  /\ forall turns board',
       get_possible_turns dice_attack_oracle dice_hold_oracle (mkAI 1 6 6) 1 chain_board
         = Ret (turns, board') ->
       forall source target command_type,
         In (source, target, command_type) turns -> command_type = BATTLE_COMMAND.
Proof.
  apply (get_possible_turns_at_cap dice_attack_oracle dice_hold_oracle (mkAI 1 6 6) 1 chain_board).
  reflexivity.
Defined.

(** ** Candidate generation: when it returns *)

Lemma returns_bind {A B : Type} (R : A -> Prop) (R' : B -> Prop) (m : outcome A) (k : A -> outcome B) :
  returns R m -> (forall a, R a -> returns R' (k a)) -> returns R' (m ≫= k).
Proof. destruct m as [a| |]; simpl; intros Hm Hk; [apply Hk; exact Hm | destruct Hm | destruct Hm]. Qed.

Lemma returns_impl {A : Type} (R R' : A -> Prop) (m : outcome A) :
  returns R m -> (forall a, R a -> R' a) -> returns R' m.
Proof. destruct m as [a| |]; simpl; intros Hm Hi; [apply Hi; exact Hm | destruct Hm | destruct Hm]. Qed.

Lemma returns_get_area (board : Board) (idx : Z) :
  is_Some (find_area board idx) -> returns (fun a => find_area board idx = Some a) (get_area board idx).
Proof. intros [a Ha]. unfold get_area. rewrite Ha. reflexivity. Qed.

Lemma find_area_of_name (board : Board) (x : Z) :
  In x (area_names board) -> is_Some (find_area board x).
Proof.
  unfold area_names, find_area. induction board as [|a rest IH]; simpl; intros H; [destruct H|].
  destruct (get_name a =? x) eqn:E; [eexists; reflexivity|].
  destruct H as [H|H]; [apply Z.eqb_neq in E; contradiction | apply IH; exact H].
Qed.

Section GenerationReturns.

Variable probability_of_successful_attack : Board -> Z -> Z -> float.
Variable probability_of_holding_area : Board -> Z -> Z -> Z -> float.
Variable self : AI.

Variable b0 : Board.
Variable player_name : Z.
Variable pan border inner : list Z.
Hypothesis pan_on_board : forall x, In x pan -> is_Some (find_area b0 x).
Hypothesis border_on_board : forall x, In x border -> is_Some (find_area b0 x).
Hypothesis inner_owned : incl inner pan.
Hypothesis b0_closed : adjacency_closed b0.

Lemma get_transfer_probability_returns (source target : Z) :
  is_Some (find_area b0 source) -> is_Some (find_area b0 target) ->
  returns (fun r => snd r = b0)
    (get_transfer_probability probability_of_successful_attack probability_of_holding_area
       b0 source target player_name).
Proof.
  intros [s Hs] [t Ht]. unfold get_transfer_probability, get_area. rewrite Hs, Ht. simpl.
  rewrite enemy_names_spec.
  - simpl. apply set_dice_restore. exact Ht.
  - intros n Hn. apply (b0_closed t n); [apply (find_area_name _ _ _ Ht) | exact Hn].
Qed.

Lemma chain_probabilities_returns (source : Z) (names : list Z) :
  is_Some (find_area b0 source) ->
  returns (fun r => snd r = b0 /\ (fst r = [] -> forall n, In n names -> mem n border = false))
    (chain_probabilities probability_of_successful_attack probability_of_holding_area
       b0 source player_name border names).
Proof.
  intros Hs. induction names as [|n rest IH]; simpl.
  - split; [reflexivity | intros _ n []].
  - destruct (mem n border) eqn:E.
    + eapply returns_bind.
      * apply get_transfer_probability_returns; [exact Hs|]. apply border_on_board. apply mem_In. exact E.
      * intros [p b] Hb. simpl in Hb. subst b.
        eapply returns_bind; [exact IH|]. intros [ps b] [Hb _]. simpl in *.
        split; [exact Hb | discriminate].
    + eapply returns_impl; [exact IH|]. intros [ps b] [Hb Hnil]. simpl in *.
      split; [exact Hb|]. intros Hps m [<-|Hm]; [exact E | apply Hnil; assumption].
Qed.

Lemma visit_inner_returns (request : Z -> list Z -> GenState -> outcome (list Z * GenState)) (bound : nat) :
  (forall n ig st, In n inner -> ~ In n ig -> (remaining_inner inner ig <= bound)%nat -> gen_board st = b0 ->
     returns (fun r => incl ig (fst r) /\ gen_board (snd r) = b0) (request n ig st)) ->
  forall names ig st, (remaining_inner inner ig <= bound)%nat -> gen_board st = b0 ->
    returns (fun r => incl ig (fst r) /\ gen_board (snd r) = b0) (visit_inner request inner names ig st).
Proof.
  intros Hreq. induction names as [|n rest IH]; intros ig st Hbound Hb; simpl.
  - split; [apply incl_refl | exact Hb].
  - destruct (negb (mem n ig) && mem n inner) eqn:E; [|apply IH; assumption].
    apply andb_true_iff in E. destruct E as [E1 E2].
    apply negb_true_iff, mem_false in E1. apply mem_In in E2.
    eapply returns_bind; [apply (Hreq n ig st E2 E1 Hbound Hb)|].
    intros [ig1 st1] [Hi1 Hb1]. simpl in *.
    eapply returns_impl; [apply IH; [|exact Hb1]|].
    + pose proof (remaining_inner_mono inner ig ig1 Hi1). lia.
    + intros [ig2 st2] [Hi2 Hb2]. simpl in *. split; [eapply incl_tran; eassumption | exact Hb2].
Qed.

Lemma request_transfer_returns (original_target : Z) (original_target_area : Area) (fuel : nat) :
  find_area b0 original_target = Some original_target_area ->
  (exists n, In n (get_adjacent_areas_names original_target_area) /\ mem n border = true) ->
  forall source target ig st,
    gen_board st = b0 ->
    In source inner -> ~ In source ig -> (remaining_inner inner ig <= fuel)%nat ->
    is_Some (find_area b0 target) ->
    returns (fun r => incl ig (fst r) /\ gen_board (snd r) = b0)
      (request_transfer_from_area probability_of_successful_attack probability_of_holding_area self
         fuel source target original_target inner border player_name ig st).
Proof.
  intros Horig [nb [Hnb Hnb']].
  induction fuel as [|fuel IH]; intros source target ig st Hb Hin Hig Hfuel Htgt.
  - pose proof (remaining_inner_visit inner ig source Hin Hig). lia.
  - assert (Hsrc : is_Some (find_area b0 source)) by (apply pan_on_board, inner_owned; exact Hin).
    simpl. rewrite Hb.
    eapply returns_bind; [apply returns_get_area; exact Hsrc|]. intros source_area Hsa.
    eapply returns_bind; [apply returns_get_area; exact Htgt|]. intros _ _.
    eapply returns_bind; [apply returns_get_area; eexists; exact Horig|]. intros oa Hoa.
    rewrite Horig in Hoa. injection Hoa as <-.
    eapply returns_bind.
    + apply (visit_inner_returns _ fuel).
      * intros n ig' st' Hn Hig' Hbound Hb'. apply IH; try assumption.
      * pose proof (remaining_inner_visit inner ig source Hin Hig). lia.
      * exact Hb.
    + intros [ig1 st1] [Hi1 Hb1]. simpl in *. rewrite Hb1.
      eapply returns_bind; [apply chain_probabilities_returns; exact Hsrc|].
      intros [ps b] [Hpb Hnil]. simpl in *. subst b.
      destruct ps as [|p0 ps]; [rewrite (Hnil eq_refl nb Hnb) in Hnb'; discriminate|].
      simpl.
      assert (Hincl : incl ig ig1) by (intros x Hx; apply Hi1; apply in_or_app; left; exact Hx).
      match goal with |- returns _ (if ?c then _ else _) => destruct c end; simpl;
        (split; [exact Hincl | reflexivity]).
Qed.

Lemma chain_requests_returns (area_name : Z) (area : Area) (names : list Z) :
  find_area b0 area_name = Some area ->
  (exists n, In n (get_adjacent_areas_names area) /\ mem n border = true) ->
  forall st, gen_board st = b0 ->
    returns (fun st' => gen_board st' = b0)
      (chain_requests probability_of_successful_attack probability_of_holding_area self
         area_name inner border player_name names st).
Proof.
  intros Harea Hnb. induction names as [|n rest IH]; intros st Hb; simpl; [exact Hb|].
  destruct (mem n inner) eqn:E; [|apply IH; exact Hb].
  apply mem_In in E.
  eapply returns_bind.
  - apply (request_transfer_returns area_name area (S (length inner)) Harea Hnb n area_name [] st Hb E).
    + intros [].
    + unfold remaining_inner. pose proof (List.filter_length_le (fun x => negb (mem x [])) inner). lia.
    + eexists. exact Harea.
  - intros [ig st1] [_ Hb1]. simpl in *. apply IH. exact Hb1.
Qed.

Lemma border_transfers_returns (area_name : Z) (names : list Z) :
  is_Some (find_area b0 area_name) ->
  forall st, gen_board st = b0 ->
    returns (fun st' => gen_board st' = b0)
      (border_transfers probability_of_successful_attack probability_of_holding_area
         area_name pan border player_name names st).
Proof.
  intros Harea. induction names as [|n rest IH]; intros st Hb; simpl; [exact Hb|].
  destruct (mem n pan) eqn:E; simpl; [|apply IH; exact Hb].
  apply mem_In in E. rewrite Hb.
  eapply returns_bind; [apply returns_get_area; apply pan_on_board; exact E|]. intros _ _.
  eapply returns_bind.
  - apply get_transfer_probability_returns; [apply pan_on_board; exact E | exact Harea].
  - intros [p b] Hpb. simpl in Hpb. subst b.
    apply IH. match goal with |- gen_board (if ?c then _ else _) = _ => destruct c end; reflexivity.
Qed.

Lemma transfer_loop_returns (border_neighbor : list Z) (areas : list Area) :
  (forall area, In area areas ->
     find_area b0 (get_name area) = Some area
     /\ (mem (get_name area) border_neighbor = true ->
         exists n, In n (get_adjacent_areas_names area) /\ mem n border = true)) ->
  forall st, gen_board st = b0 ->
    returns (fun st' => gen_board st' = b0)
      (transfer_loop probability_of_successful_attack probability_of_holding_area self
         pan border border_neighbor inner player_name areas st).
Proof.
  induction areas as [|area rest IH]; intros Hareas st Hb; simpl; [exact Hb|].
  assert (IH' := IH (fun a Ha => Hareas a (or_intror Ha))).
  destruct (Hareas area (or_introl eq_refl)) as [Hfind Hbn].
  destruct (gen_transfer_count st =? self_max_transfers self); [exact Hb|].
  destruct (mem (get_name area) border_neighbor) eqn:E.
  - eapply returns_bind; [apply (chain_requests_returns (get_name area) area); auto|].
    intros st1 Hb1. apply IH'. exact Hb1.
  - destruct (mem (get_name area) border && (dice_of (gen_board st) (get_name area) <? MAX_DICE));
      [|apply IH'; exact Hb].
    eapply returns_bind; [apply border_transfers_returns; [eexists; exact Hfind | exact Hb]|].
    intros st1 Hb1. apply IH'. exact Hb1.
Qed.

End GenerationReturns.

Lemma names_of_filter_on_board (p : Area -> bool) (board : Board) (x : Z) :
  In x (map get_name (List.filter p board)) -> is_Some (find_area board x).
Proof.
  intros H. apply find_area_of_name. unfold area_names.
  apply in_map_iff in H. destruct H as [a [<- Ha]]. apply in_map. apply filter_In in Ha. apply Ha.
Qed.

Lemma generation_returns (probability_of_successful_attack : Board -> Z -> Z -> float)
    (probability_of_holding_area : Board -> Z -> Z -> Z -> float) (self : AI)
    (player_name : Z) (board : Board) :
  board_wf board ->
  adjacency_closed board ->
  (get_player_areas board player_name <> [] ->
   exists turns,
     get_possible_turns probability_of_successful_attack probability_of_holding_area self player_name board
     = Ret (turns, board))
  /\ (get_player_areas board player_name = [] ->
      get_possible_turns probability_of_successful_attack probability_of_holding_area self player_name board
      = Raise ValueError).
Proof.
  intros Hwf Hclosed. split.
  - intros Hareas. unfold get_possible_turns. destruct (attack_parameters board) as [thr w].
    assert (Hregions : get_players_regions board player_name <> [])
      by (intros Hn; apply get_players_regions_nil in Hn; contradiction).
    unfold get_largest_region_for_player.
    destruct (py_max_spec (map (fun region => Z.of_nat (length region))
                             (get_players_regions board player_name))) as [m [Hm _]].
    { destruct (get_players_regions board player_name); [congruence | discriminate]. }
    rewrite Hm. cbn [mbind outcome_bind].
    match goal with
    | |- exists turns, (transfer_loop _ _ _ ?pan ?border ?bn ?inner _ ?areas ?st ≫= _) = _ =>
        pose proof (transfer_loop_returns probability_of_successful_attack probability_of_holding_area
                      self board player_name pan border inner) as Hloop;
        specialize (Hloop (names_of_filter_on_board _ board));
        assert (Hb : forall x, In x border -> is_Some (find_area board x))
    end.
    { intros x Hx. apply in_map_iff in Hx. destruct Hx as [a [<- Ha]].
      unfold get_player_border in Ha. apply filter_In in Ha. destruct Ha as [Ha _].
      apply get_player_areas_In in Ha. destruct Ha as [Ha _].
      rewrite (find_area_wf board a Hwf Ha). eexists. reflexivity. }
    specialize (Hloop Hb).
    match type of Hloop with
    | incl ?inner ?pan -> _ =>
        assert (Hinner : incl inner pan)
    end.
    { intros x Hx. apply in_map_iff in Hx. destruct Hx as [a [<- Ha]].
      apply filter_In in Ha. apply in_map. apply Ha. }
    specialize (Hloop Hinner Hclosed).
    match goal with
    | |- exists turns, (transfer_loop _ _ _ _ _ ?bn _ _ ?areas ?st ≫= _) = _ =>
        specialize (Hloop bn areas)
    end.
    match type of Hloop with
    | ?P -> _ => assert (Hareas' : P)
    end.
    { intros area Harea. pose proof Harea as Hin. apply get_player_areas_In in Hin. destruct Hin as [Hin _].
      split; [apply find_area_wf; assumption|].
      intros Hmem. apply mem_In in Hmem. apply in_map_iff in Hmem. destruct Hmem as [a' [Hname Ha']].
      apply filter_In in Ha'. destruct Ha' as [Ha' Hp].
      apply get_player_areas_In in Ha'. destruct Ha' as [Ha' _].
      assert (a' = area).
      { pose proof (find_area_wf board a' Hwf Ha') as H1.
        pose proof (find_area_wf board area Hwf Hin) as H2. rewrite Hname in H1. congruence. }
      subst a'. apply andb_true_iff in Hp. destruct Hp as [_ Hp].
      apply existsb_exists in Hp. exact Hp. }
    specialize (Hloop Hareas').
    match goal with
    | |- exists turns, (transfer_loop _ _ _ _ _ _ _ _ _ ?st ≫= _) = _ =>
        specialize (Hloop st eq_refl)
    end.
    destruct (transfer_loop _ _ _ _ _ _ _ _ _ _) as [st'| |]; simpl in Hloop; try contradiction.
    simpl. rewrite Hloop. eexists. reflexivity.
  - intros Hareas. unfold get_possible_turns. destruct (attack_parameters board) as [thr w].
    unfold get_largest_region_for_player, get_players_regions. rewrite Hareas. reflexivity.
Qed.

(** X9: on a board whose area names are pairwise distinct and whose
    adjacency lists name only areas of the board, candidate generation
    returns, with the board unchanged, for every player who owns an area;
    for a player who owns none it ends in [ValueError], the largest region
    of no region. *)
Theorem get_possible_turns_returns (probability_of_successful_attack : Board -> Z -> Z -> float)
    (probability_of_holding_area : Board -> Z -> Z -> Z -> float) (self : AI)
    (player_name : Z) (board : Board) :
  board_wf board ->
  adjacency_closed board ->
  (get_player_areas board player_name <> [] ->
   exists turns,
     get_possible_turns probability_of_successful_attack probability_of_holding_area self player_name board
     = Ret (turns, board))
  /\ (get_player_areas board player_name = [] ->
      get_possible_turns probability_of_successful_attack probability_of_holding_area self player_name board
      = Raise ValueError).
Proof. apply generation_returns. Qed.

Lemma get_possible_turns_returns_witness :
  (get_player_areas chain_board 1 <> [] ->
   exists turns,
     get_possible_turns dice_attack_oracle dice_hold_oracle example_ai 1 chain_board
     = Ret (turns, chain_board))
  /\ (get_player_areas chain_board 1 = [] ->
      get_possible_turns dice_attack_oracle dice_hold_oracle example_ai 1 chain_board
      = Raise ValueError).
Proof.
  apply (get_possible_turns_returns dice_attack_oracle dice_hold_oracle example_ai 1 chain_board).
  - unfold board_wf, area_names. simpl.
    repeat (apply List.NoDup_cons; [simpl; intuition discriminate|]). apply List.NoDup_nil.
  - intros a n Ha Hn. simpl in Ha.
    repeat (destruct Ha as [<-|Ha];
            [simpl in Hn; repeat (destruct Hn as [<-|Hn]; [vm_compute; eexists; reflexivity|]); destruct Hn|]).
    destruct Ha.
Defined.

(** ** Max^n search: the shared rotation *)

Section SharedRotation.

Variable probability_of_successful_attack : Board -> Z -> Z -> float.
Variable probability_of_holding_area : Board -> Z -> Z -> Z -> float.
Variable self : AI.

Lemma explore_consumes (search : Board -> list Z -> outcome SearchResult) (board : Board) (player : Z) :
  (forall b ps, on_return (fun r => snd r = []) (search b ps)) ->
  forall turns best ps,
    turns <> [] \/ ps = [] ->
    on_return (fun r => snd r = []) (explore search board player turns best ps).
Proof.
  intros Hs. induction turns as [|[[source target] command_type] rest IH]; intros best ps Hor; simpl.
  - destruct Hor as [Hne|Hps]; [congruence | exact Hps].
  - eapply on_return_bind; [apply good_on_return, good_simulate_command|]. intros board_copy _.
    eapply on_return_bind; [apply (Hs board_copy ps)|]. intros [[t h] ps1] Hps1. simpl in *.
    apply IH. right. exact Hps1.
Qed.

Lemma max_n_consumes (fuel : nat) :
  forall board players_names depth,
    on_return (fun r => snd r = [])
      (max_n probability_of_successful_attack probability_of_holding_area self fuel board players_names depth).
Proof.
  induction fuel as [|fuel IH]; intros board ps depth; [exact I|].
  rewrite max_n_unfold.
  destruct (last ps) as [player|] eqn:Hlast.
  - destruct (get_player_areas board player) as [|a areas]; [apply IH|].
    destruct depth as [|depth'].
    + simpl. destruct (removelast ps) as [|q qs] eqn:Hrem; [|apply IH].
      eapply on_return_bind; [apply good_on_return, good_get_players_heuristics|]. intros h _. reflexivity.
    + eapply on_return_bind;
        [apply good_on_return,
           (get_possible_turns_good probability_of_successful_attack probability_of_holding_area
              self player board)|].
      intros [all_turns board'] _.
      destruct (firstn (S depth') all_turns) as [|t0 ts] eqn:Hturns.
      * eapply on_return_bind; [apply IH|]. intros [[t h] ps'] Hr. simpl in *. exact Hr.
      * eapply on_return_bind.
        -- apply (explore_consumes _ board' player); [intros b ps'; apply IH | left; discriminate].
        -- intros [[h t] ps'] Hr. simpl in *. exact Hr.
  - apply last_None in Hlast. subst ps.
    eapply on_return_bind; [apply good_on_return, good_get_players_heuristics|]. intros h _. reflexivity.
Qed.

(** X10: the search ends for every board, rotation and depth, and when it
    returns, the rotation deque it shares with its caller is empty: every
    player of the rotation has been removed on the way. *)
Theorem max_n_ends_with_empty_rotation (board : Board) (players_names : list Z) (depth extra : nat) :
  max_n probability_of_successful_attack probability_of_holding_area self
    (max_n_fuel players_names depth + extra) board players_names depth <> OutOfFuel
  /\ forall fuel turn h players_names',
       max_n probability_of_successful_attack probability_of_holding_area self
         fuel board players_names depth = Ret (turn, h, players_names') ->
       players_names' = [].
Proof.
  split.
  - intros E.
    pose proof (max_n_good probability_of_successful_attack probability_of_holding_area self
                  (max_n_fuel players_names depth + extra) board players_names depth) as Hgood.
    rewrite E in Hgood. apply Hgood. lia.
  - intros fuel turn h ps' E. pose proof (max_n_consumes fuel board players_names depth) as H.
    rewrite E in H. exact H.
Qed.

(** With an empty rotation the search does nothing but evaluate the
    acting player. *)
Lemma max_n_empty_rotation (fuel : nat) (board : Board) (depth : nat) (r : SearchResult) :
  max_n probability_of_successful_attack probability_of_holding_area self fuel board [] depth = Ret r ->
  get_players_heuristics [self_player_name self] board = Ret (snd (fst r)) /\ snd r = [].
Proof.
  destruct fuel as [|fuel]; [discriminate|]. rewrite max_n_unfold. simpl.
  intros H. apply bind_Ret in H. destruct H as [h [Hh [= <-]]]. split; [exact Hh | reflexivity].
Qed.

Lemma explored_on_empty_rotation (fuel : nat) (depth : nat) (board : Board) (turns : list Turn)
    (ps : list Z) (results : list (Turn * gmap Z Z)) (ps' : list Z) :
  explored
    (fun board_copy players_names =>
       max_n probability_of_successful_attack probability_of_holding_area self
         fuel board_copy players_names depth)
    board turns ps results ps' ->
  ps = [] ->
  forall r, In r results ->
    exists board_copy,
      simulate_command board (fst (fst (fst r))) (snd (fst (fst r))) (snd (fst r)) = Ret board_copy
      /\ get_players_heuristics [self_player_name self] board_copy = Ret (snd r).
Proof.
  induction 1 as [ps|source target command_type rest ps board_copy t h ps1 results ps2 Hsim Hsearch Hrest IH];
    intros Hps r Hr; [destruct Hr|].
  subst ps. apply max_n_empty_rotation in Hsearch. simpl in Hsearch. destruct Hsearch as [Hh Hps1].
  destruct Hr as [<-|Hr]; [|apply IH; assumption].
  exists board_copy. simpl. split; assumption.
Qed.

Lemma explored_after_first (fuel : nat) (depth : nat) (board : Board) (turns : list Turn)
    (ps : list Z) (results : list (Turn * gmap Z Z)) (ps' : list Z) :
  explored
    (fun board_copy players_names =>
       max_n probability_of_successful_attack probability_of_holding_area self
         fuel board_copy players_names depth)
    board turns ps results ps' ->
  forall j r, nth_error results (S j) = Some r ->
    exists board_copy,
      simulate_command board (fst (fst (fst r))) (snd (fst (fst r))) (snd (fst r)) = Ret board_copy
      /\ get_players_heuristics [self_player_name self] board_copy = Ret (snd r).
Proof.
  intros H j r Hr.
  destruct H as [ps|source target command_type rest ps board_copy t h ps1 results ps2 Hsim Hsearch Hrest];
    [discriminate|].
  simpl in Hr. apply nth_error_In in Hr.
  pose proof (max_n_consumes fuel board_copy ps depth) as Hc. rewrite Hsearch in Hc. simpl in Hc.
  apply (explored_on_empty_rotation fuel depth board rest ps1 results ps2 Hrest Hc r Hr).
Qed.

(** X11: in the normal case only the first candidate is looked ahead.  The
    search below it empties the shared rotation, so every later candidate
    is judged in the empty-rotation branch, by the heuristic of the acting
    player alone on the board right after the simulated move.  Hence a
    returned turn is either the generator's first candidate, or, when the
    player to move is the acting player, a candidate returned with exactly
    that one-step evaluation. *)
Theorem max_n_looks_ahead_first_candidate_only (fuel : nat) (board : Board) (players_names : list Z)
    (depth : nat) (player : Z) (best : Turn) (h : gmap Z Z) (players_names' : list Z) :
  last players_names = Some player ->
  get_player_areas board player <> [] ->
  max_n probability_of_successful_attack probability_of_holding_area self
    (S fuel) board players_names (S depth) = Ret (Some best, h, players_names') ->
  exists all_turns,
    get_possible_turns probability_of_successful_attack probability_of_holding_area self player board
      = Ret (all_turns, board)
    /\ In best (firstn (S depth) all_turns)
    /\ (hd_error all_turns = Some best
        \/ (player = self_player_name self
            /\ exists board_copy,
                 simulate_command board (fst (fst best)) (snd (fst best)) (snd best) = Ret board_copy
                 /\ get_players_heuristics [self_player_name self] board_copy = Ret h)).
Proof.
  intros Hlast Hareas. rewrite max_n_unfold, Hlast.
  destruct (get_player_areas board player) as [|a areas]; [congruence|].
  pose proof (get_possible_turns_good probability_of_successful_attack probability_of_holding_area
                self player board) as Hgen.
  destruct (get_possible_turns probability_of_successful_attack probability_of_holding_area
              self player board) as [[all_turns board']| |]; [|simpl; discriminate|simpl; discriminate].
  simpl in Hgen. destruct Hgen as [-> _]. rewrite ret_bind. cbv beta iota.
  destruct (firstn (S depth) all_turns) as [|t0 ts] eqn:Hturns.
  - intros H. apply bind_Ret in H. destruct H as [[[t h0] ps0] [_ H]]. discriminate.
  - intros H. apply bind_Ret in H. destruct H as [[[h' t'] ps'] [Hexp H]].
    destruct (decide (h' = ∅)); [discriminate|]. injection H as <- <- <-.
    apply explore_spec in Hexp. destruct Hexp as [results [Hrun [Hmap Hsel]]].
    destruct (selected_from_empty player results (0, 0, BATTLE_COMMAND) (h', t') Hsel)
      as [[Hempty _] | [i [v [Hi [Hv _]]]]]; [simpl in Hempty; contradiction|].
    simpl in Hi, Hv.
    exists all_turns. split; [reflexivity|]. split.
    + rewrite Hturns, <- Hmap. apply nth_error_In in Hi. apply (in_map fst) in Hi. exact Hi.
    + destruct i as [|j].
      * left. destruct results as [|r0 rs]; [discriminate|]. simpl in Hi. injection Hi as ->.
        simpl in Hmap. injection Hmap as <- _.
        destruct all_turns as [|x xs]; [discriminate|]. simpl in Hturns. injection Hturns as -> _.
        reflexivity.
      * right. destruct (explored_after_first _ _ _ _ _ _ _ Hrun j (t', h') Hi) as [bc [Hsim Hh]].
        simpl in Hsim, Hh. split; [|exists bc; split; assumption].
        unfold get_players_heuristics in Hh.
        destruct (players_heuristics_loop_outcome [self_player_name self] bc ∅)
          as [[h2 [Hrun2 [_ Hdom]]] | [Hraise _]]; [|congruence].
        rewrite Hh in Hrun2. injection Hrun2 as <-.
        assert (Hp : player ∈ dom h') by (apply elem_of_dom; eexists; exact Hv).
        rewrite Hdom in Hp. set_solver.
Qed.

End SharedRotation.

(** On [reserve_board] the generator ranks the attack from area 10 first
    and the transfer from area 20 to area 10 second.  The attack is looked
    ahead to the end of the rotation and leaves player 1 a heuristic of
    112; the transfer is judged on the board right after it, 118, and is
    the turn the search returns. *)
Example reserve_board_search :
  get_possible_turns dice_attack_oracle dice_hold_oracle example_ai 1 reserve_board
    = Ret ([(10, 30, BATTLE_COMMAND); (20, 10, TRANSFER_COMMAND)], reserve_board)
  /\ (board_copy ← simulate_command reserve_board 10 30 BATTLE_COMMAND;
      max_n dice_attack_oracle dice_hold_oracle example_ai 17 board_copy [2; 1] 4)
     = Ret (Some (20, 10, TRANSFER_COMMAND), <[1 := 112]> ∅, [])
  /\ (board_copy ← simulate_command reserve_board 20 10 TRANSFER_COMMAND;
      get_players_heuristics [1] board_copy)
     = Ret (<[1 := 118]> ∅)
  /\ max_n dice_attack_oracle dice_hold_oracle example_ai 18 reserve_board [2; 1] 5
     = Ret (Some (20, 10, TRANSFER_COMMAND), <[1 := 118]> ∅, []).
Proof. repeat split; vm_compute; reflexivity. Qed.

Lemma max_n_looks_ahead_first_candidate_only_witness :
  exists all_turns,
    get_possible_turns dice_attack_oracle dice_hold_oracle example_ai 1 reserve_board
      = Ret (all_turns, reserve_board)
    /\ In (20, 10, TRANSFER_COMMAND) (firstn 5 all_turns)
    /\ (hd_error all_turns = Some (20, 10, TRANSFER_COMMAND)
        \/ (1 = self_player_name example_ai
            /\ exists board_copy,
                 simulate_command reserve_board 20 10 TRANSFER_COMMAND = Ret board_copy
                 /\ get_players_heuristics [self_player_name example_ai] board_copy
                    = Ret (<[1 := 118]> ∅))).
Proof.
  apply (max_n_looks_ahead_first_candidate_only dice_attack_oracle dice_hold_oracle example_ai
           17 reserve_board [2; 1] 4 1 (20, 10, TRANSFER_COMMAND) (<[1 := 118]> ∅) []).
  - reflexivity.
  - vm_compute. discriminate.
  - vm_compute. reflexivity.
Defined.

(** ** The rotation built by [ai_turn] *)

Lemma rotate_to_unfold (fuel : nat) (player : Z) (players : list Z) :
  rotate_to fuel player players
  = match last players with
    | None => Raise IndexError
    | Some p =>
        if p =? player then Ret players
        else
          match fuel with
          | O => OutOfFuel
          | S fuel => rotate_to fuel player (p :: removelast players)
          end
    end.
Proof. destruct fuel; reflexivity. Qed.

Lemma rotate_to_reaches (player : Z) (fuel : nat) :
  forall a b,
    ~ In player b -> (length b <= fuel)%nat ->
    rotate_to fuel player (a ++ [player] ++ b) = Ret (b ++ a ++ [player]).
Proof.
  induction fuel as [|fuel IH]; intros a b Hb Hlen.
  - destruct b; [|simpl in Hlen; lia]. rewrite rotate_to_unfold, app_nil_r, last_snoc, Z.eqb_refl.
    reflexivity.
  - destruct b as [|x b' _] using rev_ind.
    + rewrite rotate_to_unfold, app_nil_r, last_snoc, Z.eqb_refl. reflexivity.
    + assert (Hx : x <> player) by (intros ->; apply Hb; apply in_or_app; right; left; reflexivity).
      rewrite rotate_to_unfold.
      replace (a ++ [player] ++ b' ++ [x]) with ((a ++ [player] ++ b') ++ [x])
        by (rewrite <- !app_assoc; reflexivity).
      rewrite last_snoc, removelast_last.
      destruct (x =? player) eqn:E; [apply Z.eqb_eq in E; contradiction|].
      change (x :: a ++ [player] ++ b') with ((x :: a) ++ [player] ++ b').
      rewrite IH.
      * rewrite <- !app_assoc. reflexivity.
      * intros H. apply Hb. apply in_or_app. left. exact H.
      * rewrite length_app in Hlen. simpl in Hlen. lia.
Qed.

Lemma rotate_to_never (player : Z) (fuel : nat) :
  forall players, players <> [] -> ~ In player players -> rotate_to fuel player players = OutOfFuel.
Proof.
  induction fuel as [|fuel IH]; intros players Hne Hin; rewrite rotate_to_unfold.
  - destruct (last players) as [p|] eqn:Hl; [|apply last_None in Hl; contradiction].
    pose proof (last_removelast players p Hl) as Heq.
    destruct (p =? player) eqn:E; [|reflexivity].
    apply Z.eqb_eq in E. subst p. exfalso. apply Hin. rewrite Heq. apply in_or_app. right. left. reflexivity.
  - destruct (last players) as [p|] eqn:Hl; [|apply last_None in Hl; contradiction].
    pose proof (last_removelast players p Hl) as Heq.
    destruct (p =? player) eqn:E.
    + apply Z.eqb_eq in E. subst p. exfalso. apply Hin. rewrite Heq. apply in_or_app. right. left. reflexivity.
    + apply IH; [discriminate|]. intros [->|H].
      * apply Hin. rewrite Heq. apply in_or_app. right. left. reflexivity.
      * apply Hin. rewrite Heq. apply in_or_app. left. exact H.
Qed.

Lemma last_occurrence (x : Z) (l : list Z) :
  In x l -> exists a b, l = a ++ [x] ++ b /\ ~ In x b.
Proof.
  induction l as [|y rest IH]; intros H; [destruct H|].
  destruct (in_dec Z.eq_dec x rest) as [Hin|Hnot].
  - destruct (IH Hin) as [a [b [-> Hb]]]. exists (y :: a), b. split; [reflexivity | exact Hb].
  - destruct H as [->|H]; [|contradiction]. exists [], rest. split; [reflexivity | exact Hnot].
Qed.

(** X12: the rotation of [ai_turn].  For a player of the table it is the
    reversed table turned so that the player's last entry comes to the
    right end, the entries after it moved to the front in their order; an
    empty table ends in [IndexError]; and when the player is not in a
    non-empty table the loop never ends, whatever the fuel. *)
Theorem search_rotation_outcome (player : Z) (players_order : list Z) :
  (players_order = [] -> search_rotation player players_order = Raise IndexError)
  /\ (In player players_order ->
      exists a b,
        rev players_order = a ++ [player] ++ b /\ ~ In player b
        /\ search_rotation player players_order = Ret (b ++ a ++ [player]))
  /\ (players_order <> [] -> ~ In player players_order ->
      forall fuel, rotate_to fuel player (rev players_order) = OutOfFuel).
Proof.
  split; [|split].
  - intros ->. reflexivity.
  - intros Hin. apply in_rev in Hin. destruct (last_occurrence _ _ Hin) as [a [b [Heq Hb]]].
    exists a, b. split; [exact Heq|]. split; [exact Hb|].
    unfold search_rotation. rewrite Heq. apply rotate_to_reaches; [exact Hb|].
    rewrite <- (length_rev players_order), Heq, !length_app. lia.
  - intros Hne Hin fuel. apply rotate_to_never.
    + intros H. apply Hne. rewrite <- (rev_involutive players_order), H. reflexivity.
    + intros H. apply Hin. apply in_rev. exact H.
Qed.

Lemma rotate_to_last (player : Z) (fuel : nat) :
  forall players ps, rotate_to fuel player players = Ret ps -> last ps = Some player.
Proof.
  induction fuel as [|fuel IH]; intros players ps; rewrite rotate_to_unfold;
    destruct (last players) as [p|] eqn:Hl; try discriminate;
    destruct (p =? player) eqn:E; try discriminate.
  - intros [= <-]. apply Z.eqb_eq in E. subst p. exact Hl.
  - intros [= <-]. apply Z.eqb_eq in E. subst p. exact Hl.
  - apply IH.
Qed.

(** ** The entry point *)

Lemma perform_command_cases (self : AI) (source target command_type nb : Z) :
  perform_command self source target command_type nb = BattleCommand source target
  \/ (perform_command self source target command_type nb = TransferCommand source target
      /\ nb < self_max_transfers self)
  \/ perform_command self source target command_type nb = EndTurnCommand.
Proof.
  unfold perform_command. destruct (command_type =? BATTLE_COMMAND); [left; reflexivity|].
  destruct (command_type =? TRANSFER_COMMAND); simpl; [|right; right; reflexivity].
  destruct (nb <? self_max_transfers self) eqn:E; [|right; right; reflexivity].
  right. left. split; [reflexivity | lia].
Qed.

Section EntryPoint.

Variable probability_of_successful_attack : Board -> Z -> Z -> float.
Variable probability_of_holding_area : Board -> Z -> Z -> Z -> float.

Lemma returned_source_owned (self : AI) (player_name : Z) (board : Board) (turns : list Turn) (board' : Board)
    (turn : Turn) :
  board_wf board ->
  get_possible_turns probability_of_successful_attack probability_of_holding_area self player_name board
    = Ret (turns, board') ->
  In turn turns ->
  owner_of board (fst (fst turn)) = Some player_name.
Proof.
  intros Hwf E Hin.
  pose proof (get_possible_turns_good probability_of_successful_attack probability_of_holding_area
                self player_name board) as Hgood.
  rewrite E in Hgood. simpl in Hgood.
  destruct Hgood as [_ [largest [extras [_ [Hq Hturns]]]]]. subst turns.
  apply in_map_iff in Hin. destruct Hin as [e [He Hin]].
  apply (Permutation_in _ (sorted_desc_perm _)) in Hin.
  assert (Hsrc : exists a, In a (get_player_areas board player_name) /\ get_name a = fst (fst turn)).
  { apply in_app_or in Hin. destruct Hin as [Hin|Hin].
    - apply in_flat_map in Hin. destruct Hin as [[s t] [Hpair Hin]].
      apply attack_turn_In in Hin. destruct Hin as [Hs _].
      apply possible_attacks_In in Hpair. destruct Hpair as [Hb _].
      unfold get_player_border in Hb. apply filter_In in Hb. destruct Hb as [Hb _].
      exists s. split; [exact Hb|]. unfold entry_source in Hs. rewrite He in Hs. simpl in Hs. congruence.
    - rewrite List.Forall_forall in Hq. destruct (Hq e Hin) as [_ Hs].
      unfold entry_source in Hs. rewrite He in Hs.
      apply in_map_iff in Hs. destruct Hs as [a [Hn Ha]]. exists a. split; assumption. }
  destruct Hsrc as [a [Ha <-]]. apply get_player_areas_In in Ha. destruct Ha as [Ha Ho].
  unfold owner_of. rewrite (find_area_wf board a Hwf Ha). simpl. rewrite Ho. reflexivity.
Qed.

Lemma max_n_turn_is_candidate (self : AI) (fuel : nat) (board : Board) (players_names : list Z)
    (depth : nat) (player : Z) (best : Turn) (h : gmap Z Z) (players_names' : list Z) :
  last players_names = Some player ->
  get_player_areas board player <> [] ->
  max_n probability_of_successful_attack probability_of_holding_area self
    (S fuel) board players_names (S depth) = Ret (Some best, h, players_names') ->
  exists all_turns board',
    get_possible_turns probability_of_successful_attack probability_of_holding_area self player board
      = Ret (all_turns, board')
    /\ In best all_turns.
Proof.
  intros Hlast Hareas. rewrite max_n_unfold, Hlast.
  destruct (get_player_areas board player) as [|a areas]; [congruence|].
  destruct (get_possible_turns probability_of_successful_attack probability_of_holding_area
              self player board) as [[all_turns board']| |]; [|simpl; discriminate|simpl; discriminate].
  rewrite ret_bind. cbv beta iota.
  destruct (firstn (S depth) all_turns) as [|t0 ts] eqn:Hturns.
  - intros H. apply bind_Ret in H. destruct H as [[[t h0] ps0] [_ H]]. discriminate.
  - intros H. apply bind_Ret in H. destruct H as [[[h' t'] ps'] [Hexp H]].
    destruct (decide (h' = ∅)); [discriminate|]. injection H as <- <- <-.
    apply explore_spec in Hexp. destruct Hexp as [results [_ [Hmap Hsel]]].
    destruct (selected_from_empty player results (0, 0, BATTLE_COMMAND) (h', t') Hsel)
      as [[Hempty _] | [i [v [Hi _]]]]; [simpl in Hempty; contradiction|].
    simpl in Hi. exists all_turns, board'. split; [reflexivity|].
    apply nth_error_In in Hi. apply (in_map fst) in Hi. rewrite Hmap, <- Hturns in Hi.
    rewrite <- (firstn_skipn (S depth) all_turns). apply in_or_app. left. exact Hi.
Qed.

(** X13: whatever path it takes, [ai_turn] hands back a transfer command
    only while the transfers made this turn are below the cap. *)
Theorem ai_turn_respects_transfer_cap (player : Z) (players_order : list Z) (max_transfers : Z)
    (board : Board) (nb_moves_this_turn nb_transfers_this_turn nb_turns_this_game : Z) (time_left : float)
    (source target : Z) :
  ai_turn probability_of_successful_attack probability_of_holding_area player players_order max_transfers
    board nb_moves_this_turn nb_transfers_this_turn nb_turns_this_game time_left
    = Ret (TransferCommand source target) ->
  nb_transfers_this_turn < max_transfers.
Proof.
  unfold ai_turn.
  match goal with |- (if ?c then _ else _) = _ -> _ => destruct c end.
  - intros H. apply bind_Ret in H. destruct H as [players [_ H]].
    apply bind_Ret in H. destruct H as [[[turn h] ps] [_ H]].
    destruct turn as [[[s t] k]|]; [|discriminate]. injection H as H.
    destruct (perform_command_cases (mkAI player max_transfers nb_transfers_this_turn) s t k
                nb_transfers_this_turn) as [Hc|[[Hc Hlt]|Hc]]; rewrite Hc in H; try discriminate.
    exact Hlt.
  - intros H. apply bind_Ret in H. destruct H as [[turns b] [_ H]].
    destruct turns as [|[[s t] k] rest]; [discriminate|]. injection H as H.
    destruct (perform_command_cases (mkAI player max_transfers nb_transfers_this_turn) s t k
                nb_transfers_this_turn) as [Hc|[[Hc Hlt]|Hc]]; rewrite Hc in H; try discriminate.
    exact Hlt.
Qed.

(** X14: on a board with pairwise distinct area names, when the acting
    player owns an area, every battle or transfer command that [ai_turn]
    hands back, through the search or through the fallback, starts from an
    area the acting player owns. *)
Theorem ai_turn_moves_from_own_area (player : Z) (players_order : list Z) (max_transfers : Z)
    (board : Board) (nb_moves_this_turn nb_transfers_this_turn nb_turns_this_game : Z) (time_left : float)
    (command : Command) :
  board_wf board ->
  get_player_areas board player <> [] ->
  ai_turn probability_of_successful_attack probability_of_holding_area player players_order max_transfers
    board nb_moves_this_turn nb_transfers_this_turn nb_turns_this_game time_left
    = Ret command ->
  match command with
  | BattleCommand source _ | TransferCommand source _ => owner_of board source = Some player
  | EndTurnCommand => True
  end.
Proof.
  intros Hwf Hareas. unfold ai_turn.
  assert (Hcmd : forall self s t k nb,
             owner_of board s = Some player ->
             match perform_command self s t k nb with
             | BattleCommand source _ | TransferCommand source _ => owner_of board source = Some player
             | EndTurnCommand => True
             end).
  { intros self s t k nb Ho.
    destruct (perform_command_cases self s t k nb) as [Hc|[[Hc _]|Hc]]; rewrite Hc; auto. }
  match goal with |- (if ?c then _ else _) = _ -> _ => destruct c end.
  - intros H. apply bind_Ret in H. destruct H as [players [Hrot H]].
    apply rotate_to_last in Hrot.
    apply bind_Ret in H. destruct H as [[[turn h] ps] [Hsearch H]].
    destruct turn as [[[s t] k]|]; [|injection H as <-; exact I]. injection H as <-.
    change (Nat.iter (MAX_N_ITERATIONS - 1) (fun players0 => players0 ++ players) players)
      with players in Hsearch.
    unfold max_n_fuel in Hsearch. rewrite Nat.add_1_r in Hsearch.
    change MAX_N_DEPTH with (S 4) in Hsearch at 3.
    destruct (max_n_turn_is_candidate _ _ _ _ _ _ _ _ _ Hrot Hareas Hsearch) as [all_turns [b' [Hgen Hin]]].
    apply Hcmd. apply (returned_source_owned _ _ _ _ _ _ Hwf Hgen Hin).
  - intros H. apply bind_Ret in H. destruct H as [[turns b] [Hgen H]].
    destruct turns as [|[[s t] k] rest]; [injection H as <-; exact I|]. injection H as <-.
    apply Hcmd. apply (returned_source_owned _ _ _ _ _ (s, t, k) Hwf Hgen). left. reflexivity.
Qed.

End EntryPoint.

(** At the table [1; 2], with no move and no transfer made yet and ten
    seconds left, [ai_turn] searches [reserve_board] for player 1 and hands
    back the transfer from area 20 to area 10. *)
Example reserve_board_turn :
  ai_turn dice_attack_oracle dice_hold_oracle 1 [1; 2] 6 reserve_board 0 0 10 10%float
  = Ret (TransferCommand 20 10).
Proof. vm_compute. reflexivity. Qed.

Lemma ai_turn_respects_transfer_cap_witness : 0 < 6.
Proof.
  apply (ai_turn_respects_transfer_cap dice_attack_oracle dice_hold_oracle 1 [1; 2] 6 reserve_board
           0 0 10 10%float 20 10).
  vm_compute. reflexivity.
Defined.

Lemma ai_turn_moves_from_own_area_witness : owner_of reserve_board 20 = Some 1.
Proof.
  apply (ai_turn_moves_from_own_area dice_attack_oracle dice_hold_oracle 1 [1; 2] 6 reserve_board
           0 0 10 10%float (TransferCommand 20 10)).
  - unfold board_wf, area_names. simpl.
    repeat (apply List.NoDup_cons; [simpl; intuition discriminate|]). apply List.NoDup_nil.
  - vm_compute. discriminate.
  - vm_compute. reflexivity.
Defined.

(** ** Missing areas *)

Lemma enemy_names_returns (board : Board) (player_name : Z) (names : list Z) (enemies : list Z) :
  enemy_names board player_name names = Ret enemies ->
  forall n, In n names -> is_Some (find_area board n).
Proof.
  revert enemies. induction names as [|m rest IH]; intros enemies H n Hn; [destruct Hn|].
  simpl in H. apply bind_Ret in H. destruct H as [a [Ha H]].
  apply bind_Ret in H. destruct H as [others [Hothers _]].
  destruct Hn as [<-|Hn]; [|apply (IH _ Hothers n Hn)].
  unfold get_area in Ha. destruct (find_area board m); [eexists; reflexivity | discriminate].
Qed.

(** X15: the transfer probe returns exactly when its source, its target
    and every neighbour of its target are areas of the board; in every
    other case a dictionary lookup fails and the call ends in [KeyError],
    never in another exception. *)
Theorem get_transfer_probability_outcome_iff (probability_of_successful_attack : Board -> Z -> Z -> float)
    (probability_of_holding_area : Board -> Z -> Z -> Z -> float)
    (board : Board) (source target player_name : Z) :
  ((exists p, get_transfer_probability probability_of_successful_attack probability_of_holding_area
                board source target player_name = Ret (p, board))
   <-> is_Some (find_area board source)
       /\ exists t, find_area board target = Some t
                    /\ forall n, In n (get_adjacent_areas_names t) -> is_Some (find_area board n))
  /\ ((exists p, get_transfer_probability probability_of_successful_attack probability_of_holding_area
                   board source target player_name = Ret (p, board))
      \/ get_transfer_probability probability_of_successful_attack probability_of_holding_area
           board source target player_name = Raise KeyError).
Proof.
  split; [|apply get_transfer_probability_outcome]. split.
  - intros [p H]. unfold get_transfer_probability, get_area in H.
    destruct (find_area board source) as [s|]; simpl in H; [|discriminate].
    destruct (find_area board target) as [t|]; simpl in H; [|discriminate].
    split; [eexists; reflexivity|]. exists t. split; [reflexivity|].
    destruct (enemy_names board player_name (get_adjacent_areas_names t)) as [enemies| |] eqn:E;
      simpl in H; try discriminate.
    apply (enemy_names_returns _ _ _ _ E).
  - intros [[s Hs] [t [Ht Hadj]]]. unfold get_transfer_probability, get_area.
    rewrite Hs, Ht. simpl. rewrite (enemy_names_spec _ _ _ Hadj). simpl.
    rewrite (set_dice_restore _ _ _ _ Ht). eexists. reflexivity.
Qed.

(** A simulated command returns exactly when its source and its
    target are areas of the board, whatever the command type; otherwise the
    lookup fails and the call ends in [KeyError]. *)
Lemma simulate_command_outcome (board : Board) (source target command_type : Z) :
  ((exists board', simulate_command board source target command_type = Ret board')
   <-> is_Some (find_area board source) /\ is_Some (find_area board target))
  /\ ((exists board', simulate_command board source target command_type = Ret board')
      \/ simulate_command board source target command_type = Raise KeyError).
Proof.
  unfold simulate_command, get_area.
  destruct (find_area board source) as [s|]; simpl.
  - destruct (find_area board target) as [t|]; simpl.
    + assert (H : exists board',
                 (if command_type =? BATTLE_COMMAND
                  then Ret (set_owner target source
                              (set_dice source 1 (set_dice target (dice_of board source - 1) board)))
                  else if command_type =? TRANSFER_COMMAND
                       then Ret (set_dice source
                                   (Z.max (dice_of (set_dice target (Z.min (dice_of board target + dice_of board source) MAX_DICE) board) source
                                           - (dice_of (set_dice target (Z.min (dice_of board target + dice_of board source) MAX_DICE) board) target
                                              - dice_of board target)) 1)
                                   (set_dice target (Z.min (dice_of board target + dice_of board source) MAX_DICE) board))
                       else Ret board) = Ret board').
      { destruct (command_type =? BATTLE_COMMAND); [eexists; reflexivity|].
        destruct (command_type =? TRANSFER_COMMAND); eexists; reflexivity. }
      split; [|left; exact H]. split; [intros _; split; eexists; reflexivity | intros _; exact H].
    + split; [|right; reflexivity]. split; [intros [b' Hb]; discriminate | intros [_ [x Hx]]; discriminate].
  - split; [|right; reflexivity]. split; [intros [b' Hb]; discriminate | intros [[x Hx] _]; discriminate].
Qed.

(** ** Heuristics and dice *)

Lemma update_area_absent (idx : Z) (f : Area -> Area) (board : Board) :
  find_area board idx = None -> update_area idx f board = board.
Proof.
  unfold find_area. induction board as [|x rest IH]; simpl; [reflexivity|].
  destruct (get_name x =? idx); [discriminate|]. intros E. rewrite (IH E). reflexivity.
Qed.

Lemma adjacent_set_dice (idx d : Z) (board : Board) (m n : Z) :
  adjacent (set_dice idx d board) m n = adjacent board m n.
Proof.
  unfold adjacent, set_dice. destruct (Z.eq_dec idx m) as [<-|Hne].
  - destruct (find_area board idx) as [a|] eqn:E.
    + rewrite (find_area_update_same idx _ board a); [reflexivity | reflexivity | exact E].
    + rewrite update_area_absent by exact E. rewrite E. reflexivity.
  - rewrite find_area_update_other; [reflexivity | reflexivity | exact Hne].
Qed.

Lemma map_filter_update {B : Type} (g : Area -> B) (P P' : Area -> bool) (idx : Z) (f : Area -> Area)
    (board : Board) :
  (forall a, P' a = P a) -> (forall a, P (f a) = P a) -> (forall a, g (f a) = g a) ->
  map g (List.filter P' (update_area idx f board)) = map g (List.filter P board).
Proof.
  intros Hext HP Hg. induction board as [|x rest IH]; simpl; [reflexivity|].
  destruct (get_name x =? idx); simpl.
  - rewrite Hext, HP. destruct (P x); simpl.
    + rewrite Hg. f_equal. apply f_equal. apply filter_ext. exact Hext.
    + apply f_equal. apply filter_ext. exact Hext.
  - rewrite Hext. destruct (P x); simpl; rewrite IH; reflexivity.
Qed.

Lemma existsb_pointwise {A : Type} (f g : A -> bool) (l : list A) :
  (forall x, f x = g x) -> existsb f l = existsb g l.
Proof. intros H. induction l as [|x rest IH]; simpl; [reflexivity|]. rewrite H, IH. reflexivity. Qed.

Lemma region_step_set_dice (idx d : Z) (board : Board) (owner : Z) (region : list Z) :
  region_step (set_dice idx d board) owner region = region_step board owner region.
Proof.
  unfold region_step. f_equal. unfold set_dice. apply map_filter_update.
  - intros a. f_equal. apply existsb_pointwise. intros m. apply adjacent_set_dice.
  - intros a. reflexivity.
  - intros a. reflexivity.
Qed.

Lemma get_areas_region_set_dice (idx d : Z) (board : Board) (owner start : Z) :
  get_areas_region (set_dice idx d board) owner start = get_areas_region board owner start.
Proof.
  unfold get_areas_region.
  assert (Hlen : length (set_dice idx d board) = length board).
  { rewrite <- (length_map get_name (set_dice idx d board)), <- (length_map get_name board).
    f_equal. apply set_dice_names. }
  rewrite Hlen. clear Hlen. induction (length board) as [|k IH]; simpl; [reflexivity|].
  rewrite IH. apply region_step_set_dice.
Qed.

Lemma regions_fold_names (G : list (list Z) -> Z -> list (list Z)) (l l' : list Area) :
  map get_name l = map get_name l' ->
  forall acc,
    fold_left (fun regions a => G regions (get_name a)) l acc
    = fold_left (fun regions a => G regions (get_name a)) l' acc.
Proof.
  revert l'. induction l as [|x rest IH]; intros l' H acc; destruct l' as [|y rest']; try discriminate;
    [reflexivity|].
  simpl in *. injection H as Hxy Hrest. rewrite Hxy. apply IH. exact Hrest.
Qed.

Lemma fold_left_pointwise {A B : Type} (f g : A -> B -> A) (l : list B) :
  (forall acc x, f acc x = g acc x) -> forall acc, fold_left f l acc = fold_left g l acc.
Proof.
  intros H. induction l as [|x rest IH]; intros acc; simpl; [reflexivity|]. rewrite H. apply IH.
Qed.

(** Writing dice changes no region-group. *)
Lemma get_players_regions_set_dice (idx d : Z) (board : Board) (player : Z) :
  get_players_regions (set_dice idx d board) player = get_players_regions board player.
Proof.
  unfold get_players_regions.
  assert (Hnames : map get_name (get_player_areas (set_dice idx d board) player)
                   = map get_name (get_player_areas board player)).
  { unfold get_player_areas, set_dice. apply map_filter_update; reflexivity. }
  rewrite (regions_fold_names
             (fun regions n =>
                if existsb (mem n) regions then regions
                else regions ++ [get_areas_region (set_dice idx d board) player n])
             _ _ Hnames).
  apply fold_left_pointwise. intros regions a. rewrite get_areas_region_set_dice. reflexivity.
Qed.

Lemma get_player_dice_set_dice (idx d : Z) (board : Board) (player : Z) (a : Area) :
  find_area board idx = Some a ->
  get_player_dice (set_dice idx d board) player
  = get_player_dice board player + (if get_owner_name a =? player then d - get_dice a else 0).
Proof.
  unfold get_player_dice, get_player_areas, set_dice, find_area.
  induction board as [|x rest IH]; simpl; [discriminate|].
  destruct (get_name x =? idx); simpl.
  - intros [= <-]. destruct (get_owner_name x =? player); simpl; lia.
  - intros H. specialize (IH H). destruct (get_owner_name x =? player); simpl; lia.
Qed.

Lemma player_heuristic_set_dice (idx d : Z) (board : Board) (player : Z) (a : Area) (v : Z) :
  find_area board idx = Some a ->
  player_heuristic board player = Ret v ->
  player_heuristic (set_dice idx d board) player
  = Ret (v + (if get_owner_name a =? player then d - get_dice a else 0)).
Proof.
  intros Ha. unfold player_heuristic.
  rewrite get_players_regions_set_dice, (get_player_dice_set_dice idx d board player a Ha).
  rewrite !region_fold_spec. simpl.
  destruct (py_max _) as [largest| |]; simpl; try discriminate.
  intros [= <-]. f_equal. lia.
Qed.

Lemma players_heuristics_loop_set_dice (idx d : Z) (board : Board) (a : Area) (players : list Z) :
  find_area board idx = Some a ->
  forall acc acc' h,
    (forall p, acc' !! p = (fun v => v + (if get_owner_name a =? p then d - get_dice a else 0)) <$> acc !! p) ->
    players_heuristics_loop players board acc = Ret h ->
    exists h',
      players_heuristics_loop players (set_dice idx d board) acc' = Ret h'
      /\ forall p, h' !! p = (fun v => v + (if get_owner_name a =? p then d - get_dice a else 0)) <$> h !! p.
Proof.
  intros Ha. induction players as [|q rest IH]; intros acc acc' h Hacc; simpl.
  - intros [= <-]. exists acc'. split; [reflexivity | exact Hacc].
  - intros H. apply bind_Ret in H. destruct H as [v [Hv H]].
    rewrite (player_heuristic_set_dice idx d board q a v Ha Hv). simpl.
    apply (IH (<[q := v]> acc)); [|exact H].
    intros p. destruct (Z.eq_dec q p) as [<-|Hne].
    + rewrite !lookup_insert_eq. reflexivity.
    + rewrite !lookup_insert_ne by exact Hne. apply Hacc.
Qed.

(** X16: writing [d] dice into an area of the board moves the heuristic of
    the area's owner by the difference to the dice the area held, and the
    heuristic of every other evaluated player not at all: the evaluator
    still returns, regions being untouched.  In particular more dice never
    lower the owner's value. *)
Theorem get_players_heuristics_set_dice (players : list Z) (board : Board) (idx d : Z) (a : Area)
    (h : gmap Z Z) :
  find_area board idx = Some a ->
  get_players_heuristics players board = Ret h ->
  exists h',
    get_players_heuristics players (set_dice idx d board) = Ret h'
    /\ forall p v,
         h !! p = Some v ->
         h' !! p = Some (if get_owner_name a =? p then v + (d - get_dice a) else v).
Proof.
  intros Ha Hh. unfold get_players_heuristics in *.
  destruct (players_heuristics_loop_set_dice idx d board a players Ha ∅ ∅ h) as [h' [Hrun Hval]];
    [intros p; rewrite !lookup_empty; reflexivity | exact Hh |].
  exists h'. split; [exact Hrun|].
  intros p v Hp. rewrite Hval, Hp. simpl. destruct (get_owner_name a =? p); f_equal; lia.
Qed.

Lemma get_players_heuristics_set_dice_witness :
  exists h',
    get_players_heuristics [1; 2] (set_dice 1 7 line_board) = Ret h'
    /\ forall p v,
         (<[1 := 115]> (<[2 := 59]> ∅) : gmap Z Z) !! p = Some v ->
         h' !! p = Some (if 1 =? p then v + (7 - 3) else v).
Proof.
  apply (get_players_heuristics_set_dice [1; 2] line_board 1 7 (mkArea 1 1 3 [2])
           (<[1 := 115]> (<[2 := 59]> ∅))).
  - reflexivity.
  - vm_compute. reflexivity.
Defined.

(** ** The fallback of the entry point *)

(** X17: when the time left is below the threshold, or the moves of the
    turn or the turns of the game have reached their limits, [ai_turn] does
    not search; on a board with pairwise distinct area names and closed
    adjacency lists it then returns a command for every acting player who
    owns an area: the command of the first-ranked candidate, or the end of
    the turn when there is none. *)
Theorem ai_turn_fallback_returns (probability_of_successful_attack : Board -> Z -> Z -> float)
    (probability_of_holding_area : Board -> Z -> Z -> Z -> float)
    (player : Z) (players_order : list Z) (max_transfers : Z)
    (board : Board) (nb_moves_this_turn nb_transfers_this_turn nb_turns_this_game : Z) (time_left : float) :
  PrimFloat.leb MAX_N_TIME_THRESHOLD time_left
    && (nb_moves_this_turn <? MAX_N_TURNS_LIMIT)
    && (nb_turns_this_game <? MAX_N_TOTAL_TURNS_LIMIT) = false ->
  board_wf board ->
  adjacency_closed board ->
  get_player_areas board player <> [] ->
  exists turns,
    get_possible_turns probability_of_successful_attack probability_of_holding_area
      (mkAI player max_transfers nb_transfers_this_turn) player board = Ret (turns, board)
    /\ ai_turn probability_of_successful_attack probability_of_holding_area player players_order
         max_transfers board nb_moves_this_turn nb_transfers_this_turn nb_turns_this_game time_left
       = Ret match turns with
             | (source, target, command_type) :: _ =>
                 perform_command (mkAI player max_transfers nb_transfers_this_turn)
                   source target command_type nb_transfers_this_turn
             | [] => EndTurnCommand
             end.
Proof.
  intros Hcond Hwf Hclosed Hareas. unfold ai_turn. rewrite Hcond.
  destruct (generation_returns probability_of_successful_attack probability_of_holding_area
              (mkAI player max_transfers nb_transfers_this_turn) player board Hwf Hclosed) as [Hret _].
  destruct (Hret Hareas) as [turns Hturns]. exists turns. split; [exact Hturns|].
  rewrite Hturns. simpl. destruct turns as [|[[s t] k] rest]; reflexivity.
Qed.

Lemma ai_turn_fallback_returns_witness :
  exists turns,
    get_possible_turns dice_attack_oracle dice_hold_oracle (mkAI 1 6 0) 1 chain_board = Ret (turns, chain_board)
    /\ ai_turn dice_attack_oracle dice_hold_oracle 1 [1; 2] 6 chain_board 5 0 10 10%float
       = Ret match turns with
             | (source, target, command_type) :: _ =>
                 perform_command (mkAI 1 6 0) source target command_type 0
             | [] => EndTurnCommand
             end.
Proof.
  apply (ai_turn_fallback_returns dice_attack_oracle dice_hold_oracle 1 [1; 2] 6 chain_board 5 0 10 10%float).
  - vm_compute. reflexivity.
  - unfold board_wf, area_names. simpl.
    repeat (apply List.NoDup_cons; [simpl; intuition discriminate|]). apply List.NoDup_nil.
  - intros a n Ha Hn. simpl in Ha.
    repeat (destruct Ha as [<-|Ha];
            [simpl in Hn; repeat (destruct Hn as [<-|Hn]; [vm_compute; eexists; reflexivity|]); destruct Hn|]).
    destruct Ha.
  - vm_compute. discriminate.
Defined.
